(** * VolumeWii: the encrypted-partition volume reader of DiscIO

    A shallow embedding of [Source/Core/DiscIO/VolumeWii.cpp]: partition
    discovery (the constructor), the encrypted read path with its one-slot
    cluster cache, the raw-offset helper and the integrity checker.

    Integers of the program are modelled as [Z] with the wrap-around of the
    C++ type written out ([wrap64], [wrap32]); byte buffers are [list byte];
    the three [std::map]s keyed by [Partition] are [gmap]s keyed by the
    partition's offset (the key the C++ comparison operators use).

    The collaborators whose code is outside this translation unit (the blob
    reader, the ES ticket helpers, mbedtls) are interfaces, given as type
    classes. *)

From Stdlib Require Import ZArith Lia List.
From Stdlib.Strings Require Import Byte.
From stdpp Require Import base option list gmap sorting.

Local Open Scope Z_scope.

(** ** Machine integers *)

Definition wrap64 (x : Z) : Z := x mod 2 ^ 64.
Definition wrap32 (x : Z) : Z := x mod 2 ^ 32.

Definition UINT64_MAX : Z := 2 ^ 64 - 1.

Definition add64 (a b : Z) : Z := wrap64 (a + b).
Definition mul64 (a b : Z) : Z := wrap64 (a * b).
Definition mul32 (a b : Z) : Z := wrap32 (a * b).

(** [static_cast<u64>(x) << 2] *)
Definition shl2_64 (x : Z) : Z := wrap64 (Z.shiftl x 2).
(** [x <<= 2] on a [u32] *)
Definition shl2_32 (x : Z) : Z := wrap32 (Z.shiftl x 2).

Definition u64_range (x : Z) : Prop := 0 <= x < 2 ^ 64.

(** The values [i, i + 1, ...] a counting [for] loop of [n] rounds takes. *)
Fixpoint counting (n : nat) (i : Z) : list Z :=
  match n with
  | O => []
  | S n' => i :: counting n' (i + 1)
  end.

(** ** Bytes *)

#[global] Instance byte_eq_decision : EqDecision byte := Byte.byte_eq_dec.

Definition byte_val (b : byte) : Z := Z.of_N (Byte.to_N b).

Definition byte_of_Z (z : Z) : byte :=
  match Byte.of_N (Z.to_N (Z.land z 255)) with
  | Some b => b
  | None => x00
  end.

Definition byte_at (bs : list byte) (i : nat) : Z := byte_val (nth i bs x00).

(** The four bytes of a [u32] in memory, read on a little-endian host
    (what [(u8* )&partSizeDiv4] yields after the reader has filled it). *)
Definition u32_le (bs : list byte) : Z :=
  byte_at bs 0 + byte_at bs 1 * 2 ^ 8 + byte_at bs 2 * 2 ^ 16 + byte_at bs 3 * 2 ^ 24.

(** The same four bytes read as a big-endian scalar. *)
Definition u32_be (bs : list byte) : Z :=
  byte_at bs 0 * 2 ^ 24 + byte_at bs 1 * 2 ^ 16 + byte_at bs 2 * 2 ^ 8 + byte_at bs 3.

(** Modelled from the spec: [Common::swap32] is declared in Common/Swap.h,
    not among the sources: it reverses the four bytes of a [u32]. *)
Definition swap32 (x : Z) : Z :=
  (x mod 2 ^ 8) * 2 ^ 24 + (x / 2 ^ 8 mod 2 ^ 8) * 2 ^ 16
  + (x / 2 ^ 16 mod 2 ^ 8) * 2 ^ 8 + (x / 2 ^ 24 mod 2 ^ 8).

(** ** Cluster geometry *)

(** Modelled from the spec: the three block constants are declared in
    DiscIO/VolumeWii.h, which is not among the sources; the values are the
    ones of the spec's data model. *)
Definition BLOCK_HEADER_SIZE : Z := 0x400.
Definition BLOCK_DATA_SIZE : Z := 0x7C00.
Definition BLOCK_TOTAL_SIZE : Z := 0x8000.

Definition PARTITION_DATA_OFFSET : Z := 0x20000.

(** [sizeof(IOS::ES::Ticket)], fixed by the [static_assert] of Formats.h. *)
Definition sizeof_Ticket : Z := 0x2A4.

(** ** Partition descriptors and the ES views *)

(** Modelled from the spec: [Partition] is declared in DiscIO/Volume.h, not
    among the sources: a value carrying the partition's absolute byte offset,
    compared by that offset. *)
Record Partition : Type := MkPartition { offset : Z }.

Definition Partition_eqb (a b : Partition) : bool := offset a =? offset b.

(** Modelled from the spec: the distinguished descriptor [PARTITION_NONE]
    is declared in DiscIO/Volume.h; its offset is left as a parameter. *)
Class VolumeDecl : Type := { PARTITION_NONE : Partition }.

Record TicketReader : Type := MkTicketReader { ticket_bytes : list byte }.
Record TMDReader : Type := MkTMDReader { tmd_bytes : list byte }.

(** Modelled from the spec: the sentinels are default-constructed (empty)
    views; their declaration is in DiscIO/Volume.h. *)
Definition INVALID_TICKET : TicketReader := MkTicketReader [].
Definition INVALID_TMD : TMDReader := MkTMDReader [].

(** The part of IOS::ES (Formats.h) the volume calls; the bodies are in
    Formats.cpp, outside the sources. *)
Class ESFormats : Type := {
  TicketReader_IsValid : TicketReader -> bool;
  TicketReader_GetTitleId : TicketReader -> Z;
  TicketReader_GetTitleKey : TicketReader -> list byte;
  TMDReader_IsValid : TMDReader -> bool;
  IsValidTMDSize : Z -> bool
}.

(** [BlobReader::Read(offset, length, out)]: [Some bytes] when the reader
    reports success (the bytes it stored in [out]), [None] when it fails. *)
Class BlobReader : Type := { blob_Read : Z -> Z -> option (list byte) }.

(** The mbedtls entry points used by the volume. *)
Class Mbedtls : Type := {
  aes_context : Type;
  mbedtls_aes_setkey_dec : list byte -> aes_context;
  (** [mbedtls_aes_crypt_cbc(ctx, MBEDTLS_AES_DECRYPT, len, iv, input, output)]:
      the plaintext written to [output] *)
  mbedtls_aes_crypt_cbc_dec : aes_context -> list byte -> list byte -> list byte;
  mbedtls_sha1 : list byte -> list byte
}.

(** Messages raised through [PanicAlert]. *)
Inductive Alert : Type := Invalid_TMD_size.

Section Volume.
Context `{VD : VolumeDecl} `{ES : ESFormats} `{BR : BlobReader} `{MB : Mbedtls}.

(** Modelled from the spec: [BlobReader::ReadSwapped<u32>] is a template of
    DiscIO/Blob.h, not among the sources: a big-endian scalar read derived
    from the byte read, empty when the byte read fails. *)
Definition ReadSwapped_u32 (off : Z) : option Z :=
  match blob_Read off 4 with
  | Some bs => Some (u32_be bs)
  | None => None
  end.

(** [std::optional<u32> != u32] and [std::optional<u32> == u32]. *)
Definition optional_ne (o : option Z) (v : Z) : bool :=
  match o with Some x => negb (x =? v) | None => true end.
Definition optional_eq (o : option Z) (v : Z) : bool :=
  match o with Some x => x =? v | None => false end.

Record VolumeWii : Type := MkVolumeWii {
  m_partition_keys : gmap Z aes_context;
  m_partition_tickets : gmap Z TicketReader;
  m_partition_tmds : gmap Z TMDReader;
  m_game_partition : Partition;
  m_last_decrypted_block : Z;
  m_last_decrypted_block_data : list byte
}.

(** The member initialisers of the constructor; the cache buffer is a plain
    array member, modelled as zero-filled. *)
Definition initial_volume : VolumeWii :=
  {| m_partition_keys := ∅;
     m_partition_tickets := ∅;
     m_partition_tmds := ∅;
     m_game_partition := PARTITION_NONE;
     m_last_decrypted_block := UINT64_MAX;
     m_last_decrypted_block_data := replicate (Z.to_nat BLOCK_DATA_SIZE) x00 |}.

Definition set_cache (v : VolumeWii) (blk : Z) (data : list byte) : VolumeWii :=
  {| m_partition_keys := m_partition_keys v;
     m_partition_tickets := m_partition_tickets v;
     m_partition_tmds := m_partition_tmds v;
     m_game_partition := m_game_partition v;
     m_last_decrypted_block := blk;
     m_last_decrypted_block_data := data |}.

(** *** Construction: partition discovery *)

(** The body of the inner [for] loop (one partition-table entry), on the
    volume built so far and the alerts raised so far. *)
Definition scan_partition (partition_table_offset : Z) (st : VolumeWii * list Alert)
    (i : Z) : VolumeWii * list Alert :=
  let '(v, alerts) := st in
  match ReadSwapped_u32 (add64 partition_table_offset (mul32 i 8)) with
  | None => st
  | Some read_buffer =>
    let partition_offset := shl2_64 read_buffer in
    let is_game_partition :=
      Partition_eqb (m_game_partition v) PARTITION_NONE &&
      optional_eq
        (ReadSwapped_u32 (add64 (add64 partition_table_offset (mul32 i 8)) 4)) 0 in
    match blob_Read partition_offset sizeof_Ticket with
    | None => st
    | Some ticket_buffer =>
      let ticket := MkTicketReader ticket_buffer in
      if negb (TicketReader_IsValid ticket) then st else
      let tmd_size := ReadSwapped_u32 (add64 partition_offset 0x2a4) in
      let tmd_address := ReadSwapped_u32 (add64 partition_offset 0x2a8) in
      match tmd_size, tmd_address with
      | Some tmd_size, Some tmd_address =>
        let tmd_address := shl2_32 tmd_address in
        if negb (IsValidTMDSize tmd_size) then (v, alerts ++ [Invalid_TMD_size]) else
        match blob_Read (add64 partition_offset tmd_address) tmd_size with
        | None => st
        | Some tmd_buffer =>
          let tmd := MkTMDReader tmd_buffer in
          let key := TicketReader_GetTitleKey ticket in
          if negb (Z.of_nat (length key) =? 16) then st else
          let aes := mbedtls_aes_setkey_dec key in
          let partition := MkPartition partition_offset in
          ({| m_partition_keys := <[offset partition := aes]> (m_partition_keys v);
              m_partition_tickets := <[offset partition := ticket]> (m_partition_tickets v);
              m_partition_tmds := <[offset partition := tmd]> (m_partition_tmds v);
              m_game_partition :=
                if is_game_partition then partition else m_game_partition v;
              m_last_decrypted_block := m_last_decrypted_block v;
              m_last_decrypted_block_data := m_last_decrypted_block_data v |},
           alerts)
        end
      | _, _ => st
      end
    end
  end.

(** The body of the outer [for] loop (one partition group). *)
Definition scan_group (st : VolumeWii * list Alert) (partition_group : Z)
    : VolumeWii * list Alert :=
  match ReadSwapped_u32 (wrap32 (0x40000 + mul32 partition_group 8)) with
  | None => st
  | Some number_of_partitions =>
    match ReadSwapped_u32 (wrap32 (wrap32 (0x40000 + mul32 partition_group 8) + 4)) with
    | None => st
    | Some read_buffer =>
      let partition_table_offset := shl2_64 read_buffer in
      foldl (scan_partition partition_table_offset) st
            (counting (Z.to_nat number_of_partitions) 0)
    end
  end.

(** [VolumeWii::VolumeWii]: the volume, and the alerts shown while building it. *)
Definition VolumeWii_ctor : VolumeWii * list Alert :=
  if optional_ne (ReadSwapped_u32 0x60) 0 then (initial_volume, [])
  else foldl scan_group (initial_volume, []) (counting 4 0).

(** *** The encrypted read path *)

Definition block_offset_on_disc (p : Partition) (ReadOffset : Z) : Z :=
  add64 (add64 (offset p) PARTITION_DATA_OFFSET)
        (mul64 (ReadOffset / BLOCK_DATA_SIZE) BLOCK_TOTAL_SIZE).

Definition data_offset_in_block (ReadOffset : Z) : Z := ReadOffset mod BLOCK_DATA_SIZE.

(** The plaintext [mbedtls_aes_crypt_cbc] leaves in the cache buffer for a
    cluster read into [read_buffer]: IV at [0x3D0], ciphertext of
    [BLOCK_DATA_SIZE] bytes from [BLOCK_HEADER_SIZE]. *)
Definition decrypt_block (aes : aes_context) (read_buffer : list byte) : list byte :=
  mbedtls_aes_crypt_cbc_dec aes
    (take 16 (drop (Z.to_nat 0x3D0) read_buffer))
    (take (Z.to_nat BLOCK_DATA_SIZE) (drop (Z.to_nat BLOCK_HEADER_SIZE) read_buffer)).

(** The [while (_Length > 0)] loop of [Read]. The result carries the success
    flag, the bytes stored through [_pBuffer] so far (in order), and the
    volume with its cache; [None] only when [fuel] runs out. *)
Fixpoint Read_loop (fuel : nat) (aes : aes_context) (p : Partition) (v : VolumeWii)
    (ReadOffset Length : Z) : option (bool * list byte * VolumeWii) :=
  if Length <=? 0 then Some (true, [], v) else
  match fuel with
  | O => None
  | S fuel' =>
    let blk := block_offset_on_disc p ReadOffset in
    let off := data_offset_in_block ReadOffset in
    let fetched :=
      if negb (m_last_decrypted_block v =? blk) then
        match blob_Read blk BLOCK_TOTAL_SIZE with
        | None => None
        | Some read_buffer => Some (set_cache v blk (decrypt_block aes read_buffer))
        end
      else Some v in
    match fetched with
    | None => Some (false, [], v)
    | Some v1 =>
      let copy_size := Z.min Length (BLOCK_DATA_SIZE - off) in
      let chunk :=
        take (Z.to_nat copy_size) (drop (Z.to_nat off) (m_last_decrypted_block_data v1)) in
      match Read_loop fuel' aes p v1 (add64 ReadOffset copy_size) (Length - copy_size) with
      | Some (ok, rest, v2) => Some (ok, chunk ++ rest, v2)
      | None => None
      end
    end
  end.

(** [VolumeWii::Read]. Every iteration of the loop copies at least one byte,
    so [Length] iterations are always enough. *)
Definition Read (v : VolumeWii) (ReadOffset Length : Z) (p : Partition)
    : bool * list byte * VolumeWii :=
  if Partition_eqb p PARTITION_NONE then
    match blob_Read ReadOffset Length with
    | Some bs => (true, bs, v)
    | None => (false, [], v)
    end
  else
    match m_partition_keys v !! offset p with
    | None => (false, [], v)
    | Some aes =>
      match Read_loop (Z.to_nat Length) aes p v ReadOffset Length with
      | Some r => r
      | None => (false, [], v)
      end
    end.

(** The caller's buffer after [Read] stored [written] at its start. *)
Definition buffer_after (out written : list byte) : list byte :=
  written ++ drop (length written) out.

(** *** Accessors *)

Definition GetPartitions (v : VolumeWii) : list Partition :=
  MkPartition <$> merge_sort Z.le (elements (dom (m_partition_keys v))).

Definition GetGamePartition (v : VolumeWii) : Partition := m_game_partition v.

Definition GetTicket (v : VolumeWii) (p : Partition) : TicketReader :=
  match m_partition_tickets v !! offset p with
  | Some t => t
  | None => INVALID_TICKET
  end.

Definition GetTMD (v : VolumeWii) (p : Partition) : TMDReader :=
  match m_partition_tmds v !! offset p with
  | Some t => t
  | None => INVALID_TMD
  end.

Definition GetTitleID (v : VolumeWii) (p : Partition) : option Z :=
  let ticket := GetTicket v p in
  if negb (TicketReader_IsValid ticket) then None
  else Some (TicketReader_GetTitleId ticket).

Definition PartitionOffsetToRawOffset (off : Z) (p : Partition) : Z :=
  if Partition_eqb p PARTITION_NONE then off
  else
    add64 (add64 (add64 (offset p) PARTITION_DATA_OFFSET)
                 (mul64 (off / BLOCK_DATA_SIZE) BLOCK_TOTAL_SIZE))
          (off mod BLOCK_DATA_SIZE).

(** *** The integrity checker *)

(** The padding test: some byte of [clusterMD[0x26C..0x280)] is not zero. *)
Definition meaningless (clusterMD : list byte) : bool :=
  existsb (fun idx => negb (byte_at clusterMD idx =? 0)) (seq 0x26C%nat 20%nat).

(** [memcmp(hash, clusterMD + hashID * 20, 20) == 0] for the SHA-1 of
    sub-block [hashID]. *)
Definition hash_matches (clusterData clusterMD : list byte) (hashID : nat) : bool :=
  bool_decide
    (take 20 (mbedtls_sha1 (take 0x400 (drop (hashID * 0x400)%nat clusterData)))
     = take 20 (drop (hashID * 20)%nat clusterMD)).

(** The inner [for] loop over the 31 hashes: true when none fails. *)
Definition hashes_match (clusterData clusterMD : list byte) : bool :=
  forallb (hash_matches clusterData clusterMD) (seq 0%nat 31%nat).

Definition zero_IV : list byte := replicate 16 x00.

Definition cluster_offset (p : Partition) (clusterID : Z) : Z :=
  add64 (add64 (offset p) PARTITION_DATA_OFFSET) (mul64 clusterID 0x8000).

(** The cluster loop, for the [n] clusters from [clusterID] on. *)
Fixpoint CheckIntegrity_loop (n : nat) (aes : aes_context) (p : Partition)
    (v : VolumeWii) (clusterID : Z) : bool * VolumeWii :=
  match n with
  | O => (true, v)
  | S n' =>
    let clusterOff := cluster_offset p clusterID in
    match blob_Read clusterOff 0x400 with
    | None => (false, v)
    | Some clusterMDCrypted =>
      let clusterMD := mbedtls_aes_crypt_cbc_dec aes zero_IV (take 0x400 clusterMDCrypted) in
      if meaningless clusterMD then CheckIntegrity_loop n' aes p v (clusterID + 1)
      else
        match Read v (mul64 clusterID 0x7C00) 0x7C00 p with
        | (false, _, v1) => (false, v1)
        | (true, clusterData, v1) =>
          if hashes_match clusterData clusterMD
          then CheckIntegrity_loop n' aes p v1 (clusterID + 1)
          else (false, v1)
        end
    end
  end.

(** The number of clusters [CheckIntegrity] walks, from the value of the
    local [partSizeDiv4]. *)
Definition nClusters (partSizeDiv4 : Z) : Z :=
  wrap32 (wrap64 (swap32 partSizeDiv4 * 4) / 0x8000).

(** [VolumeWii::CheckIntegrity]. The result of the size read is not tested
    by the code: when it fails, [partSizeDiv4] keeps the indeterminate value
    [stale] of the uninitialised local. *)
Definition CheckIntegrity (stale : Z) (v : VolumeWii) (p : Partition)
    : bool * VolumeWii :=
  match m_partition_keys v !! offset p with
  | None => (false, v)
  | Some aes =>
    let partSizeDiv4 :=
      match blob_Read (add64 (offset p) 0x2BC) 4 with
      | Some bs => u32_le bs
      | None => wrap32 stale
      end in
    CheckIntegrity_loop (Z.to_nat (nClusters partSizeDiv4)) aes p v 0
  end.

(** *** Reading the constructor's scan entry by entry *)

(** Why a partition-table entry is not stored, in the order of the
    constructor's checks. *)
Inductive EntryError : Type :=
  | No_partition_offset
  | No_ticket
  | Invalid_ticket
  | No_TMD_header
  | Rejected_TMD_size
  | No_TMD
  | Bad_title_key.

(** What the constructor stores for an entry that passes every check. *)
Record Loaded : Type := MkLoaded {
  ld_offset : Z;
  ld_ticket : TicketReader;
  ld_tmd : TMDReader;
  ld_key : list byte
}.

(** The checks of the loop body on entry [i] of the table at [pto]. *)
Definition check_entry (e : Z * Z) : EntryError + Loaded :=
  let '(pto, i) := e in
  match ReadSwapped_u32 (add64 pto (mul32 i 8)) with
  | None => inl No_partition_offset
  | Some raw =>
    let po := shl2_64 raw in
    match blob_Read po sizeof_Ticket with
    | None => inl No_ticket
    | Some tb =>
      if negb (TicketReader_IsValid (MkTicketReader tb)) then inl Invalid_ticket else
      match ReadSwapped_u32 (add64 po 0x2a4), ReadSwapped_u32 (add64 po 0x2a8) with
      | Some size, Some addr =>
        if negb (IsValidTMDSize size) then inl Rejected_TMD_size else
        match blob_Read (add64 po (shl2_32 addr)) size with
        | None => inl No_TMD
        | Some mb =>
          let key := TicketReader_GetTitleKey (MkTicketReader tb) in
          if negb (Z.of_nat (length key) =? 16) then inl Bad_title_key
          else inr (MkLoaded po (MkTicketReader tb) (MkTMDReader mb) key)
        end
      | _, _ => inl No_TMD_header
      end
    end
  end.

Definition entry_stored (e : Z * Z) : bool :=
  match check_entry e with inr _ => true | inl _ => false end.

Definition entry_alerts (e : Z * Z) : list Alert :=
  match check_entry e with
  | inl Rejected_TMD_size => [Invalid_TMD_size]
  | _ => []
  end.

(** The volume after an entry that passed every check was stored. *)
Definition store_loaded (v : VolumeWii) (ld : Loaded) (is_game_partition : bool) : VolumeWii :=
  {| m_partition_keys :=
       <[ld_offset ld := mbedtls_aes_setkey_dec (ld_key ld)]> (m_partition_keys v);
     m_partition_tickets := <[ld_offset ld := ld_ticket ld]> (m_partition_tickets v);
     m_partition_tmds := <[ld_offset ld := ld_tmd ld]> (m_partition_tmds v);
     m_game_partition :=
       if is_game_partition then MkPartition (ld_offset ld) else m_game_partition v;
     m_last_decrypted_block := m_last_decrypted_block v;
     m_last_decrypted_block_data := m_last_decrypted_block_data v |}.

(** The three maps of a volume have the same keys. *)
Definition maps_aligned (v : VolumeWii) : Prop :=
  forall k,
    (m_partition_tickets v !! k = None <-> m_partition_keys v !! k = None) /\
    (m_partition_tmds v !! k = None <-> m_partition_keys v !! k = None).

(** The type field of an entry is zero. *)
Definition entry_type0 (e : Z * Z) : bool :=
  optional_eq (ReadSwapped_u32 (add64 (add64 (fst e) (mul32 (snd e) 8)) 4)) 0.

(** The partition offset an entry names. *)
Definition entry_offset (e : Z * Z) : option Z :=
  shl2_64 <$> ReadSwapped_u32 (add64 (fst e) (mul32 (snd e) 8)).

Definition scan_entry (st : VolumeWii * list Alert) (e : Z * Z) : VolumeWii * list Alert :=
  scan_partition (fst e) st (snd e).

(** The entries of one group, as (table offset, index), in index order. *)
Definition group_entries (partition_group : Z) : list (Z * Z) :=
  match ReadSwapped_u32 (wrap32 (0x40000 + mul32 partition_group 8)) with
  | None => []
  | Some number_of_partitions =>
    match ReadSwapped_u32 (wrap32 (wrap32 (0x40000 + mul32 partition_group 8) + 4)) with
    | None => []
    | Some read_buffer =>
      (fun i => (shl2_64 read_buffer, i)) <$> counting (Z.to_nat number_of_partitions) 0
    end
  end.

(** Every entry the constructor visits: group-major, then index-major;
    none when the word at [0x60] is not a readable zero. *)
Definition scanned_entries : list (Z * Z) :=
  if optional_ne (ReadSwapped_u32 0x60) 0 then []
  else counting 4 0 ≫= group_entries.

Definition partition_of (o : option Z) : Partition :=
  match o with Some off => MkPartition off | None => PARTITION_NONE end.

(** The game partition as the specification words it: the first entry, in
    scan order, that names a partition and has type 0. *)
Definition first_type0_partition : Partition :=
  partition_of
    (find (fun e => bool_decide (is_Some (entry_offset e)) && entry_type0 e) scanned_entries
       ≫= entry_offset).

(** The first entry of type 0 among those the constructor stores. *)
Definition first_stored_type0_partition : Partition :=
  partition_of
    (find (fun e => entry_stored e && entry_type0 e) scanned_entries ≫= entry_offset).

(** *** One round of the read loop *)

(** The cache test and, on a miss, the fetch and decryption of the cluster
    at [blk]; [None] when the reader fails. *)
Definition fetch_cluster (aes : aes_context) (v : VolumeWii) (blk : Z) : option VolumeWii :=
  if negb (m_last_decrypted_block v =? blk) then
    match blob_Read blk BLOCK_TOTAL_SIZE with
    | None => None
    | Some read_buffer => Some (set_cache v blk (decrypt_block aes read_buffer))
    end
  else Some v.

Definition copy_size_of (ReadOffset Length : Z) : Z :=
  Z.min Length (BLOCK_DATA_SIZE - data_offset_in_block ReadOffset).

Definition chunk_of (v : VolumeWii) (ReadOffset Length : Z) : list byte :=
  take (Z.to_nat (copy_size_of ReadOffset Length))
       (drop (Z.to_nat (data_offset_in_block ReadOffset)) (m_last_decrypted_block_data v)).

(** Two volumes differ at most in their cache. *)
Definition same_partitions (v v' : VolumeWii) : Prop :=
  m_partition_keys v' = m_partition_keys v /\
  m_partition_tickets v' = m_partition_tickets v /\
  m_partition_tmds v' = m_partition_tmds v /\
  m_game_partition v' = m_game_partition v.

(** *** Reading cluster by cluster, without a cache *)

(** The read path as the specification words it for a known partition:
    every cluster touched is fetched from the reader and decrypted with the
    partition's key. The flag and the bytes delivered; [None] only when
    [fuel] runs out. *)
Fixpoint serve_clusters (fuel : nat) (aes : aes_context) (p : Partition)
    (ReadOffset Length : Z) : option (bool * list byte) :=
  if Length <=? 0 then Some (true, []) else
  match fuel with
  | O => None
  | S fuel' =>
    match blob_Read (block_offset_on_disc p ReadOffset) BLOCK_TOTAL_SIZE with
    | None => Some (false, [])
    | Some cluster =>
      let off := data_offset_in_block ReadOffset in
      let copy_size := Z.min Length (BLOCK_DATA_SIZE - off) in
      let chunk :=
        take (Z.to_nat copy_size) (drop (Z.to_nat off) (decrypt_block aes cluster)) in
      match serve_clusters fuel' aes p (add64 ReadOffset copy_size) (Length - copy_size) with
      | Some (ok, rest) => Some (ok, chunk ++ rest)
      | None => None
      end
    end
  end.

(** The cache does not contradict partition [p]: when the cached offset is
    that of one of [p]'s clusters, the buffer holds that cluster as the
    reader delivers it, decrypted with [p]'s key. *)
Definition cache_agrees (aes : aes_context) (p : Partition) (v : VolumeWii) : Prop :=
  forall ReadOffset,
    m_last_decrypted_block v = block_offset_on_disc p ReadOffset ->
    exists cluster,
      blob_Read (m_last_decrypted_block v) BLOCK_TOTAL_SIZE = Some cluster /\
      m_last_decrypted_block_data v = decrypt_block aes cluster.

(** *** The cache invariant and the states a volume goes through *)

(** The cache holds a cluster of a known partition, decrypted with its key. *)
Definition cache_holds_cluster (v : VolumeWii) : Prop :=
  exists (p : Partition) (aes : aes_context) (ReadOffset : Z) (cluster : list byte),
    m_partition_keys v !! offset p = Some aes /\
    m_last_decrypted_block v = block_offset_on_disc p ReadOffset /\
    blob_Read (m_last_decrypted_block v) BLOCK_TOTAL_SIZE = Some cluster /\
    m_last_decrypted_block_data v = decrypt_block aes cluster.

Definition cache_invariant (v : VolumeWii) : Prop :=
  m_last_decrypted_block v <> UINT64_MAX -> cache_holds_cluster v.

(** Every key of the partition map is a multiple of four. *)
Definition keys_word_aligned (v : VolumeWii) : Prop :=
  forall k, is_Some (m_partition_keys v !! k) -> k mod 4 = 0.

(** The volume after construction and any sequence of [Read] and
    [CheckIntegrity] calls. *)
Inductive reachable : VolumeWii -> Prop :=
  | reachable_ctor : reachable (fst VolumeWii_ctor)
  | reachable_Read v ReadOffset Length p :
      reachable v -> reachable (snd (Read v ReadOffset Length p))
  | reachable_CheckIntegrity stale v p :
      reachable v -> reachable (snd (CheckIntegrity stale v p)).

(** *** The integrity check cluster by cluster *)

(** The decrypted metadata of cluster [c], when the reader delivers it. *)
Definition cluster_metadata (aes : aes_context) (p : Partition) (c : Z) : option (list byte) :=
  (fun md => mbedtls_aes_crypt_cbc_dec aes zero_IV (take 0x400 md))
    <$> blob_Read (cluster_offset p c) 0x400.

Definition cluster_skipped (aes : aes_context) (p : Partition) (c : Z) : bool :=
  match cluster_metadata aes p c with
  | Some md => meaningless md
  | None => false
  end.

(** The payload the encrypted read path delivers for cluster [c] during a
    walk started at cluster [first] on volume [v]: the cache buffer when [v]
    already holds that cluster and every cluster of the walk before [c] is
    skipped (so none was read), a fresh fetch and decryption otherwise. *)
Definition cluster_payload (v : VolumeWii) (aes : aes_context) (p : Partition)
    (first c : Z) : option (list byte) :=
  if (m_last_decrypted_block v =? cluster_offset p c)
     && forallb (cluster_skipped aes p) (counting (Z.to_nat (c - first)) first)
  then Some (take (Z.to_nat BLOCK_DATA_SIZE) (m_last_decrypted_block_data v))
  else (fun cl => take (Z.to_nat BLOCK_DATA_SIZE) (decrypt_block aes cl))
         <$> blob_Read (cluster_offset p c) BLOCK_TOTAL_SIZE.

(** Cluster [c] does not make the check fail: its metadata is readable, and
    it is either skipped by the padding test or its payload is readable and
    all 31 hashes match. *)
Definition cluster_passes (v : VolumeWii) (aes : aes_context) (p : Partition)
    (first c : Z) : Prop :=
  exists md,
    cluster_metadata aes p c = Some md /\
    (meaningless md = true \/
     exists payload,
       cluster_payload v aes p first c = Some payload /\
       forall hashID, (hashID < 31)%nat -> hash_matches payload md hashID = true).

(** *** The read path in the specification's words, constants written out *)

(** The read of [Length] bytes at [ReadOffset] of partition [p] as the
    specification describes it, without a cache: for each cluster touched,
    the [0x8000] bytes at [offset + 0x20000 + (ReadOffset / 0x7C00) * 0x8000]
    are read, the 16 bytes at [0x3D0] are the IV, the [0x7C00] bytes from
    [0x400] are decrypted with the partition's key, and bytes are copied from
    [ReadOffset mod 0x7C00] on; the flag is false at the first failed fetch.
    [None] only when [fuel] runs out. *)
Fixpoint read_by_clusters (fuel : nat) (aes : aes_context) (p : Partition)
    (ReadOffset Length : Z) : option (bool * list byte) :=
  if Length <=? 0 then Some (true, []) else
  match fuel with
  | O => None
  | S fuel' =>
    match blob_Read ((offset p + 0x20000 + ReadOffset / 0x7C00 * 0x8000) mod 2 ^ 64) 0x8000 with
    | None => Some (false, [])
    | Some cluster =>
      let plaintext :=
        mbedtls_aes_crypt_cbc_dec aes
          (take 16 (drop (Z.to_nat 0x3D0) cluster))
          (take (Z.to_nat 0x7C00) (drop (Z.to_nat 0x400) cluster)) in
      let copy_size := Z.min Length (0x7C00 - ReadOffset mod 0x7C00) in
      match read_by_clusters fuel' aes p ((ReadOffset + copy_size) mod 2 ^ 64)
              (Length - copy_size) with
      | Some (ok, rest) =>
        Some (ok, take (Z.to_nat copy_size)
                    (drop (Z.to_nat (ReadOffset mod 0x7C00)) plaintext) ++ rest)
      | None => None
      end
    end
  end.

(** The cache buffer is the cached cluster, as the reader delivers it,
    decrypted with [aes]. *)
Definition cache_decrypted_with (aes : aes_context) (v : VolumeWii) : Prop :=
  exists cluster,
    blob_Read (m_last_decrypted_block v) BLOCK_TOTAL_SIZE = Some cluster /\
    m_last_decrypted_block_data v = decrypt_block aes cluster.

(** The cache of [v] holds a cluster of partition [p] decrypted with [aes]:
    the cached offset is [offset + 0x20000 + k * 0x8000] for the cluster
    [k = ReadOffset / 0x7C00] of some 64-bit partition offset, and the buffer
    is the AES-CBC decryption of the [0x7C00] bytes from [0x400] of that
    cluster with the IV at [0x3D0]. *)
Definition holds_cluster_of (aes : aes_context) (p : Partition) (v : VolumeWii) : Prop :=
  exists (ReadOffset : Z) (cluster : list byte),
    0 <= ReadOffset < 2 ^ 64 /\
    m_last_decrypted_block v = (offset p + 0x20000 + ReadOffset / 0x7C00 * 0x8000) mod 2 ^ 64 /\
    blob_Read (m_last_decrypted_block v) 0x8000 = Some cluster /\
    m_last_decrypted_block_data v =
      mbedtls_aes_crypt_cbc_dec aes
        (take 16 (drop (Z.to_nat 0x3D0) cluster))
        (take (Z.to_nat 0x7C00) (drop (Z.to_nat 0x400) cluster)).

(** A call left the cache as it was. *)
Definition cache_kept (v v' : VolumeWii) : Prop :=
  m_last_decrypted_block v' = m_last_decrypted_block v /\
  m_last_decrypted_block_data v' = m_last_decrypted_block_data v.

(** *** The integrity check in the specification's words *)

(** Some byte of the decrypted metadata at an index of [0x26C..0x280) is
    not zero. *)
Definition padding_nonzero (md : list byte) : Prop :=
  exists idx : nat, (0x26C <= idx < 0x280)%nat /\ nth idx md x00 <> x00.

(** The SHA-1 of the 1024-byte sub-block [h] of the payload equals the
    20-byte slot [h] of the metadata. *)
Definition hash_slot_equal (payload md : list byte) (h : nat) : Prop :=
  take 20 (mbedtls_sha1 (take 1024 (drop (h * 1024)%nat payload)))
  = take 20 (drop (h * 20)%nat md).

(** The [0x400]-byte metadata region of cluster [c], decrypted with an
    all-zero IV. *)
Definition decrypted_metadata (aes : aes_context) (p : Partition) (c : Z)
    : option (list byte) :=
  match blob_Read ((offset p + 0x20000 + c * 0x8000) mod 2 ^ 64) 0x400 with
  | Some region => Some (mbedtls_aes_crypt_cbc_dec aes (replicate 16 x00) (take 1024 region))
  | None => None
  end.

(** Cluster [c] is skipped: its metadata is readable and fails the padding
    test. *)
Definition skipped_as_padding (aes : aes_context) (p : Partition) (c : Z) : Prop :=
  exists md, decrypted_metadata aes p c = Some md /\ padding_nonzero md.

(** The cache of [v] is still untouched and holds the offset of cluster [c]
    when the walk from cluster 0 reaches [c]: every cluster before it was
    skipped, so nothing was read. *)
Definition served_from_cache (v : VolumeWii) (aes : aes_context) (p : Partition)
    (c : Z) : Prop :=
  m_last_decrypted_block v = (offset p + 0x20000 + c * 0x8000) mod 2 ^ 64 /\
  forall c', 0 <= c' < c -> skipped_as_padding aes p c'.

(** [payload] is the [0x7C00] bytes the encrypted read path delivers for
    cluster [c] during a check started on [v]: the cache buffer when the
    cluster is served from the cache, the fetched cluster decrypted with the
    IV at [0x3D0] otherwise. *)
Definition delivered_payload (v : VolumeWii) (aes : aes_context) (p : Partition)
    (c : Z) (payload : list byte) : Prop :=
  (served_from_cache v aes p c /\
   payload = take (Z.to_nat 0x7C00) (m_last_decrypted_block_data v)) \/
  (~ served_from_cache v aes p c /\
   exists cluster,
     blob_Read ((offset p + 0x20000 + c * 0x8000) mod 2 ^ 64) 0x8000 = Some cluster /\
     payload =
       take (Z.to_nat 0x7C00)
         (mbedtls_aes_crypt_cbc_dec aes
            (take 16 (drop (Z.to_nat 0x3D0) cluster))
            (take (Z.to_nat 0x7C00) (drop (Z.to_nat 0x400) cluster)))).

(** Cluster [c] does not make the check fail. *)
Definition cluster_verified (v : VolumeWii) (aes : aes_context) (p : Partition)
    (c : Z) : Prop :=
  exists md,
    decrypted_metadata aes p c = Some md /\
    (padding_nonzero md \/
     exists payload,
       delivered_payload v aes p c payload /\
       forall h, (h < 31)%nat -> hash_slot_equal payload md h).

(** *** Reads confined to the partitions' extents *)

(** The number of clusters [CheckIntegrity] walks on partition [p]. *)
Definition clusters_walked (stale : Z) (p : Partition) : Z :=
  nClusters
    match blob_Read (add64 (offset p) 0x2BC) 4 with
    | Some bs => u32_le bs
    | None => wrap32 stale
    end.

(** With [extent p] the number of data bytes of partition [p]: no two
    partitions of the map with different keys have, inside their extents, a
    cluster at the same disc offset. *)
Definition extents_disjoint (extent : Partition -> Z) (v : VolumeWii) : Prop :=
  forall (p p' : Partition) (aes aes' : aes_context) (o o' : Z),
    m_partition_keys v !! offset p = Some aes ->
    m_partition_keys v !! offset p' = Some aes' ->
    0 <= o < extent p -> 0 <= o' < extent p' ->
    block_offset_on_disc p o = block_offset_on_disc p' o' ->
    aes = aes'.

(** The volume after construction and any sequence of [Read] and
    [CheckIntegrity] calls that stay inside the extents of the partitions
    they name. *)
Inductive confined (extent : Partition -> Z) : VolumeWii -> Prop :=
  | confined_ctor : confined extent (fst VolumeWii_ctor)
  | confined_Read v ReadOffset Length p :
      confined extent v ->
      0 <= ReadOffset -> 0 <= Length -> ReadOffset + Length <= extent p ->
      confined extent (snd (Read v ReadOffset Length p))
  | confined_CheckIntegrity stale v p :
      confined extent v ->
      clusters_walked stale p * 0x7C00 <= extent p ->
      confined extent (snd (CheckIntegrity stale v p)).

(** The cache holds a cluster inside the extent of a known partition,
    decrypted with its key. *)
Definition cache_within (extent : Partition -> Z) (v : VolumeWii) : Prop :=
  m_last_decrypted_block v <> UINT64_MAX ->
  exists (p : Partition) (aes : aes_context) (o : Z),
    m_partition_keys v !! offset p = Some aes /\
    0 <= o < extent p /\
    m_last_decrypted_block v = block_offset_on_disc p o /\
    cache_decrypted_with aes v.

End Volume.

(** ** Concrete images

    Small stand-ins for the collaborators, used to run the volume on
    explicit disc images: a reader backed by a sparse image, ES helpers that
    read the ticket fields at their offsets in [IOS::ES::Ticket], and a
    byte-wise keyed substitution in the place of AES-CBC and SHA-1. *)
Module Fixture.

Definition none_decl : VolumeDecl := {| PARTITION_NONE := MkPartition (2 ^ 64 - 2) |}.

Definition es : ESFormats :=
  {| TicketReader_IsValid t := Z.of_nat (length (ticket_bytes t)) =? 0x2A4;
     TicketReader_GetTitleId t :=
       u32_be (drop 0x1DC (ticket_bytes t)) * 2 ^ 32 + u32_be (drop 0x1E0 (ticket_bytes t));
     TicketReader_GetTitleKey t := take 16 (drop 0x1BF (ticket_bytes t));
     TMDReader_IsValid t := 0x1E4 <=? Z.of_nat (length (tmd_bytes t));
     IsValidTMDSize n := (0x1E4 <=? n) && (n <=? 0x49E4) |}.

Definition subst_byte (k iv : list byte) (b : byte) : byte :=
  byte_of_Z (byte_val b + byte_at k 0 + byte_at iv 0).

Definition digest (bs : list byte) : list byte :=
  replicate 20 (byte_of_Z (foldr (fun b acc => byte_val b + acc) 0 bs)).

Definition crypto : Mbedtls :=
  {| aes_context := list byte;
     mbedtls_aes_setkey_dec key := key;
     mbedtls_aes_crypt_cbc_dec k iv input := subst_byte k iv <$> input;
     mbedtls_sha1 := digest |}.

(** A disc image: big-endian words at 4-aligned addresses over a fill
    pattern, readable up to [img_size]. *)
Record Image : Type := MkImage {
  img_size : Z;
  img_words : list (Z * Z);
  img_fill : Z -> Z
}.

Definition image_byte (im : Image) (a : Z) : byte :=
  match find (fun w => fst w =? a - Z.land a 3) (img_words im) with
  | Some w => byte_of_Z (Z.shiftr (snd w) (8 * (3 - Z.land a 3)))
  | None => byte_of_Z (img_fill im a)
  end.

Definition reader (im : Image) : BlobReader :=
  {| blob_Read off len :=
       if (0 <=? len) && (off + len <=? img_size im)
       then Some (image_byte im <$> counting (Z.to_nat len) off)
       else None |}.

(** Zero below the first partition, a position-dependent pattern above. *)
Definition fill (a : Z) : Z := if a <? 0x50000 then 0 else a + Z.shiftr a 15.

(** One partition group with two entries, at [0x50000] (type 0) and at
    [0x58000] (type 1): the second partition starts one cluster after the
    first, so cluster [n + 1] of the first and cluster [n] of the second
    are the same bytes of the image. Each declares two clusters of data. *)
Definition overlapping : Image :=
  {| img_size := 0x88000;
     img_words :=
       [ (0x40000, 2); (0x40004, 0x10008);
         (0x40020, 0x14000); (0x40024, 0);
         (0x40028, 0x16000); (0x4002C, 1);
         (0x502A4, 0x208); (0x502A8, 0xB0); (0x502BC, 0x4000);
         (0x582A4, 0x208); (0x582A8, 0xB0); (0x582BC, 0x4000) ];
     img_fill := fill |}.

(** Two entries of type 0; the first one declares a TMD of [0x10] bytes. *)
Definition bad_first_game : Image :=
  {| img_size := 0x88000;
     img_words :=
       [ (0x40000, 2); (0x40004, 0x10008);
         (0x40020, 0x14000); (0x40024, 0);
         (0x40028, 0x16000); (0x4002C, 0);
         (0x502A4, 0x10); (0x502A8, 0xB0); (0x502BC, 0x4000);
         (0x582A4, 0x208); (0x582A8, 0xB0); (0x582BC, 0x4000) ];
     img_fill := fill |}.

(** The image of [overlapping] with every address of the [u64] range
    readable. *)
Definition unbounded : Image :=
  {| img_size := 2 ^ 64;
     img_words := img_words overlapping;
     img_fill := fill |}.

(** One partition at [0x50000] with one cluster of data whose header
    decrypts, under the stand-in cipher and the ticket's key, to zero hash
    slots and zero padding; every 1024-byte sub-block of the payload digests
    to zero. *)
Definition intact : Image :=
  {| img_size := 0x88000;
     img_words :=
       [ (0x40000, 1); (0x40004, 0x10008);
         (0x40020, 0x14000); (0x40024, 0);
         (0x502A4, 0x208); (0x502A8, 0xB0); (0x502BC, 0x2000) ];
     img_fill := fun a => if (0x70000 <=? a) && (a <? 0x70280) then 0x37 else fill a |}.

(** [intact] with the four payload bytes at [0x70464] overwritten. *)
Definition tampered : Image :=
  {| img_size := img_size intact;
     img_words := img_words intact ++ [ (0x70464, 0x01020304) ];
     img_fill := img_fill intact |}.

(** A disc without partitions: the word at [0x60] is not zero. *)
Definition gamecube : Image :=
  {| img_size := 0x88000;
     img_words := [ (0x60, 1) ];
     img_fill := fun a => a |}.

(** An image too short to hold the word at [0x60]. *)
Definition truncated : Image :=
  {| img_size := 0x20;
     img_words := [];
     img_fill := fun a => a |}.

(** The image of [intact] cut just before the size word at [0x502BC]; the
    TMD it declares is the [0x1E4] bytes at the partition's start, so every
    read of the constructor succeeds. *)
Definition short : Image :=
  {| img_size := 0x502BC;
     img_words :=
       [ (0x40000, 1); (0x40004, 0x10008);
         (0x40020, 0x14000); (0x40024, 0);
         (0x502A4, 0x1E4); (0x502A8, 0) ];
     img_fill := fill |}.

(** Two partitions that do not overlap: the first at [0x50000] with its two
    clusters at [0x70000] and [0x78000], the second at [0x80000] with its
    two clusters at [0xA0000] and [0xA8000]. *)
Definition separate : Image :=
  {| img_size := 0xB0000;
     img_words :=
       [ (0x40000, 2); (0x40004, 0x10008);
         (0x40020, 0x14000); (0x40024, 0);
         (0x40028, 0x20000); (0x4002C, 1);
         (0x502A4, 0x208); (0x502A8, 0xB0); (0x502BC, 0x4000);
         (0x802A4, 0x208); (0x802A8, 0xB0); (0x802BC, 0x4000) ];
     img_fill := fill |}.

Definition overlapping_reader : BlobReader := reader overlapping.
Definition short_reader : BlobReader := reader short.
Definition separate_reader : BlobReader := reader separate.
Definition bad_first_game_reader : BlobReader := reader bad_first_game.
Definition unbounded_reader : BlobReader := reader unbounded.
Definition gamecube_reader : BlobReader := reader gamecube.
Definition truncated_reader : BlobReader := reader truncated.
Definition intact_reader : BlobReader := reader intact.
Definition tampered_reader : BlobReader := reader tampered.

(** The volumes built from these images. *)
Definition overlapping_disc : VolumeWii (MB := crypto) :=
  fst (VolumeWii_ctor (VD := none_decl) (ES := es) (BR := overlapping_reader) (MB := crypto)).
Definition intact_disc : VolumeWii (MB := crypto) :=
  fst (VolumeWii_ctor (VD := none_decl) (ES := es) (BR := intact_reader) (MB := crypto)).
Definition tampered_disc : VolumeWii (MB := crypto) :=
  fst (VolumeWii_ctor (VD := none_decl) (ES := es) (BR := tampered_reader) (MB := crypto)).
Definition unbounded_disc : VolumeWii (MB := crypto) :=
  fst (VolumeWii_ctor (VD := none_decl) (ES := es) (BR := unbounded_reader) (MB := crypto)).

Definition short_disc : VolumeWii (MB := crypto) :=
  fst (VolumeWii_ctor (VD := none_decl) (ES := es) (BR := short_reader) (MB := crypto)).
Definition separate_disc : VolumeWii (MB := crypto) :=
  fst (VolumeWii_ctor (VD := none_decl) (ES := es) (BR := separate_reader) (MB := crypto)).

Definition P1 : Partition := MkPartition 0x50000.
Definition P2 : Partition := MkPartition 0x58000.
Definition P3 : Partition := MkPartition 0x80000.

(** The title keys the tickets at [P1] and [P2] carry in these images. *)
Definition K1 : list byte :=
  byte_of_Z <$> [201; 202; 203; 204; 205; 206; 207; 208; 209; 210; 211; 212; 213; 214; 215; 216].
Definition K2 : list byte :=
  byte_of_Z <$> [202; 203; 204; 205; 206; 207; 208; 209; 210; 211; 212; 213; 214; 215; 216; 217].

(** The title key the ticket at [P3] carries in [separate]. *)
Definition K3 : list byte :=
  byte_of_Z <$> [207; 208; 209; 210; 211; 212; 213; 214; 215; 216; 217; 218; 219; 220; 221; 222].

(** The data bytes of the partitions of [separate]: two clusters each. *)
Definition separate_extent (p : Partition) : Z :=
  if (offset p =? 0x50000) || (offset p =? 0x80000) then 0xF800 else 0.

(** [separate_disc] after a read in the second cluster of its first
    partition and a read in the first cluster of its second partition. *)
Definition after_both_read : VolumeWii (MB := crypto) :=
  snd (Read (VD := none_decl) (BR := separate_reader)
         (snd (Read (VD := none_decl) (BR := separate_reader) separate_disc 0x7C00 4 P1))
         0 4 P3).

(** [overlapping_disc] after four bytes were read from the second cluster
    of its first partition. *)
Definition after_P1_read : VolumeWii (MB := crypto) :=
  snd (Read (VD := none_decl) (BR := overlapping_reader) overlapping_disc 0x7C00 4 P1).

End Fixture.

(** * The header accessors of the volume *)

(** The helpers of DiscIO/Volume.h the accessors call; their bodies are in
    Volume.cpp, not among the sources. A [std::string] is the list of its
    bytes; a banner is its pixels with its width and height. *)
Class VolumeBase : Type := {
  DecodeString : list byte -> list byte;
  GetWiiBanner : Z -> list Z * Z * Z
}.

Section Accessors.
Context `{VD : VolumeDecl} `{ES : ESFormats} `{BR : BlobReader} `{MB : Mbedtls}
        `{VB : VolumeBase}.

(** Modelled from the spec: [Volume::ReadSwapped<u8>] is a template of
    DiscIO/Volume.h, not among the sources: a scalar read that composes on
    top of [Read], empty when [Read] fails. *)
Definition Volume_ReadSwapped_u8 (v : VolumeWii) (off : Z) (p : Partition)
    : option Z * VolumeWii :=
  match Read v off 1 p with
  | (true, bs, v') => (Some (byte_at bs 0), v')
  | (false, _, v') => (None, v')
  end.

(** The accessors that decode a field of the partition header: the string
    decoded from the bytes [Read] stored in the local array, empty when
    [Read] fails; with the volume [Read] leaves. *)
Definition read_string (v : VolumeWii) (off len : Z) (p : Partition)
    : list byte * VolumeWii :=
  match Read v off len p with
  | (true, bs, v') => (DecodeString bs, v')
  | (false, _, v') => ([], v')
  end.

Definition GetGameID (v : VolumeWii) (p : Partition) : list byte * VolumeWii :=
  read_string v 0 6 p.

Definition GetMakerID (v : VolumeWii) (p : Partition) : list byte * VolumeWii :=
  read_string v 0x4 0x2 p.

Definition GetInternalName (v : VolumeWii) (p : Partition) : list byte * VolumeWii :=
  read_string v 0x20 0x60 p.

Definition GetApploaderDate (v : VolumeWii) (p : Partition) : list byte * VolumeWii :=
  read_string v 0x2440 0x10 p.

(** [GetRevision]: the [u8] widened to the [u16] of the result. *)
Definition GetRevision (v : VolumeWii) (p : Partition) : option Z * VolumeWii :=
  match Volume_ReadSwapped_u8 v 7 p with
  | (Some revision, v') => (Some revision, v')
  | (None, v') => (None, v')
  end.

Definition GetDiscNumber (v : VolumeWii) (p : Partition) : option Z * VolumeWii :=
  Volume_ReadSwapped_u8 v 6 p.

(** [GetBanner]: the pixels, [*width] and [*height]. *)
Definition GetBanner (v : VolumeWii) : list Z * Z * Z :=
  match GetTitleID v (GetGamePartition v) with
  | None => ([], 0, 0)
  | Some title_id => GetWiiBanner title_id
  end.

(** *** What the constructor keeps for each partition *)

(** The record of key [k] is the one the checks of the constructor accept
    for the partition at offset [k]. *)
Definition record_of_partition (v : VolumeWii) (k : Z) : Prop :=
  exists tb size addr mb,
    blob_Read k sizeof_Ticket = Some tb /\
    m_partition_tickets v !! k = Some (MkTicketReader tb) /\
    TicketReader_IsValid (MkTicketReader tb) = true /\
    Z.of_nat (length (TicketReader_GetTitleKey (MkTicketReader tb))) = 16 /\
    m_partition_keys v !! k =
      Some (mbedtls_aes_setkey_dec (TicketReader_GetTitleKey (MkTicketReader tb))) /\
    ReadSwapped_u32 (add64 k 0x2a4) = Some size /\
    ReadSwapped_u32 (add64 k 0x2a8) = Some addr /\
    IsValidTMDSize size = true /\
    blob_Read (add64 k (shl2_32 addr)) size = Some mb /\
    m_partition_tmds v !! k = Some (MkTMDReader mb).

Definition records_consistent (v : VolumeWii) : Prop :=
  forall k, is_Some (m_partition_keys v !! k) ->
    k mod 4 = 0 /\ 0 <= k < 2 ^ 34 /\ record_of_partition v k.

(** [m_game_partition] is [PARTITION_NONE] or a key of the map. *)
Definition game_partition_known (v : VolumeWii) : Prop :=
  m_game_partition v = PARTITION_NONE \/
  is_Some (m_partition_keys v !! offset (m_game_partition v)).

(** *** The contracts of the reader and of the cipher on lengths *)

(** A successful [BlobReader::Read] stores exactly the bytes asked for. *)
Definition reader_fills_request : Prop :=
  forall off len bs, blob_Read off len = Some bs -> length bs = Z.to_nat len.

(** [mbedtls_aes_crypt_cbc] writes as many bytes as it is given. *)
Definition cbc_keeps_length : Prop :=
  forall aes iv input, length (mbedtls_aes_crypt_cbc_dec aes iv input) = length input.

(** The cache buffer has its [BLOCK_DATA_SIZE] bytes. *)
Definition cache_buffer_full (v : VolumeWii) : Prop :=
  length (m_last_decrypted_block_data v) = Z.to_nat BLOCK_DATA_SIZE.

End Accessors.

(** * Escaped file names (Common/NandPaths.cpp) *)

Module NandPaths.

(** [AsciiToHex] of Common/StringUtil.h, whose body is not among the
    sources: the value of a string of hexadecimal digits, when it parses. *)
Class StringUtil : Type := { AsciiToHex : list byte -> option Z }.

Definition underscore : byte := x5f.

Definition is_underscore (c : byte) : bool := bool_decide (c = underscore).

(** The first index, counted from [base], at which the two characters
    ["__"] start in [s]. *)
Fixpoint find_uu (s : list byte) (base : nat) : option nat :=
  match s with
  | a :: t =>
    match t with
    | b :: _ => if is_underscore a && is_underscore b then Some base else find_uu t (S base)
    | [] => None
    end
  | [] => None
  end.

(** [result.find("__", pos)], [None] for [std::string::npos]. *)
Definition string_find_uu (result : list byte) (pos : nat) : option nat :=
  find_uu (drop pos result) pos.

Section Unescape.
Context `{SU : StringUtil}.

(** One round of the [while] loop of [UnescapeFileName] at the position
    [find] returned: the string after the conditional [replace]. *)
Definition unescape_at (result : list byte) (pos : nat) : list byte :=
  if (pos + 6 <=? length result)%nat
     && is_underscore (nth (pos + 4) result x00)
     && is_underscore (nth (pos + 5) result x00)
  then
    match AsciiToHex (take 2 (drop (pos + 2) result)) with
    | Some character => take pos result ++ byte_of_Z character :: drop (pos + 6) result
    | None => result
    end
  else result.

(** The [while] loop; [None] only when [fuel] runs out. *)
Fixpoint Unescape_loop (fuel : nat) (result : list byte) (pos : nat) : option (list byte) :=
  match string_find_uu result pos with
  | None => Some result
  | Some found =>
    match fuel with
    | O => None
    | S fuel' => Unescape_loop fuel' (unescape_at result found) (S found)
    end
  end.

(** [UnescapeFileName]. Each round moves [pos] forward in a string that
    does not grow, so as many rounds as the name has characters suffice. *)
Definition UnescapeFileName (filename : list byte) : list byte :=
  match Unescape_loop (length filename) filename 0 with
  | Some result => result
  | None => filename
  end.

End Unescape.

End NandPaths.

(** ** Stand-ins for the header helpers *)

Module HeaderFixture.

(** The decoded string stops at the first zero byte. *)
Fixpoint until_zero (bs : list byte) : list byte :=
  match bs with
  | [] => []
  | b :: t => if bool_decide (b = x00) then [] else b :: until_zero t
  end.

Definition base : VolumeBase :=
  {| DecodeString := until_zero;
     GetWiiBanner title_id := ([title_id], 192, 64) |}.

(** The value of one hexadecimal digit. *)
Definition hex_digit (c : byte) : option Z :=
  let n := byte_val c in
  if (48 <=? n) && (n <=? 57) then Some (n - 48)
  else if (97 <=? n) && (n <=? 102) then Some (n - 87)
  else if (65 <=? n) && (n <=? 70) then Some (n - 55)
  else None.

Definition hex_string : NandPaths.StringUtil :=
  {| NandPaths.AsciiToHex s :=
       match s with
       | [a; b] =>
         match hex_digit a, hex_digit b with
         | Some x, Some y => Some (16 * x + y)
         | _, _ => None
         end
       | _ => None
       end |}.

Definition bytes_of (l : list Z) : list byte := byte_of_Z <$> l.

End HeaderFixture.

(** * Properties of the volume *)

Section VolumeFacts.
Context `{VD : VolumeDecl} `{ES : ESFormats} `{BR : BlobReader} `{MB : Mbedtls}.

(** ** Machine arithmetic *)

Lemma byte_val_range (b : byte) : 0 <= byte_val b < 256.
Proof. unfold byte_val. pose proof (Byte.to_N_bounded b). lia. Qed.

Lemma u32_be_range (bs : list byte) : 0 <= u32_be bs < 2 ^ 32.
Proof.
  unfold u32_be, byte_at.
  pose proof (byte_val_range (nth 0 bs x00)).
  pose proof (byte_val_range (nth 1 bs x00)).
  pose proof (byte_val_range (nth 2 bs x00)).
  pose proof (byte_val_range (nth 3 bs x00)).
  lia.
Qed.

Lemma swap32_u32_le (bs : list byte) : swap32 (u32_le bs) = u32_be bs.
Proof.
  unfold swap32, u32_le, u32_be, byte_at.
  pose proof (byte_val_range (nth 0 bs x00)).
  pose proof (byte_val_range (nth 1 bs x00)).
  pose proof (byte_val_range (nth 2 bs x00)).
  pose proof (byte_val_range (nth 3 bs x00)).
  generalize dependent (byte_val (nth 0 bs x00)).
  generalize dependent (byte_val (nth 1 bs x00)).
  generalize dependent (byte_val (nth 2 bs x00)).
  generalize dependent (byte_val (nth 3 bs x00)).
  intros b3 ? b2 ? b1 ? b0 ?.
  change (2 ^ 8) with 256. change (2 ^ 16) with 65536. change (2 ^ 24) with 16777216.
  Z.to_euclidean_division_equations. lia.
Qed.

Lemma wrap64_range (x : Z) : 0 <= wrap64 x < 2 ^ 64.
Proof. unfold wrap64. apply Z.mod_pos_bound. lia. Qed.

Lemma wrap64_small (x : Z) : 0 <= x < 2 ^ 64 -> wrap64 x = x.
Proof. intros. unfold wrap64. apply Z.mod_small. lia. Qed.

Lemma add64_wrap_l (a b : Z) : add64 (wrap64 a) b = wrap64 (a + b).
Proof. unfold add64, wrap64. apply Zplus_mod_idemp_l. Qed.

Lemma add64_wrap_r (a b : Z) : add64 a (wrap64 b) = wrap64 (a + b).
Proof. unfold add64, wrap64. apply Zplus_mod_idemp_r. Qed.

Lemma add64_add64 (a b c : Z) : add64 (add64 a b) c = add64 a (b + c).
Proof. unfold add64, wrap64. rewrite Zplus_mod_idemp_l. f_equal. lia. Qed.

Lemma shl2_64_u32 (x : Z) : 0 <= x < 2 ^ 32 -> 0 <= shl2_64 x < 2 ^ 34.
Proof.
  intros. unfold shl2_64. rewrite Z.shiftl_mul_pow2 by lia.
  rewrite wrap64_small; lia.
Qed.

(** ** The raw-offset helper *)

Lemma PartitionOffsetToRawOffset_wrap (o : Z) (p : Partition) :
  Partition_eqb p PARTITION_NONE = false ->
  PartitionOffsetToRawOffset o p =
    wrap64 (offset p + 0x20000 + o / 0x7C00 * 0x8000 + o mod 0x7C00).
Proof.
  intros Hp. unfold PartitionOffsetToRawOffset. rewrite Hp.
  unfold PARTITION_DATA_OFFSET, BLOCK_DATA_SIZE, BLOCK_TOTAL_SIZE, mul64, add64, wrap64.
  rewrite <- Z.add_mod by lia. rewrite Zplus_mod_idemp_l. reflexivity.
Qed.

(** C6 (amended). [PartitionOffsetToRawOffset] is the identity on
    [PARTITION_NONE]; on any other partition it is the sum
    [offset + 0x20000 + (o / 0x7C00) * 0x8000 + o mod 0x7C00] reduced modulo
    [2^64], and when that sum does not overflow a [u64] the result is at
    least [offset + 0x20000] and exceeds it by
    [(o / 0x7C00) * 0x8000 + o mod 0x7C00]. *)
Theorem PartitionOffsetToRawOffset_geometry (o : Z) (p : Partition) :
  0 <= o -> 0 <= offset p ->
  PartitionOffsetToRawOffset o PARTITION_NONE = o /\
  (Partition_eqb p PARTITION_NONE = false ->
   PartitionOffsetToRawOffset o p =
     wrap64 (offset p + 0x20000 + o / 0x7C00 * 0x8000 + o mod 0x7C00) /\
   (offset p + 0x20000 + o / 0x7C00 * 0x8000 + o mod 0x7C00 < 2 ^ 64 ->
    PartitionOffsetToRawOffset o p >= offset p + 0x20000 /\
    PartitionOffsetToRawOffset o p - (offset p + 0x20000)
      = o / 0x7C00 * 0x8000 + o mod 0x7C00)).
Proof.
  intros Ho Hp. split.
  - unfold PartitionOffsetToRawOffset, Partition_eqb. now rewrite Z.eqb_refl.
  - intros Hne. rewrite (PartitionOffsetToRawOffset_wrap _ _ Hne). split; [reflexivity|].
    intros Hfit.
    assert (0 <= o / 0x7C00) by (apply Z.div_pos; lia).
    assert (0 <= o mod 0x7C00 < 0x7C00) by (apply Z.mod_pos_bound; lia).
    rewrite wrap64_small by lia. lia.
Qed.

(** ** The constructor, entry by entry *)

Lemma scan_partition_check (pto i : Z) (v : VolumeWii) (alerts : list Alert) :
  scan_partition pto (v, alerts) i =
    match check_entry (pto, i) with
    | inl _ => (v, alerts ++ entry_alerts (pto, i))
    | inr ld =>
      (store_loaded v ld
         (Partition_eqb (m_game_partition v) PARTITION_NONE && entry_type0 (pto, i)),
       alerts)
    end.
Proof.
  unfold entry_alerts, entry_type0, scan_partition, check_entry, store_loaded. simpl.
  repeat case_match; simplify_eq; simpl; rewrite ?app_nil_r; try reflexivity; try congruence.
Qed.

Lemma scan_entry_check (st : VolumeWii * list Alert) (e : Z * Z) :
  scan_entry st e =
    match check_entry e with
    | inl _ => (fst st, snd st ++ entry_alerts e)
    | inr ld =>
      (store_loaded (fst st) ld
         (Partition_eqb (m_game_partition (fst st)) PARTITION_NONE && entry_type0 e),
       snd st)
    end.
Proof. destruct st, e. apply scan_partition_check. Qed.

Lemma scan_group_entries (st : VolumeWii * list Alert) (g : Z) :
  scan_group st g = foldl scan_entry st (group_entries g).
Proof.
  unfold scan_group, group_entries.
  destruct (ReadSwapped_u32 _) as [n|]; [|reflexivity].
  destruct (ReadSwapped_u32 _) as [t|]; [|reflexivity].
  generalize (counting (Z.to_nat n) 0). intros l. revert st.
  induction l as [|i l IH]; intros st; simpl; [reflexivity|]. apply IH.
Qed.

Lemma scan_groups_entries (gs : list Z) (st : VolumeWii * list Alert) :
  foldl scan_group st gs = foldl scan_entry st (gs ≫= group_entries).
Proof.
  revert st. induction gs as [|g gs IH]; intros st; simpl; [reflexivity|].
  rewrite foldl_app, <- scan_group_entries. apply IH.
Qed.

Lemma ctor_scanned_entries :
  VolumeWii_ctor = foldl scan_entry (initial_volume, []) scanned_entries.
Proof.
  unfold VolumeWii_ctor, scanned_entries.
  destruct (optional_ne _ _); [reflexivity|]. apply scan_groups_entries.
Qed.

Lemma entry_stored_false (e : Z * Z) (st : VolumeWii * list Alert) :
  entry_stored e = false -> scan_entry st e = (fst st, snd st ++ entry_alerts e).
Proof.
  unfold entry_stored. rewrite scan_entry_check.
  destruct (check_entry e); [reflexivity|discriminate].
Qed.

Lemma entry_stored_true (e : Z * Z) (st : VolumeWii * list Alert) :
  entry_stored e = true ->
  snd (scan_entry st e) = snd st /\ entry_alerts e = [] /\
  forall alerts, fst (scan_entry (fst st, alerts) e) = fst (scan_entry st e).
Proof.
  unfold entry_stored, entry_alerts. intros H. split; [|split].
  - rewrite scan_entry_check. destruct (check_entry e); [discriminate|reflexivity].
  - destruct (check_entry e); [discriminate|reflexivity].
  - intros alerts. rewrite !scan_entry_check.
    destruct (check_entry e); [discriminate|reflexivity].
Qed.

Lemma scan_skips_failed (es : list (Z * Z)) (v : VolumeWii) (alerts : list Alert) :
  foldl scan_entry (v, alerts) es =
    (fst (foldl scan_entry (v, []) (List.filter entry_stored es)),
     alerts ++ (es ≫= entry_alerts)).
Proof.
  revert v alerts. induction es as [|e es IH]; intros v alerts.
  - simpl. now rewrite app_nil_r.
  - rewrite bind_cons. cbn [foldl List.filter].
    unfold entry_stored at 1, entry_alerts at 1. rewrite scan_entry_check.
    destruct (check_entry e) as [err|ld] eqn:He; cbn [fst snd].
    + rewrite IH. unfold entry_alerts at 1. rewrite He. now rewrite app_assoc.
    + cbn [foldl]. rewrite scan_entry_check, He. cbn [fst snd app]. apply IH.
Qed.

(** C7. Construction is a total function of the blob, and an entry that
    fails any of the checks (partition offset, ticket read, ticket validity,
    TMD header reads, TMD size, TMD read, title-key length) leaves the volume
    built so far untouched; only a rejected TMD size adds an alert. The
    volume built is the one obtained by scanning the stored entries alone,
    and the alerts are exactly those of the entries with a rejected TMD size. *)
Theorem construction_skips_failed_partitions :
  (forall st e, entry_stored e = false ->
     fst (scan_entry st e) = fst st /\
     snd (scan_entry st e) =
       snd st ++ match check_entry e with
                 | inl Rejected_TMD_size => [Invalid_TMD_size]
                 | _ => []
                 end) /\
  fst VolumeWii_ctor =
    fst (foldl scan_entry (initial_volume, []) (List.filter entry_stored scanned_entries)) /\
  snd VolumeWii_ctor = scanned_entries ≫= entry_alerts.
Proof.
  split; [|split].
  - intros st e He. now rewrite (entry_stored_false e st He).
  - now rewrite ctor_scanned_entries, scan_skips_failed.
  - now rewrite ctor_scanned_entries, scan_skips_failed.
Qed.

(** ** The game partition *)

Lemma ReadSwapped_u32_range (off x : Z) :
  ReadSwapped_u32 off = Some x -> 0 <= x < 2 ^ 32.
Proof.
  unfold ReadSwapped_u32. destruct (blob_Read off 4); [|discriminate].
  intros [= <-]. apply u32_be_range.
Qed.

Lemma check_entry_offset (e : Z * Z) (ld : Loaded) :
  check_entry e = inr ld ->
  entry_offset e = Some (ld_offset ld) /\ 0 <= ld_offset ld < 2 ^ 34.
Proof.
  destruct e as [pto i]. unfold check_entry, entry_offset. simpl.
  destruct (ReadSwapped_u32 (add64 pto (mul32 i 8))) as [raw|] eqn:Hraw; [|discriminate].
  intros H. assert (ld_offset ld = shl2_64 raw) as ->.
  { repeat case_match; simplify_eq; reflexivity. }
  split; [reflexivity|]. apply shl2_64_u32. eapply ReadSwapped_u32_range, Hraw.
Qed.

Lemma game_partition_kept (es : list (Z * Z)) (v : VolumeWii) (alerts : list Alert) :
  Partition_eqb (m_game_partition v) PARTITION_NONE = false ->
  m_game_partition (fst (foldl scan_entry (v, alerts) es)) = m_game_partition v.
Proof.
  revert v alerts. induction es as [|e es IH]; intros v alerts Hv; [reflexivity|].
  cbn [foldl]. rewrite scan_entry_check.
  destruct (check_entry e) as [err|ld]; cbn [fst snd].
  - now apply IH.
  - rewrite IH; unfold store_loaded; cbn [m_game_partition]; now rewrite Hv.
Qed.

Lemma game_partition_first (es : list (Z * Z)) (v : VolumeWii) (alerts : list Alert) :
  2 ^ 34 <= offset PARTITION_NONE ->
  m_game_partition v = PARTITION_NONE ->
  m_game_partition (fst (foldl scan_entry (v, alerts) es)) =
    partition_of (find (fun e => entry_stored e && entry_type0 e) es ≫= entry_offset).
Proof.
  intros Hnone. revert v alerts.
  induction es as [|e es IH]; intros v alerts Hv; [exact Hv|].
  cbn [foldl find]. rewrite scan_entry_check. unfold entry_stored at 1.
  destruct (check_entry e) as [err|ld] eqn:He; cbn [fst snd andb].
  - now apply IH.
  - destruct (check_entry_offset e ld He) as [Hoff Hrange].
    rewrite Hv. unfold Partition_eqb at 1. rewrite Z.eqb_refl. cbn [andb].
    destruct (entry_type0 e).
    + rewrite game_partition_kept.
      * cbn. now rewrite Hoff.
      * unfold store_loaded, Partition_eqb. cbn. apply Z.eqb_neq. lia.
    + apply IH. unfold store_loaded. cbn. exact Hv.
Qed.

(** C3 (amended). When [PARTITION_NONE] is not an offset a table entry can
    name, the game partition is the first entry of type 0, in group-major
    then index-major order, among the entries that pass every check and are
    stored ([PARTITION_NONE] when there is none); once it is set, no later
    entry changes it. *)
Theorem game_partition_first_stored_type0 :
  2 ^ 34 <= offset PARTITION_NONE ->
  GetGamePartition (fst VolumeWii_ctor) = first_stored_type0_partition /\
  (forall es v alerts,
     Partition_eqb (m_game_partition v) PARTITION_NONE = false ->
     m_game_partition (fst (foldl scan_entry (v, alerts) es)) = m_game_partition v).
Proof.
  intros Hnone. split.
  - unfold GetGamePartition, first_stored_type0_partition.
    rewrite ctor_scanned_entries. now apply game_partition_first.
  - intros es v alerts. apply game_partition_kept.
Qed.

(** ** A disc without a readable partition magic *)

Lemma GetPartitions_initial : GetPartitions initial_volume = [].
Proof.
  unfold GetPartitions, initial_volume. cbn [m_partition_keys].
  rewrite dom_empty_L, elements_empty. reflexivity.
Qed.

Lemma Read_unknown (v : VolumeWii) (o n : Z) (p : Partition) :
  Partition_eqb p PARTITION_NONE = false ->
  m_partition_keys v !! offset p = None ->
  Read v o n p = (false, [], v).
Proof. intros Hp Hk. unfold Read. now rewrite Hp, Hk. Qed.

(** C10. When the word at [0x60] cannot be read, the constructor yields the
    volume it yields for a non-zero magic: no partitions, game partition
    [PARTITION_NONE]; reads on [PARTITION_NONE] are the reader's own, and no
    other descriptor can be read. *)
Theorem ctor_magic_unreadable (other : Z -> Z -> option (list byte)) (magic : Z) :
  blob_Read 0x60 4 = None ->
  @ReadSwapped_u32 {| blob_Read := other |} 0x60 = Some magic -> magic <> 0 ->
  VolumeWii_ctor = @VolumeWii_ctor VD ES {| blob_Read := other |} MB /\
  VolumeWii_ctor = (initial_volume, []) /\
  GetPartitions (fst VolumeWii_ctor) = [] /\
  GetGamePartition (fst VolumeWii_ctor) = PARTITION_NONE /\
  (forall o n,
     Read (fst VolumeWii_ctor) o n PARTITION_NONE =
       match blob_Read o n with
       | Some bs => (true, bs, fst VolumeWii_ctor)
       | None => (false, [], fst VolumeWii_ctor)
       end) /\
  (forall o n p, Partition_eqb p PARTITION_NONE = false ->
     Read (fst VolumeWii_ctor) o n p = (false, [], fst VolumeWii_ctor)).
Proof.
  intros Hfail Hmagic Hnz.
  assert (Hc : VolumeWii_ctor = (initial_volume, [])).
  { unfold VolumeWii_ctor, ReadSwapped_u32. now rewrite Hfail. }
  assert (Hc' : @VolumeWii_ctor VD ES {| blob_Read := other |} MB = (initial_volume, [])).
  { unfold VolumeWii_ctor. rewrite Hmagic. unfold optional_ne.
    destruct (Z.eqb_spec magic 0); [contradiction|reflexivity]. }
  rewrite Hc', Hc. cbn [fst].
  split; [reflexivity|]. split; [reflexivity|].
  split; [apply GetPartitions_initial|]. split; [reflexivity|]. split.
  - intros o n. unfold Read, Partition_eqb. now rewrite Z.eqb_refl.
  - intros o n p Hp. apply Read_unknown; [exact Hp|]. apply lookup_empty.
Qed.

(** ** The read loop *)

Lemma Read_loop_done (fuel : nat) (aes : aes_context) (p : Partition) (v : VolumeWii)
    (o n : Z) :
  n <= 0 -> Read_loop fuel aes p v o n = Some (true, [], v).
Proof.
  intros Hn. destruct fuel; simpl; destruct (Z.leb_spec n 0); try reflexivity; lia.
Qed.

Lemma Read_loop_step (fuel : nat) (aes : aes_context) (p : Partition) (v : VolumeWii)
    (o n : Z) :
  0 < n ->
  Read_loop (S fuel) aes p v o n =
    match fetch_cluster aes v (block_offset_on_disc p o) with
    | None => Some (false, [], v)
    | Some v1 =>
      match Read_loop fuel aes p v1 (add64 o (copy_size_of o n)) (n - copy_size_of o n) with
      | Some (ok, rest, v2) => Some (ok, chunk_of v1 o n ++ rest, v2)
      | None => None
      end
    end.
Proof.
  intros Hn. cbn [Read_loop]. destruct (Z.leb_spec n 0); [lia|]. reflexivity.
Qed.

Lemma copy_size_of_bounds (o n : Z) : 0 < n -> 1 <= copy_size_of o n <= n.
Proof.
  intros Hn. unfold copy_size_of, data_offset_in_block, BLOCK_DATA_SIZE.
  pose proof (Z.mod_pos_bound o 0x7C00). lia.
Qed.

(** Every round copies at least one byte, so [Length] rounds suffice. *)
Lemma Read_loop_total (fuel : nat) (aes : aes_context) (p : Partition) (v : VolumeWii)
    (o n : Z) :
  (Z.to_nat n <= fuel)%nat -> is_Some (Read_loop fuel aes p v o n).
Proof.
  revert v o n. induction fuel as [|fuel IH]; intros v o n Hf.
  - rewrite Read_loop_done by lia. eauto.
  - destruct (Z.leb_spec n 0) as [Hn|Hn]; [rewrite Read_loop_done by lia; eauto|].
    rewrite Read_loop_step by lia.
    destruct (fetch_cluster _ _ _) as [v1|]; [|eauto].
    pose proof (copy_size_of_bounds o n Hn).
    destruct (IH v1 (add64 o (copy_size_of o n)) (n - copy_size_of o n)) as [[[ok rest] v2] ->];
      [lia|eauto].
Qed.

Lemma Read_loop_more_fuel (fuel fuel' : nat) (aes : aes_context) (p : Partition)
    (v : VolumeWii) (o n : Z) r :
  Read_loop fuel aes p v o n = Some r -> (fuel <= fuel')%nat ->
  Read_loop fuel' aes p v o n = Some r.
Proof.
  revert fuel' v o n r. induction fuel as [|fuel IH]; intros fuel' v o n r H Hle.
  - destruct (Z.leb_spec n 0) as [Hn|Hn].
    + rewrite Read_loop_done in H |- * by lia. exact H.
    + simpl in H. destruct (Z.leb_spec n 0); [lia|discriminate].
  - destruct (Z.leb_spec n 0) as [Hn|Hn].
    + rewrite Read_loop_done in H |- * by lia. exact H.
    + destruct fuel' as [|fuel']; [lia|].
      rewrite Read_loop_step in H |- * by lia.
      destruct (fetch_cluster _ _ _) as [v1|]; [|exact H].
      destruct (Read_loop fuel aes p v1 _ _) as [r1|] eqn:E; [|discriminate].
      rewrite (IH fuel' _ _ _ _ E) by lia. exact H.
Qed.

(** [Read] on a known partition is the loop with any sufficient fuel. *)
Lemma Read_known (fuel : nat) (aes : aes_context) (v : VolumeWii) (o n : Z) (p : Partition) :
  Partition_eqb p PARTITION_NONE = false ->
  m_partition_keys v !! offset p = Some aes ->
  (Z.to_nat n <= fuel)%nat ->
  Read_loop fuel aes p v o n = Some (Read v o n p).
Proof.
  intros Hp Hk Hf. unfold Read. rewrite Hp, Hk.
  destruct (Read_loop_total (Z.to_nat n) aes p v o n) as [r Hr]; [lia|].
  rewrite Hr. eapply Read_loop_more_fuel; eauto.
Qed.

(** ** The cache invariant *)

Lemma same_partitions_refl (v : VolumeWii) : same_partitions v v.
Proof. repeat split. Qed.

Lemma same_partitions_trans (v1 v2 v3 : VolumeWii) :
  same_partitions v1 v2 -> same_partitions v2 v3 -> same_partitions v1 v3.
Proof. unfold same_partitions. intros (?&?&?&?) (?&?&?&?). repeat split; congruence. Qed.

Lemma fetch_cluster_Some (aes : aes_context) (v v1 : VolumeWii) (blk : Z) :
  fetch_cluster aes v blk = Some v1 ->
  m_last_decrypted_block v1 = blk /\ same_partitions v v1 /\
  (v1 = v \/
   exists cluster, blob_Read blk BLOCK_TOTAL_SIZE = Some cluster /\
                   m_last_decrypted_block_data v1 = decrypt_block aes cluster).
Proof.
  unfold fetch_cluster. destruct (Z.eqb_spec (m_last_decrypted_block v) blk) as [He|He]; simpl.
  - intros [= <-]. split; [exact He|]. split; [apply same_partitions_refl|now left].
  - destruct (blob_Read blk BLOCK_TOTAL_SIZE) as [cl|] eqn:E; [|discriminate].
    intros [= <-]. split; [reflexivity|]. split; [repeat split|].
    right. exists cl. split; reflexivity.
Qed.

Lemma Read_loop_invariant (fuel : nat) (aes : aes_context) (p : Partition) (v : VolumeWii)
    (o n : Z) ok bs v' :
  m_partition_keys v !! offset p = Some aes ->
  cache_invariant v ->
  Read_loop fuel aes p v o n = Some (ok, bs, v') ->
  cache_invariant v' /\ same_partitions v v'.
Proof.
  revert v o n ok bs v'. induction fuel as [|fuel IH]; intros v o n ok bs v' Hk Hinv H.
  - destruct (Z.leb_spec n 0) as [Hn|Hn].
    + rewrite Read_loop_done in H by lia. injection H as <- <- <-.
      split; [exact Hinv|apply same_partitions_refl].
    + simpl in H. destruct (Z.leb_spec n 0); [lia|discriminate].
  - destruct (Z.leb_spec n 0) as [Hn|Hn].
    + rewrite Read_loop_done in H by lia. injection H as <- <- <-.
      split; [exact Hinv|apply same_partitions_refl].
    + rewrite Read_loop_step in H by lia.
      destruct (fetch_cluster _ _ _) as [v1|] eqn:Ef.
      * destruct (fetch_cluster_Some _ _ _ _ Ef) as (Hlast & Hsame & Hdata).
        destruct (Read_loop fuel aes p v1 _ _) as [[[ok1 rest] v2]|] eqn:E; [|discriminate].
        injection H as <- <- <-.
        assert (Hk1 : m_partition_keys v1 !! offset p = Some aes).
        { destruct Hsame as (-> & _). exact Hk. }
        assert (Hinv1 : cache_invariant v1).
        { destruct Hdata as [->|(cl & Hcl & Hd)]; [exact Hinv|].
          intros _. exists p, aes, o, cl. rewrite Hlast. auto. }
        destruct (IH _ _ _ _ _ _ Hk1 Hinv1 E) as [Hi Hs].
        split; [exact Hi|]. eapply same_partitions_trans; eauto.
      * injection H as <- <- <-. split; [exact Hinv|apply same_partitions_refl].
Qed.

Lemma Read_invariant (v : VolumeWii) (o n : Z) (p : Partition) :
  cache_invariant v ->
  cache_invariant (snd (Read v o n p)) /\ same_partitions v (snd (Read v o n p)).
Proof.
  intros Hinv. unfold Read.
  destruct (Partition_eqb p PARTITION_NONE).
  { destruct (blob_Read o n); simpl; split; auto using same_partitions_refl. }
  destruct (m_partition_keys v !! offset p) as [aes|] eqn:Hk;
    [|simpl; split; auto using same_partitions_refl].
  destruct (Read_loop _ _ _ _ _ _) as [[[ok bs] v']|] eqn:E;
    [|simpl; split; auto using same_partitions_refl].
  simpl. eapply Read_loop_invariant; eauto.
Qed.

Lemma CheckIntegrity_loop_invariant (n : nat) (aes : aes_context) (p : Partition)
    (v : VolumeWii) (c : Z) :
  cache_invariant v ->
  cache_invariant (snd (CheckIntegrity_loop n aes p v c)) /\
  same_partitions v (snd (CheckIntegrity_loop n aes p v c)).
Proof.
  revert v c. induction n as [|n IH]; intros v c Hinv; cbn [CheckIntegrity_loop].
  - simpl. split; auto using same_partitions_refl.
  - destruct (blob_Read _ _); [|simpl; split; auto using same_partitions_refl].
    destruct (meaningless _); [now apply IH|].
    destruct (Read_invariant v (mul64 c 0x7C00) 0x7C00 p Hinv) as [Hi Hs].
    destruct (Read v _ _ p) as [[ok bs] v1]. simpl in Hi, Hs.
    destruct ok; [|simpl; split; auto].
    destruct (hashes_match _ _); [|simpl; split; auto].
    destruct (IH v1 (c + 1) Hi) as [Hi' Hs'].
    split; [exact Hi'|]. eapply same_partitions_trans; eauto.
Qed.

Lemma CheckIntegrity_invariant (stale : Z) (v : VolumeWii) (p : Partition) :
  cache_invariant v ->
  cache_invariant (snd (CheckIntegrity stale v p)) /\
  same_partitions v (snd (CheckIntegrity stale v p)).
Proof.
  intros Hinv. unfold CheckIntegrity.
  destruct (m_partition_keys v !! offset p); [|simpl; split; auto using same_partitions_refl].
  now apply CheckIntegrity_loop_invariant.
Qed.

Lemma scan_keeps_cache (es : list (Z * Z)) (st : VolumeWii * list Alert) :
  m_last_decrypted_block (fst (foldl scan_entry st es)) = m_last_decrypted_block (fst st).
Proof.
  revert st. induction es as [|e es IH]; intros st; [reflexivity|].
  cbn [foldl]. rewrite IH, scan_entry_check. now destruct (check_entry e).
Qed.

Lemma ctor_cache_empty : m_last_decrypted_block (fst VolumeWii_ctor) = UINT64_MAX.
Proof. rewrite ctor_scanned_entries, scan_keeps_cache. reflexivity. Qed.

Lemma reachable_cache_invariant (v : VolumeWii) : reachable v -> cache_invariant v.
Proof.
  induction 1 as [|v o n p _ IH|stale v p _ IH].
  - intros H. now rewrite ctor_cache_empty in H.
  - now apply Read_invariant.
  - now apply CheckIntegrity_invariant.
Qed.

(** ** Unknown partitions *)

Lemma store_loaded_aligned (v : VolumeWii) (ld : Loaded) (g : bool) :
  maps_aligned v -> maps_aligned (store_loaded v ld g).
Proof.
  intros Ha k. unfold store_loaded. cbn.
  destruct (decide (ld_offset ld = k)) as [->|Hne].
  - rewrite !lookup_insert_eq. split; split; discriminate.
  - rewrite !lookup_insert_ne by exact Hne. apply Ha.
Qed.

Lemma scan_aligned (es : list (Z * Z)) (st : VolumeWii * list Alert) :
  maps_aligned (fst st) -> maps_aligned (fst (foldl scan_entry st es)).
Proof.
  revert st. induction es as [|e es IH]; intros st Ha; [exact Ha|].
  cbn [foldl]. apply IH. rewrite scan_entry_check.
  destruct (check_entry e); cbn [fst]; [exact Ha|now apply store_loaded_aligned].
Qed.

Lemma same_partitions_aligned (v v' : VolumeWii) :
  same_partitions v v' -> maps_aligned v -> maps_aligned v'.
Proof. intros (Hk & Ht & Hm & _) Ha k. rewrite Hk, Ht, Hm. apply Ha. Qed.

Lemma reachable_aligned (v : VolumeWii) : reachable v -> maps_aligned v.
Proof.
  induction 1 as [|v o n p Hr IH|stale v p Hr IH].
  - rewrite ctor_scanned_entries. apply scan_aligned. intros k. cbn.
    rewrite !lookup_empty. split; split; reflexivity.
  - eapply same_partitions_aligned; [|exact IH].
    apply Read_invariant, reachable_cache_invariant, Hr.
  - eapply same_partitions_aligned; [|exact IH].
    apply CheckIntegrity_invariant, reachable_cache_invariant, Hr.
Qed.

(** C8. On a volume reached after construction, for a descriptor that is
    neither [PARTITION_NONE] nor a key of the partition map: [Read] fails for
    every offset and length without touching the volume, [CheckIntegrity]
    fails, [GetTicket] and [GetTMD] return the sentinels, which are invalid
    under the ES contract for empty views, and [GetTitleID] returns nothing. *)
Theorem unknown_partition_rejected (v : VolumeWii) (p : Partition) :
  reachable v ->
  Partition_eqb p PARTITION_NONE = false ->
  m_partition_keys v !! offset p = None ->
  TicketReader_IsValid INVALID_TICKET = false ->
  TMDReader_IsValid INVALID_TMD = false ->
  (forall o n, Read v o n p = (false, [], v)) /\
  (forall stale, CheckIntegrity stale v p = (false, v)) /\
  GetTicket v p = INVALID_TICKET /\
  GetTMD v p = INVALID_TMD /\
  TicketReader_IsValid (GetTicket v p) = false /\
  TMDReader_IsValid (GetTMD v p) = false /\
  GetTitleID v p = None.
Proof.
  intros Hr Hp Hk Hticket Htmd.
  destruct (reachable_aligned v Hr (offset p)) as [Ht Hm].
  apply Ht in Hk as Hkt. apply Hm in Hk as Hkm.
  assert (GetTicket v p = INVALID_TICKET) as Hgt by (unfold GetTicket; now rewrite Hkt).
  assert (GetTMD v p = INVALID_TMD) as Hgm by (unfold GetTMD; now rewrite Hkm).
  split; [intros o n; now apply Read_unknown|].
  split; [intros stale; unfold CheckIntegrity; now rewrite Hk|].
  split; [exact Hgt|]. split; [exact Hgm|].
  split; [now rewrite Hgt|]. split; [now rewrite Hgm|].
  unfold GetTitleID. now rewrite Hgt, Hticket.
Qed.

(** ** The read path against the cluster-by-cluster description *)

Lemma serve_clusters_done (fuel : nat) (aes : aes_context) (p : Partition) (o n : Z) :
  n <= 0 -> serve_clusters fuel aes p o n = Some (true, []).
Proof.
  intros Hn. destruct fuel; simpl; destruct (Z.leb_spec n 0); try reflexivity; lia.
Qed.

Lemma serve_clusters_step (fuel : nat) (aes : aes_context) (p : Partition) (o n : Z) :
  0 < n ->
  serve_clusters (S fuel) aes p o n =
    match blob_Read (block_offset_on_disc p o) BLOCK_TOTAL_SIZE with
    | None => Some (false, [])
    | Some cluster =>
      match serve_clusters fuel aes p (add64 o (copy_size_of o n)) (n - copy_size_of o n) with
      | Some (ok, rest) =>
        Some (ok, take (Z.to_nat (copy_size_of o n))
                    (drop (Z.to_nat (data_offset_in_block o)) (decrypt_block aes cluster))
                  ++ rest)
      | None => None
      end
    end.
Proof.
  intros Hn. cbn [serve_clusters]. destruct (Z.leb_spec n 0); [lia|]. reflexivity.
Qed.

Lemma fetch_cluster_agrees (aes : aes_context) (p : Partition) (v : VolumeWii) (o : Z) :
  cache_agrees aes p v ->
  match fetch_cluster aes v (block_offset_on_disc p o) with
  | None => blob_Read (block_offset_on_disc p o) BLOCK_TOTAL_SIZE = None
  | Some v1 =>
    cache_agrees aes p v1 /\
    exists cluster,
      blob_Read (block_offset_on_disc p o) BLOCK_TOTAL_SIZE = Some cluster /\
      m_last_decrypted_block_data v1 = decrypt_block aes cluster
  end.
Proof.
  intros Ha. unfold fetch_cluster.
  destruct (Z.eqb_spec (m_last_decrypted_block v) (block_offset_on_disc p o)) as [He|He]; simpl.
  - split; [exact Ha|]. rewrite <- He. apply (Ha o He).
  - destruct (blob_Read _ _) as [cl|] eqn:E; [|reflexivity].
    split; [|eauto]. intros o' _. cbn. eauto.
Qed.

Lemma Read_loop_serves_clusters (fuel : nat) (aes : aes_context) (p : Partition)
    (v : VolumeWii) (o n : Z) ok bs v' :
  cache_agrees aes p v ->
  Read_loop fuel aes p v o n = Some (ok, bs, v') ->
  serve_clusters fuel aes p o n = Some (ok, bs) /\ cache_agrees aes p v'.
Proof.
  revert v o n ok bs v'. induction fuel as [|fuel IH]; intros v o n ok bs v' Ha H.
  - destruct (Z.leb_spec n 0) as [Hn|Hn].
    + rewrite Read_loop_done in H by lia. rewrite serve_clusters_done by lia.
      injection H as <- <- <-. auto.
    + simpl in H. destruct (Z.leb_spec n 0); [lia|discriminate].
  - destruct (Z.leb_spec n 0) as [Hn|Hn].
    + rewrite Read_loop_done in H by lia. rewrite serve_clusters_done by lia.
      injection H as <- <- <-. auto.
    + rewrite Read_loop_step in H by lia. rewrite serve_clusters_step by lia.
      pose proof (fetch_cluster_agrees aes p v o Ha) as Hf.
      destruct (fetch_cluster _ _ _) as [v1|].
      * destruct Hf as (Ha1 & cl & -> & Hd).
        destruct (Read_loop fuel aes p v1 _ _) as [[[ok1 rest] v2]|] eqn:E; [|discriminate].
        injection H as <- <- <-.
        destruct (IH _ _ _ _ _ _ Ha1 E) as [-> Ha2].
        split; [|exact Ha2]. unfold chunk_of. now rewrite Hd.
      * rewrite Hf. injection H as <- <- <-. auto.
Qed.

(** The cluster-by-cluster description, with its constants written out, is
    what [serve_clusters] computes from the helpers of the read path. *)
Lemma block_offset_on_disc_explicit (p : Partition) (o : Z) :
  block_offset_on_disc p o = (offset p + 0x20000 + o / 0x7C00 * 0x8000) mod 2 ^ 64.
Proof.
  unfold block_offset_on_disc, mul64, add64, wrap64,
    PARTITION_DATA_OFFSET, BLOCK_DATA_SIZE, BLOCK_TOTAL_SIZE.
  now rewrite <- Z.add_mod by lia.
Qed.

Lemma serve_clusters_explicit (fuel : nat) (aes : aes_context) (p : Partition) (o n : Z) :
  serve_clusters fuel aes p o n = read_by_clusters fuel aes p o n.
Proof.
  revert o n. induction fuel as [|fuel IH]; intros o n;
    cbn [serve_clusters read_by_clusters]; [reflexivity|].
  destruct (n <=? 0); [reflexivity|].
  rewrite block_offset_on_disc_explicit.
  change BLOCK_TOTAL_SIZE with 0x8000.
  destruct (blob_Read _ 0x8000) as [cluster|]; [|reflexivity].
  rewrite IH. reflexivity.
Qed.

(** Every 64-bit cluster offset of a partition is that of a cluster holding
    a 64-bit partition offset. *)
Lemma cluster_of_u64_offset (p : Partition) (o : Z) :
  exists o',
    0 <= o' < 2 ^ 64 /\
    block_offset_on_disc p o = (offset p + 0x20000 + o' / 0x7C00 * 0x8000) mod 2 ^ 64.
Proof.
  rewrite block_offset_on_disc_explicit.
  exists (o / 0x7C00 mod 2 ^ 49 * 0x7C00).
  pose proof (Z.mod_pos_bound (o / 0x7C00) (2 ^ 49) ltac:(lia)) as Hq.
  split; [lia|].
  rewrite Z.div_mul by lia.
  pose proof (Z.div_mod (o / 0x7C00) (2 ^ 49) ltac:(lia)) as Hd.
  replace (offset p + 0x20000 + o / 0x7C00 * 0x8000)
    with (offset p + 0x20000 + o / 0x7C00 mod 2 ^ 49 * 0x8000
          + o / 0x7C00 / 2 ^ 49 * 2 ^ 64) by lia.
  now rewrite Z.mod_add by lia.
Qed.

Lemma holds_cluster_of_intro (aes : aes_context) (p : Partition) (v : VolumeWii)
    (o : Z) (cluster : list byte) :
  m_last_decrypted_block v = block_offset_on_disc p o ->
  blob_Read (m_last_decrypted_block v) BLOCK_TOTAL_SIZE = Some cluster ->
  m_last_decrypted_block_data v = decrypt_block aes cluster ->
  holds_cluster_of aes p v.
Proof.
  intros Hl Hc Hd. destruct (cluster_of_u64_offset p o) as (o' & Ho' & He).
  exists o', cluster. split; [exact Ho'|]. split; [now rewrite Hl|].
  split; [exact Hc|exact Hd].
Qed.

(** One round of the loop when the cache, if it holds the cluster of the
    round, holds it decrypted with the partition's key. *)
Lemma fetch_cluster_first (aes : aes_context) (v : VolumeWii) (blk : Z) :
  (m_last_decrypted_block v = blk -> cache_decrypted_with aes v) ->
  match fetch_cluster aes v blk with
  | None => blob_Read blk BLOCK_TOTAL_SIZE = None
  | Some v1 =>
    cache_decrypted_with aes v1 /\
    exists cluster,
      blob_Read blk BLOCK_TOTAL_SIZE = Some cluster /\
      m_last_decrypted_block_data v1 = decrypt_block aes cluster
  end.
Proof.
  intros Ha. unfold fetch_cluster.
  destruct (Z.eqb_spec (m_last_decrypted_block v) blk) as [He|He]; simpl.
  - destruct (Ha He) as (cl & Hcl & Hd). split; [exists cl; auto|].
    exists cl. rewrite <- He. auto.
  - destruct (blob_Read blk BLOCK_TOTAL_SIZE) as [cl|] eqn:E; [|reflexivity].
    split; exists cl; cbn; auto.
Qed.

Lemma Read_loop_first_cluster (fuel : nat) (aes : aes_context) (p : Partition)
    (v : VolumeWii) (o n : Z) ok bs v' :
  (0 < n -> m_last_decrypted_block v = block_offset_on_disc p o ->
   cache_decrypted_with aes v) ->
  Read_loop fuel aes p v o n = Some (ok, bs, v') ->
  serve_clusters fuel aes p o n = Some (ok, bs).
Proof.
  revert v o n ok bs v'. induction fuel as [|fuel IH]; intros v o n ok bs v' Ha H.
  - destruct (Z.leb_spec n 0) as [Hn|Hn].
    + rewrite Read_loop_done in H by lia. rewrite serve_clusters_done by lia.
      now injection H as <- <- <-.
    + simpl in H. destruct (Z.leb_spec n 0); [lia|discriminate].
  - destruct (Z.leb_spec n 0) as [Hn|Hn].
    + rewrite Read_loop_done in H by lia. rewrite serve_clusters_done by lia.
      now injection H as <- <- <-.
    + rewrite Read_loop_step in H by lia. rewrite serve_clusters_step by lia.
      pose proof (fetch_cluster_first aes v (block_offset_on_disc p o) (Ha Hn)) as Hf.
      destruct (fetch_cluster _ _ _) as [v1|].
      * destruct Hf as (Ha1 & cl & -> & Hd).
        destruct (Read_loop fuel aes p v1 _ _) as [[[ok1 rest] v2]|] eqn:E; [|discriminate].
        injection H as <- <- <-.
        rewrite (IH _ _ _ _ _ _ (fun _ _ => Ha1) E).
        unfold chunk_of. now rewrite Hd.
      * rewrite Hf. now injection H as <- <- <-.
Qed.

(** C1 (amended). On [PARTITION_NONE], [Read] is the reader's own read, on
    every volume. On a partition of the map, [Read] returns the flag and the
    bytes of the cluster-by-cluster description (fetch [0x8000] bytes at
    [offset + 0x20000 + (o / 0x7C00) * 0x8000], IV at [0x3D0], decrypt
    [0x7C00] bytes from [0x400] with the partition's key, copy from
    [o mod 0x7C00]; false at the first failed fetch), provided the first
    cluster touched, if its disc offset is the cached one, is cached as that
    description decrypts it; nothing is asked of the cache otherwise, nor for
    the clusters after the first. A read that stays inside the cluster at the
    cached offset is served from the cache buffer, whatever it holds, without
    a fetch and without touching the volume. *)
Theorem Read_cluster_by_cluster :
  (forall (v : VolumeWii) (o n : Z),
     Read v o n PARTITION_NONE =
       match blob_Read o n with
       | Some bs => (true, bs, v)
       | None => (false, [], v)
       end) /\
  (forall (v : VolumeWii) (aes : aes_context) (p : Partition) (o n : Z),
     Partition_eqb p PARTITION_NONE = false ->
     m_partition_keys v !! offset p = Some aes ->
     (0 < n ->
      m_last_decrypted_block v = (offset p + 0x20000 + o / 0x7C00 * 0x8000) mod 2 ^ 64 ->
      exists cluster,
        blob_Read (m_last_decrypted_block v) 0x8000 = Some cluster /\
        m_last_decrypted_block_data v =
          mbedtls_aes_crypt_cbc_dec aes
            (take 16 (drop (Z.to_nat 0x3D0) cluster))
            (take (Z.to_nat 0x7C00) (drop (Z.to_nat 0x400) cluster))) ->
     read_by_clusters (Z.to_nat n) aes p o n = Some (fst (Read v o n p))) /\
  (forall (v : VolumeWii) (aes : aes_context) (p : Partition) (o n : Z),
     Partition_eqb p PARTITION_NONE = false ->
     m_partition_keys v !! offset p = Some aes ->
     m_last_decrypted_block v = (offset p + 0x20000 + o / 0x7C00 * 0x8000) mod 2 ^ 64 ->
     0 < n -> o mod 0x7C00 + n <= 0x7C00 ->
     Read v o n p =
       (true,
        take (Z.to_nat n) (drop (Z.to_nat (o mod 0x7C00)) (m_last_decrypted_block_data v)),
        v)).
Proof.
  split; [|split].
  - intros v o n. unfold Read, Partition_eqb. now rewrite Z.eqb_refl.
  - intros v aes p o n Hp Hk Ha.
    pose proof (Read_known (Z.to_nat n) aes v o n p Hp Hk (le_n _)) as H.
    destruct (Read v o n p) as [[ok bs] v'].
    rewrite <- serve_clusters_explicit.
    apply (Read_loop_first_cluster _ _ _ _ _ _ _ _ _) with (2 := H).
    intros Hn Hl. rewrite block_offset_on_disc_explicit in Hl.
    exact (Ha Hn Hl).
  - intros v aes p o n Hp Hk Hl Hn Hfit.
    pose proof (Read_known (S (Z.to_nat n)) aes v o n p Hp Hk ltac:(lia)) as H.
    rewrite Read_loop_step in H by lia.
    unfold fetch_cluster in H.
    rewrite block_offset_on_disc_explicit, <- Hl, Z.eqb_refl in H. cbn [negb] in H.
    assert (copy_size_of o n = n) as Hc
      by (unfold copy_size_of, data_offset_in_block, BLOCK_DATA_SIZE; lia).
    rewrite Hc, Read_loop_done in H by lia.
    injection H as <-. unfold chunk_of, data_offset_in_block, BLOCK_DATA_SIZE.
    now rewrite Hc, app_nil_r.
Qed.

(** ** Splitting a read *)

Lemma take_add_drop {A} (a b : nat) (l : list A) :
  take (a + b) l = take a l ++ take b (drop a l).
Proof.
  revert l. induction a as [|a IH]; intros l; [reflexivity|].
  destruct l as [|x l]; simpl; [now rewrite take_nil|]. now rewrite IH.
Qed.

Lemma Read_loop_same_partitions (fuel : nat) (aes : aes_context) (p : Partition)
    (v : VolumeWii) (o n : Z) ok bs v' :
  Read_loop fuel aes p v o n = Some (ok, bs, v') -> same_partitions v v'.
Proof.
  revert v o n ok bs v'. induction fuel as [|fuel IH]; intros v o n ok bs v' H.
  - destruct (Z.leb_spec n 0) as [Hn|Hn].
    + rewrite Read_loop_done in H by lia. injection H as <- <- <-.
      apply same_partitions_refl.
    + simpl in H. destruct (Z.leb_spec n 0); [lia|discriminate].
  - destruct (Z.leb_spec n 0) as [Hn|Hn].
    + rewrite Read_loop_done in H by lia. injection H as <- <- <-.
      apply same_partitions_refl.
    + rewrite Read_loop_step in H by lia.
      destruct (fetch_cluster _ _ _) as [v1|] eqn:Ef.
      * destruct (fetch_cluster_Some _ _ _ _ Ef) as (_ & Hsame & _).
        destruct (Read_loop fuel aes p v1 _ _) as [[[ok1 rest] v2]|] eqn:E; [|discriminate].
        injection H as <- <- <-. eapply same_partitions_trans; eauto.
      * injection H as <- <- <-. apply same_partitions_refl.
Qed.

Lemma fetch_cluster_hit (aes : aes_context) (v : VolumeWii) (blk : Z) :
  m_last_decrypted_block v = blk -> fetch_cluster aes v blk = Some v.
Proof. intros <-. unfold fetch_cluster. now rewrite Z.eqb_refl. Qed.

Lemma same_cluster (p : Partition) (o k : Z) :
  0 <= k -> data_offset_in_block o + k < BLOCK_DATA_SIZE ->
  block_offset_on_disc p (o + k) = block_offset_on_disc p o /\
  data_offset_in_block (o + k) = data_offset_in_block o + k.
Proof.
  unfold block_offset_on_disc, data_offset_in_block, BLOCK_DATA_SIZE. intros Hk Hlt.
  pose proof (Z.mod_pos_bound o 0x7C00 ltac:(lia)).
  pose proof (Z.div_mod o 0x7C00 ltac:(lia)).
  assert ((o + k) / 0x7C00 = o / 0x7C00) as Hq.
  { symmetry. apply (Z.div_unique_pos _ _ _ (o mod 0x7C00 + k)); lia. }
  rewrite Hq. split; [reflexivity|].
  symmetry. apply (Z.mod_unique_pos _ _ (o / 0x7C00)); lia.
Qed.

Lemma Read_loop_split (fuel : nat) (aes : aes_context) (p : Partition) :
  forall (v : VolumeWii) (o n k : Z) bs v',
    0 <= o -> 0 <= k <= n -> o + k < 2 ^ 64 ->
    Read_loop fuel aes p v o n = Some (true, bs, v') ->
    exists b1 v1 b2,
      Read_loop fuel aes p v o k = Some (true, b1, v1) /\
      Read_loop fuel aes p v1 (o + k) (n - k) = Some (true, b2, v') /\
      bs = b1 ++ b2.
Proof.
  induction fuel as [|fuel IH]; intros v o n k bs v' Ho Hk Hfit H.
  - destruct (Z.leb_spec n 0) as [Hn|Hn].
    + exists [], v, bs. rewrite Read_loop_done by lia.
      replace (n - k) with n by lia. rewrite Read_loop_done in H |- * by lia.
      injection H as <- <-. auto.
    + simpl in H. destruct (Z.leb_spec n 0); [lia|discriminate].
  - destruct (Z.eq_dec k 0) as [->|Hk0].
    { exists [], v, bs. rewrite Read_loop_done by lia.
      rewrite Z.add_0_r, Z.sub_0_r. auto. }
    assert (0 < n) as Hn by lia.
    rewrite Read_loop_step in H by lia.
    destruct (fetch_cluster aes v (block_offset_on_disc p o)) as [v1|] eqn:Ef; [|discriminate].
    destruct (Read_loop fuel aes p v1 _ _) as [[[ok1 rest] v2]|] eqn:E; [|discriminate].
    injection H as -> <- <-.
    pose proof (copy_size_of_bounds o n Hn) as Hc.
    assert (0 <= data_offset_in_block o < BLOCK_DATA_SIZE) as Hoff
      by (apply Z.mod_pos_bound; reflexivity).
    destruct (Z.le_gt_cases (copy_size_of o n) k) as [Hge|Hlt].
    + (* the split point is at or after the end of the first chunk *)
      assert (copy_size_of o k = copy_size_of o n) as Hck
        by (unfold copy_size_of in *; lia).
      assert (add64 o (copy_size_of o n) = o + copy_size_of o n) as Hadd
        by (apply wrap64_small; lia).
      destruct (IH v1 (add64 o (copy_size_of o n)) (n - copy_size_of o n)
                  (k - copy_size_of o n) rest v2) as (b1 & v1' & b2 & H1 & H2 & ->);
        [rewrite Hadd; lia|lia|rewrite Hadd; lia|exact E|].
      exists (chunk_of v1 o n ++ b1), v1', b2.
      split; [|split].
      * rewrite Read_loop_step by lia. rewrite Ef. unfold chunk_of. rewrite Hck, H1.
        reflexivity.
      * apply (Read_loop_more_fuel fuel); [|lia]. rewrite <- H2. f_equal; rewrite ?Hadd; lia.
      * now rewrite app_assoc.
    + (* the split point falls inside the first chunk *)
      assert (copy_size_of o k = k) as Hck by (unfold copy_size_of in *; lia).
      destruct (fetch_cluster_Some _ _ _ _ Ef) as (Hlast & _ & _).
      destruct (same_cluster p o k) as [Hblk Hoffk]; [lia|unfold copy_size_of in *; lia|].
      exists (chunk_of v1 o k), v1, (chunk_of v1 (o + k) (n - k) ++ rest).
      split; [|split].
      * rewrite Read_loop_step by lia. rewrite Ef, Hck.
        rewrite Read_loop_done by lia. now rewrite app_nil_r.
      * rewrite Read_loop_step by lia. rewrite Hblk, (fetch_cluster_hit _ _ _ Hlast).
        assert (copy_size_of (o + k) (n - k) = copy_size_of o n - k) as Hc2
          by (unfold copy_size_of in *; rewrite Hoffk; lia).
        rewrite Hc2.
        replace (add64 (o + k) (copy_size_of o n - k)) with (add64 o (copy_size_of o n))
          by (unfold add64; f_equal; lia).
        replace (n - k - (copy_size_of o n - k)) with (n - copy_size_of o n) by lia.
        now rewrite E.
      * rewrite app_assoc. f_equal. unfold chunk_of.
        assert (copy_size_of (o + k) (n - k) = copy_size_of o n - k) as Hc2
          by (unfold copy_size_of in *; rewrite Hoffk; lia).
        rewrite Hck, Hc2, Hoffk.
        replace (Z.to_nat (copy_size_of o n))
          with (Z.to_nat k + Z.to_nat (copy_size_of o n - k))%nat by lia.
        rewrite take_add_drop, drop_drop. do 3 f_equal. lia.
Qed.

(** C5 (amended). For a partition of the map and a split point [k] with
    [o + k] still a [u64] offset, a successful [Read] of [n] bytes at [o]
    delivers the bytes of [Read] of [k] bytes at [o] followed by those of
    [Read] of [n - k] bytes at [o + k] run on the volume the first leaves;
    both succeed and end in the same cache state, whatever the cache held
    at the start. *)
Theorem Read_split (v : VolumeWii) (aes : aes_context) (p : Partition) (o n k : Z)
    (bs : list byte) (v' : VolumeWii) :
  Partition_eqb p PARTITION_NONE = false ->
  m_partition_keys v !! offset p = Some aes ->
  0 <= o -> 0 <= k <= n -> o + k < 2 ^ 64 ->
  Read v o n p = (true, bs, v') ->
  exists b1 v1 b2,
    Read v o k p = (true, b1, v1) /\
    Read v1 (o + k) (n - k) p = (true, b2, v') /\
    bs = b1 ++ b2.
Proof.
  intros Hp Hkey Ho Hk Hfit H.
  pose proof (Read_known (Z.to_nat n) aes v o n p Hp Hkey (le_n _)) as Hn.
  rewrite H in Hn.
  destruct (Read_loop_split _ _ _ _ _ _ _ _ _ Ho Hk Hfit Hn) as (b1 & v1 & b2 & H1 & H2 & ->).
  exists b1, v1, b2.
  assert (m_partition_keys v1 !! offset p = Some aes) as Hkey1.
  { destruct (Read_loop_same_partitions _ _ _ _ _ _ _ _ _ H1) as (-> & _). exact Hkey. }
  rewrite (Read_known (Z.to_nat n) aes v o k p Hp Hkey) in H1 by lia.
  rewrite (Read_known (Z.to_nat n) aes v1 (o + k) (n - k) p Hp Hkey1) in H2 by lia.
  injection H1 as H1. injection H2 as H2. auto.
Qed.

(** ** A read that fails part-way *)

Lemma Read_loop_failure (fuel : nat) (aes : aes_context) (p : Partition) :
  forall (v : VolumeWii) (o n : Z) w v',
    u64_range o ->
    Read_loop fuel aes p v o n = Some (false, w, v') ->
    exists k,
      0 <= k < n /\
      Read_loop fuel aes p v o k = Some (true, w, v') /\
      blob_Read (block_offset_on_disc p (add64 o k)) BLOCK_TOTAL_SIZE = None /\
      m_last_decrypted_block v' <> block_offset_on_disc p (add64 o k).
Proof.
  induction fuel as [|fuel IH]; intros v o n w v' Ho H.
  - destruct (Z.leb_spec n 0) as [Hn|Hn].
    + rewrite Read_loop_done in H by lia. discriminate.
    + simpl in H. destruct (Z.leb_spec n 0); [lia|discriminate].
  - destruct (Z.leb_spec n 0) as [Hn|Hn]; [rewrite Read_loop_done in H by lia; discriminate|].
    rewrite Read_loop_step in H by lia.
    destruct (fetch_cluster aes v (block_offset_on_disc p o)) as [v1|] eqn:Ef.
    + destruct (Read_loop fuel aes p v1 _ _) as [[[ok1 rest] v2]|] eqn:E; [|discriminate].
      injection H as -> <- <-.
      assert (u64_range (add64 o (copy_size_of o n))) as Ho1 by apply wrap64_range.
      destruct (IH _ _ _ _ _ Ho1 E) as (k' & Hk' & H1 & Hfail & Hlast).
      pose proof (copy_size_of_bounds o n Hn) as Hc.
      exists (copy_size_of o n + k').
      assert (copy_size_of o (copy_size_of o n + k') = copy_size_of o n) as Hck
        by (unfold copy_size_of in *; lia).
      rewrite add64_add64 in Hfail, Hlast.
      split; [lia|]. split; [|split; assumption].
      rewrite Read_loop_step by lia. rewrite Ef. unfold chunk_of. rewrite Hck.
      replace (copy_size_of o n + k' - copy_size_of o n) with k' by lia.
      now rewrite H1.
    + injection H as <- <-. exists 0. split; [lia|].
      rewrite Read_loop_done by lia. split; [reflexivity|].
      assert (add64 o 0 = o) as -> by (unfold add64; rewrite Z.add_0_r; now apply wrap64_small).
      unfold fetch_cluster in Ef.
      destruct (Z.eqb_spec (m_last_decrypted_block v) (block_offset_on_disc p o)) as [He|He];
        simpl in Ef; [discriminate|].
      destruct (blob_Read _ _); [discriminate|]. auto.
Qed.

(** C9. When [Read] on a partition of the map returns false, it failed at
    the fetch of the cluster holding byte [k] of the request, for some
    [k < n]; the bytes it stored in the caller's buffer and the volume it
    leaves (cached offset and cache buffer) are exactly those of a successful
    [Read] of the first [k] bytes: the bytes stay at the start of the buffer
    and the cache is the one left by the last cluster served, not the one
    held before the call. *)
Theorem Read_failure_not_atomic (v : VolumeWii) (aes : aes_context) (p : Partition)
    (o n : Z) (w : list byte) (v' : VolumeWii) :
  Partition_eqb p PARTITION_NONE = false ->
  m_partition_keys v !! offset p = Some aes ->
  u64_range o ->
  Read v o n p = (false, w, v') ->
  exists k,
    0 <= k < n /\
    Read v o k p = (true, w, v') /\
    blob_Read (block_offset_on_disc p (add64 o k)) BLOCK_TOTAL_SIZE = None /\
    m_last_decrypted_block v' <> block_offset_on_disc p (add64 o k) /\
    forall out, take (length w) (buffer_after out w) = w.
Proof.
  intros Hp Hkey Ho H.
  pose proof (Read_known (Z.to_nat n) aes v o n p Hp Hkey (le_n _)) as Hn.
  rewrite H in Hn.
  destruct (Read_loop_failure _ _ _ _ _ _ _ _ Ho Hn) as (k & Hk & H1 & Hfail & Hlast).
  exists k. split; [exact Hk|].
  rewrite (Read_known (Z.to_nat n) aes v o k p Hp Hkey) in H1 by lia.
  injection H1 as H1. split; [exact H1|]. split; [exact Hfail|]. split; [exact Hlast|].
  intros out. unfold buffer_after. now rewrite take_app_length.
Qed.

(** ** The integrity check *)

Lemma cluster_offset_wrap (p : Partition) (c : Z) :
  cluster_offset p c = wrap64 (offset p + PARTITION_DATA_OFFSET + c * 0x8000).
Proof.
  unfold cluster_offset, mul64, add64, wrap64.
  now rewrite <- Z.add_mod by lia.
Qed.

Lemma cluster_offset_inj (p : Partition) (c c' : Z) :
  0 <= c < 2 ^ 32 -> 0 <= c' < 2 ^ 32 ->
  cluster_offset p c = cluster_offset p c' -> c = c'.
Proof.
  intros Hc Hc'. rewrite !cluster_offset_wrap. unfold wrap64. intros H.
  pose proof (Z.div_mod (offset p + PARTITION_DATA_OFFSET + c * 0x8000) (2 ^ 64) ltac:(lia)).
  pose proof (Z.div_mod (offset p + PARTITION_DATA_OFFSET + c' * 0x8000) (2 ^ 64) ltac:(lia)).
  lia.
Qed.

Lemma block_offset_of_cluster (p : Partition) (c : Z) :
  0 <= c < 2 ^ 32 ->
  mul64 c 0x7C00 = c * 0x7C00 /\
  block_offset_on_disc p (c * 0x7C00) = cluster_offset p c /\
  data_offset_in_block (c * 0x7C00) = 0.
Proof.
  intros Hc. split; [apply wrap64_small; lia|].
  unfold block_offset_on_disc, cluster_offset, data_offset_in_block,
    BLOCK_DATA_SIZE, BLOCK_TOTAL_SIZE.
  rewrite Z.div_mul, Z.mod_mul by lia. auto.
Qed.

(** Reading one whole cluster through the encrypted read path. *)
Lemma Read_whole_cluster (v : VolumeWii) (aes : aes_context) (p : Partition) (c : Z) :
  Partition_eqb p PARTITION_NONE = false ->
  m_partition_keys v !! offset p = Some aes ->
  0 <= c < 2 ^ 32 ->
  Read v (mul64 c 0x7C00) 0x7C00 p =
    match fetch_cluster aes v (cluster_offset p c) with
    | None => (false, [], v)
    | Some v1 =>
      (true, take (Z.to_nat BLOCK_DATA_SIZE) (m_last_decrypted_block_data v1), v1)
    end.
Proof.
  intros Hp Hk Hc.
  destruct (block_offset_of_cluster p c Hc) as (Hmul & Hblk & Hoff).
  rewrite Hmul.
  pose proof (Read_known (S (Z.to_nat 0x7BFF)) aes v (c * 0x7C00) 0x7C00 p Hp Hk
                ltac:(lia)) as H.
  rewrite Read_loop_step in H by lia.
  rewrite Hblk in H.
  assert (copy_size_of (c * 0x7C00) 0x7C00 = 0x7C00) as Hcs
    by (unfold copy_size_of, BLOCK_DATA_SIZE; rewrite Hoff; lia).
  destruct (fetch_cluster aes v (cluster_offset p c)) as [v1|].
  - rewrite Hcs, Read_loop_done in H by lia.
    injection H as <-. unfold chunk_of.
    rewrite Hcs, Hoff, app_nil_r. reflexivity.
  - now injection H as <-.
Qed.

Lemma cluster_payload_first (v : VolumeWii) (aes : aes_context) (p : Partition) (c : Z) :
  cluster_payload v aes p c c =
    (fun v1 => take (Z.to_nat BLOCK_DATA_SIZE) (m_last_decrypted_block_data v1))
      <$> fetch_cluster aes v (cluster_offset p c).
Proof.
  unfold cluster_payload, fetch_cluster. rewrite Z.sub_diag. cbn [Z.to_nat counting forallb].
  rewrite andb_true_r.
  destruct (m_last_decrypted_block v =? cluster_offset p c); [reflexivity|]. cbn [negb].
  now destruct (blob_Read _ _).
Qed.

Lemma cluster_payload_after_skipped (v : VolumeWii) (aes : aes_context) (p : Partition)
    (first c : Z) :
  first < c -> cluster_skipped aes p first = true ->
  cluster_payload v aes p first c = cluster_payload v aes p (first + 1) c.
Proof.
  intros Hlt Hs. unfold cluster_payload.
  replace (Z.to_nat (c - first)) with (S (Z.to_nat (c - (first + 1)))) by lia.
  cbn [counting forallb]. now rewrite Hs.
Qed.

Lemma cluster_payload_after_read (v v1 : VolumeWii) (aes : aes_context) (p : Partition)
    (first c : Z) :
  0 <= first < c -> c < 2 ^ 32 ->
  cluster_skipped aes p first = false ->
  m_last_decrypted_block v1 = cluster_offset p first ->
  cluster_payload v aes p first c = cluster_payload v1 aes p (first + 1) c.
Proof.
  intros Hlt Hc Hs Hlast. unfold cluster_payload.
  replace (Z.to_nat (c - first)) with (S (Z.to_nat (c - (first + 1)))) by lia.
  cbn [counting forallb]. rewrite Hs, andb_false_r. cbn [andb]. rewrite Hlast.
  destruct (Z.eqb_spec (cluster_offset p first) (cluster_offset p c)) as [He|He];
    [|reflexivity].
  apply cluster_offset_inj in He; lia.
Qed.

Lemma hashes_match_all (payload md : list byte) :
  hashes_match payload md = true <->
  forall hashID, (hashID < 31)%nat -> hash_matches payload md hashID = true.
Proof.
  unfold hashes_match. rewrite forallb_forall. split.
  - intros H h Hh. apply H, in_seq. lia.
  - intros H h Hh. apply in_seq in Hh. apply H. lia.
Qed.

Lemma cluster_passes_shift (v v1 : VolumeWii) (aes : aes_context) (p : Partition)
    (first : Z) (n : nat) :
  (forall c, first < c < first + 1 + Z.of_nat n ->
     cluster_payload v aes p first c = cluster_payload v1 aes p (first + 1) c) ->
  cluster_passes v aes p first first ->
  (forall c, first + 1 <= c < first + 1 + Z.of_nat n -> cluster_passes v1 aes p (first + 1) c)
  <-> (forall c, first <= c < first + Z.of_nat (S n) -> cluster_passes v aes p first c).
Proof.
  intros Hpay Hfirst. split.
  - intros H c Hc. destruct (Z.eq_dec c first) as [->|Hne]; [exact Hfirst|].
    unfold cluster_passes. rewrite Hpay by lia. apply H. lia.
  - intros H c Hc. unfold cluster_passes. rewrite <- Hpay by lia. apply H. lia.
Qed.

Lemma CheckIntegrity_loop_passes (aes : aes_context) (p : Partition) (n : nat) :
  forall (v : VolumeWii) (first : Z),
    Partition_eqb p PARTITION_NONE = false ->
    m_partition_keys v !! offset p = Some aes ->
    0 <= first -> first + Z.of_nat n <= 2 ^ 32 ->
    fst (CheckIntegrity_loop n aes p v first) = true <->
    forall c, first <= c < first + Z.of_nat n -> cluster_passes v aes p first c.
Proof.
  induction n as [|n IH]; intros v first Hp Hk Hf Hn.
  - simpl. split; [intros _ c Hc; lia|reflexivity].
  - cbn [CheckIntegrity_loop].
    destruct (blob_Read (cluster_offset p first) 0x400) as [mdc|] eqn:Emd.
    2:{ split; [discriminate|]. intros H.
        destruct (H first ltac:(lia)) as (md & Hmd & _).
        unfold cluster_metadata in Hmd. rewrite Emd in Hmd. discriminate. }
    set (md := mbedtls_aes_crypt_cbc_dec aes zero_IV (take 0x400 mdc)).
    assert (cluster_metadata aes p first = Some md) as Hmd
      by (unfold cluster_metadata; now rewrite Emd).
    assert (cluster_skipped aes p first = meaningless md) as Hsk
      by (unfold cluster_skipped; now rewrite Hmd).
    destruct (meaningless md) eqn:Emean.
    + rewrite IH by (auto; lia).
      apply cluster_passes_shift.
      * intros c Hc. apply cluster_payload_after_skipped; [lia|exact Hsk].
      * exists md. auto.
    + rewrite (Read_whole_cluster v aes p first Hp Hk) by lia.
      pose proof (cluster_payload_first v aes p first) as Hpay.
      destruct (fetch_cluster aes v (cluster_offset p first)) as [v1|] eqn:Ef.
      2:{ split; [discriminate|]. intros H.
          destruct (H first ltac:(lia)) as (md' & Hmd' & [Hm|(pl & Hpl & _)]).
          - rewrite Hmd in Hmd'. injection Hmd' as <-. congruence.
          - rewrite Hpay in Hpl. discriminate. }
      destruct (fetch_cluster_Some _ _ _ _ Ef) as (Hlast & (Hkeys & _) & _).
      cbn in Hpay.
      destruct (hashes_match _ md) eqn:Eh.
      * rewrite IH by (rewrite ?Hkeys; auto; lia).
        apply cluster_passes_shift.
        -- intros c Hc. apply cluster_payload_after_read; auto; lia.
        -- exists md. split; [exact Hmd|]. right. eexists. split; [exact Hpay|].
           now apply hashes_match_all.
      * split; [discriminate|]. intros H.
        destruct (H first ltac:(lia)) as (md' & Hmd' & [Hm|(pl & Hpl & Hall)]).
        -- rewrite Hmd in Hmd'. injection Hmd' as <-. congruence.
        -- rewrite Hmd in Hmd'. injection Hmd' as <-.
           rewrite Hpay in Hpl. injection Hpl as <-.
           apply hashes_match_all in Hall. congruence.
Qed.

Lemma nClusters_be (bs : list byte) :
  nClusters (u32_le bs) = u32_be bs * 4 / 0x8000.
Proof.
  unfold nClusters. rewrite swap32_u32_le.
  pose proof (u32_be_range bs) as Hr.
  rewrite (wrap64_small (u32_be bs * 4)) by lia.
  unfold wrap32. apply Z.mod_small.
  split; [apply Z.div_pos; lia|]. apply Z.div_lt_upper_bound; lia.
Qed.

(** The check on a partition whose size word is readable, in terms of the
    tests of the loop body. *)
Lemma CheckIntegrity_passes_clusters (stale : Z) (v : VolumeWii) (aes : aes_context)
    (p : Partition) (bs : list byte) :
  Partition_eqb p PARTITION_NONE = false ->
  m_partition_keys v !! offset p = Some aes ->
  blob_Read (add64 (offset p) 0x2BC) 4 = Some bs ->
  fst (CheckIntegrity stale v p) = true <->
  forall c, 0 <= c < u32_be bs * 4 / 0x8000 -> cluster_passes v aes p 0 c.
Proof.
  intros Hp Hk Hsize. unfold CheckIntegrity. rewrite Hk, Hsize, nClusters_be.
  pose proof (u32_be_range bs) as Hr.
  assert (0 <= u32_be bs * 4 / 0x8000 < 2 ^ 32) as Hn.
  { split; [apply Z.div_pos; lia|]. apply Z.div_lt_upper_bound; lia. }
  rewrite CheckIntegrity_loop_passes by (auto; lia).
  rewrite Z2Nat.id by lia. reflexivity.
Qed.

(** ** The loop body's tests against the specification's words *)

Lemma byte_val_zero (b : byte) : byte_val b = 0 <-> b = x00.
Proof.
  split; [|intros ->; reflexivity].
  destruct b; intros H; try reflexivity; vm_compute in H; discriminate H.
Qed.

Lemma meaningless_padding (md : list byte) :
  meaningless md = true <-> padding_nonzero md.
Proof.
  unfold meaningless, padding_nonzero. rewrite existsb_exists. split.
  - intros (idx & Hin & Hb). apply in_seq in Hin. exists idx. split; [lia|].
    apply negb_true_iff, Z.eqb_neq in Hb. intros Hz. apply Hb.
    unfold byte_at. now rewrite Hz.
  - intros (idx & Hr & Hne). exists idx. split; [apply in_seq; lia|].
    apply negb_true_iff, Z.eqb_neq. intros Hz. apply Hne. now apply byte_val_zero.
Qed.

Lemma hash_matches_slot (payload md : list byte) (h : nat) :
  hash_matches payload md h = true <-> hash_slot_equal payload md h.
Proof. unfold hash_matches, hash_slot_equal. exact (bool_decide_eq_true _). Qed.

Lemma cluster_metadata_explicit (aes : aes_context) (p : Partition) (c : Z) :
  cluster_metadata aes p c = decrypted_metadata aes p c.
Proof.
  unfold cluster_metadata, decrypted_metadata. rewrite cluster_offset_wrap.
  unfold wrap64, PARTITION_DATA_OFFSET. now destruct (blob_Read _ _).
Qed.

Lemma cluster_skipped_padding (aes : aes_context) (p : Partition) (c : Z) :
  cluster_skipped aes p c = true <-> skipped_as_padding aes p c.
Proof.
  unfold cluster_skipped, skipped_as_padding. rewrite cluster_metadata_explicit.
  destruct (decrypted_metadata aes p c) as [md|].
  - rewrite meaningless_padding. split.
    + intros H. exists md. auto.
    + intros (md' & [= <-] & H). exact H.
  - split; [discriminate|]. intros (md' & Hd & _). discriminate.
Qed.

Lemma forallb_counting (f : Z -> bool) (n : nat) (first : Z) :
  forallb f (counting n first) = true <->
  forall c, first <= c < first + Z.of_nat n -> f c = true.
Proof.
  revert first. induction n as [|n IH]; intros first.
  - cbn. split; [intros _ c Hc; lia|reflexivity].
  - cbn [counting forallb]. rewrite andb_true_iff, IH. split.
    + intros [H0 H] c Hc. destruct (Z.eq_dec c first) as [->|]; [exact H0|apply H; lia].
    + intros H. split; [apply H; lia|intros c Hc; apply H; lia].
Qed.

Lemma cache_test_served (v : VolumeWii) (aes : aes_context) (p : Partition) (c : Z) :
  0 <= c ->
  (m_last_decrypted_block v =? cluster_offset p c)
  && forallb (cluster_skipped aes p) (counting (Z.to_nat (c - 0)) 0) = true
  <-> served_from_cache v aes p c.
Proof.
  intros Hc. unfold served_from_cache.
  rewrite andb_true_iff, Z.eqb_eq, forallb_counting, cluster_offset_wrap.
  unfold wrap64, PARTITION_DATA_OFFSET.
  split; intros [Hl Hs]; (split; [exact Hl|]); intros c' Hc';
    apply cluster_skipped_padding, Hs; lia.
Qed.

Lemma cluster_payload_delivered (v : VolumeWii) (aes : aes_context) (p : Partition)
    (c : Z) (payload : list byte) :
  0 <= c ->
  cluster_payload v aes p 0 c = Some payload <-> delivered_payload v aes p c payload.
Proof.
  intros Hc. unfold cluster_payload, delivered_payload.
  pose proof (cache_test_served v aes p c Hc) as Hs.
  destruct (_ && _).
  - assert (served_from_cache v aes p c) as Hsv by now apply Hs.
    split.
    + intros [= <-]. left. split; [exact Hsv|reflexivity].
    + intros [[_ ->]|[Hn _]]; [reflexivity|contradiction].
  - assert (~ served_from_cache v aes p c) as Hsv
      by (intros H; apply Hs in H; discriminate).
    rewrite cluster_offset_wrap. unfold wrap64, PARTITION_DATA_OFFSET.
    change BLOCK_TOTAL_SIZE with 0x8000.
    destruct (blob_Read _ 0x8000) as [cl|]; cbn [fmap option_fmap option_map].
    + split.
      * intros [= <-]. right. split; [exact Hsv|]. exists cl. split; reflexivity.
      * intros [[H _]|[_ (cl' & [= <-] & ->)]]; [contradiction|reflexivity].
    + split; [discriminate|].
      intros [[H _]|[_ (cl' & Hd & _)]]; [contradiction|discriminate].
Qed.

Lemma cluster_passes_verified (v : VolumeWii) (aes : aes_context) (p : Partition) (c : Z) :
  0 <= c -> cluster_passes v aes p 0 c <-> cluster_verified v aes p c.
Proof.
  intros Hc. unfold cluster_passes, cluster_verified. rewrite cluster_metadata_explicit.
  split; intros (md & Hmd & H); exists md; (split; [exact Hmd|]).
  - destruct H as [H|(pl & Hpl & Hh)]; [left; now apply meaningless_padding|].
    right. exists pl. split; [now apply cluster_payload_delivered|].
    intros h Hlt. apply hash_matches_slot, Hh, Hlt.
  - destruct H as [H|(pl & Hpl & Hh)]; [left; now apply meaningless_padding|].
    right. exists pl. split; [now apply cluster_payload_delivered|].
    intros h Hlt. apply hash_matches_slot, Hh, Hlt.
Qed.

(** X18. For a partition of the map whose size word at [offset + 0x2BC] is
    readable, [CheckIntegrity] returns true exactly when every cluster
    [c < (u32_be * 4) / 0x8000] is verified: the [0x400] bytes at
    [offset + 0x20000 + c * 0x8000] are readable and, decrypted with an
    all-zero IV, either have a non-zero byte at an index of [0x26C..0x280)
    (the cluster is skipped, no hash looked at), or the [0x7C00] bytes the
    encrypted read path delivers for the cluster are readable and the SHA-1
    of each of their 31 sub-blocks of 1024 bytes equals the 20-byte slot of
    the same index in the metadata. A metadata read failure, a payload read
    failure or a hash mismatch makes it false. *)
Theorem CheckIntegrity_verifies_clusters (stale : Z) (v : VolumeWii) (aes : aes_context)
    (p : Partition) (bs : list byte) :
  Partition_eqb p PARTITION_NONE = false ->
  m_partition_keys v !! offset p = Some aes ->
  blob_Read ((offset p + 0x2BC) mod 2 ^ 64) 4 = Some bs ->
  fst (CheckIntegrity stale v p) = true <->
  forall c, 0 <= c < u32_be bs * 4 / 0x8000 -> cluster_verified v aes p c.
Proof.
  intros Hp Hk Hsize.
  rewrite (CheckIntegrity_passes_clusters stale v aes p bs Hp Hk Hsize).
  split; intros H c Hc.
  - apply cluster_passes_verified; [lia|]. apply H, Hc.
  - apply cluster_passes_verified; [lia|]. apply H, Hc.
Qed.

(** ** Fresh caches *)

Lemma cache_agrees_fresh (aes : aes_context) (p : Partition) (v : VolumeWii) :
  offset p mod 4 = 0 ->
  m_last_decrypted_block v = UINT64_MAX ->
  cache_agrees aes p v.
Proof.
  intros Hp Hlast o H. exfalso. rewrite Hlast in H.
  unfold block_offset_on_disc, mul64, add64, wrap64, UINT64_MAX,
    PARTITION_DATA_OFFSET, BLOCK_TOTAL_SIZE in H.
  rewrite <- Z.add_mod in H by lia.
  pose proof (Z.div_mod (offset p + 131072 + o / BLOCK_DATA_SIZE * 32768) (2 ^ 64) ltac:(lia)).
  pose proof (Z.div_mod (offset p) 4 ltac:(lia)).
  lia.
Qed.

Lemma triple_eta {A B C} (r : A * B * C) (a : A) :
  fst (fst r) = a -> r = (a, snd (fst r), snd r).
Proof. intros <-. now destruct r as [[? ?] ?]. Qed.

(** ** The keys of the partition map are word-aligned *)

Lemma shl2_64_aligned (x : Z) : shl2_64 x mod 4 = 0.
Proof.
  unfold shl2_64, wrap64. rewrite Z.shiftl_mul_pow2 by lia.
  pose proof (Z.div_mod (x * 2 ^ 2) (2 ^ 64) ltac:(lia)).
  pose proof (Z.div_mod ((x * 2 ^ 2) mod 2 ^ 64) 4 ltac:(lia)).
  pose proof (Z.mod_pos_bound ((x * 2 ^ 2) mod 2 ^ 64) 4 ltac:(lia)).
  lia.
Qed.

Lemma check_entry_aligned (e : Z * Z) (ld : Loaded) :
  check_entry e = inr ld -> ld_offset ld mod 4 = 0.
Proof.
  destruct e as [pto i]. unfold check_entry.
  destruct (ReadSwapped_u32 (add64 pto (mul32 i 8))) as [raw|]; [|discriminate].
  intros H. assert (ld_offset ld = shl2_64 raw) as ->.
  { repeat case_match; simplify_eq; reflexivity. }
  apply shl2_64_aligned.
Qed.

Lemma scan_keys_word_aligned (es : list (Z * Z)) (st : VolumeWii * list Alert) :
  keys_word_aligned (fst st) -> keys_word_aligned (fst (foldl scan_entry st es)).
Proof.
  revert st. induction es as [|e es IH]; intros st Ha; [exact Ha|].
  cbn [foldl]. apply IH. rewrite scan_entry_check.
  destruct (check_entry e) as [err|ld] eqn:He; cbn [fst]; [exact Ha|].
  intros k. unfold store_loaded. cbn [m_partition_keys].
  destruct (decide (ld_offset ld = k)) as [<-|Hne].
  - intros _. eapply check_entry_aligned, He.
  - rewrite lookup_insert_ne by exact Hne. apply Ha.
Qed.

Lemma reachable_keys_word_aligned (v : VolumeWii) : reachable v -> keys_word_aligned v.
Proof.
  induction 1 as [|v o n p Hr IH|stale v p Hr IH].
  - rewrite ctor_scanned_entries. apply scan_keys_word_aligned.
    intros k [x Hx]. cbn in Hx. now rewrite lookup_empty in Hx.
  - destruct (Read_invariant v o n p (reachable_cache_invariant v Hr)) as [_ (Hk & _)].
    intros k. rewrite Hk. apply IH.
  - destruct (CheckIntegrity_invariant stale v p (reachable_cache_invariant v Hr))
      as [_ (Hk & _)].
    intros k. rewrite Hk. apply IH.
Qed.

(** ** What the cache holds, and which call put it there *)

Lemma Read_loop_fills (fuel : nat) (aes : aes_context) (p : Partition) (v : VolumeWii)
    (o n : Z) ok bs v' :
  Read_loop fuel aes p v o n = Some (ok, bs, v') ->
  cache_kept v v' \/ holds_cluster_of aes p v'.
Proof.
  revert v o n ok bs v'. induction fuel as [|fuel IH]; intros v o n ok bs v' H.
  - destruct (Z.leb_spec n 0) as [Hn|Hn].
    + rewrite Read_loop_done in H by lia. injection H as <- <- <-. left. split; reflexivity.
    + simpl in H. destruct (Z.leb_spec n 0); [lia|discriminate].
  - destruct (Z.leb_spec n 0) as [Hn|Hn].
    + rewrite Read_loop_done in H by lia. injection H as <- <- <-. left. split; reflexivity.
    + rewrite Read_loop_step in H by lia.
      destruct (fetch_cluster _ _ _) as [v1|] eqn:Ef.
      * destruct (fetch_cluster_Some _ _ _ _ Ef) as (Hlast & _ & Hdata).
        destruct (Read_loop fuel aes p v1 _ _) as [[[ok1 rest] v2]|] eqn:E; [|discriminate].
        injection H as <- <- <-.
        destruct (IH _ _ _ _ _ _ E) as [[Hl Hd]|Hfill]; [|now right].
        destruct Hdata as [->|(cl & Hcl & Hdd)]; [left; split; assumption|].
        right. apply (holds_cluster_of_intro aes p v2 o cl).
        -- now rewrite Hl.
        -- now rewrite Hl, Hlast.
        -- now rewrite Hd.
      * injection H as <- <- <-. left. split; reflexivity.
Qed.

Lemma Read_fills (v : VolumeWii) (o n : Z) (p : Partition) (aes : aes_context) :
  m_partition_keys v !! offset p = Some aes ->
  cache_kept v (snd (Read v o n p)) \/ holds_cluster_of aes p (snd (Read v o n p)).
Proof.
  intros Hk. unfold Read. destruct (Partition_eqb p PARTITION_NONE).
  { destruct (blob_Read o n); left; split; reflexivity. }
  rewrite Hk.
  destruct (Read_loop _ _ _ _ _ _) as [[[ok bs] v']|] eqn:E; [|left; split; reflexivity].
  cbn [snd]. eapply Read_loop_fills, E.
Qed.

Lemma Read_same_keys (v : VolumeWii) (o n : Z) (p : Partition) :
  m_partition_keys (snd (Read v o n p)) = m_partition_keys v.
Proof.
  unfold Read. destruct (Partition_eqb p PARTITION_NONE); [now destruct (blob_Read o n)|].
  destruct (m_partition_keys v !! offset p) as [aes|]; [|reflexivity].
  destruct (Read_loop _ _ _ _ _ _) as [[[ok bs] v']|] eqn:E; [|reflexivity].
  cbn [snd]. now destruct (Read_loop_same_partitions _ _ _ _ _ _ _ _ _ E) as (-> & _).
Qed.

Lemma cache_step_trans (aes : aes_context) (p : Partition) (v v1 v2 : VolumeWii) :
  cache_kept v v1 \/ holds_cluster_of aes p v1 ->
  cache_kept v1 v2 \/ holds_cluster_of aes p v2 ->
  cache_kept v v2 \/ holds_cluster_of aes p v2.
Proof.
  intros H1 [[Hl Hd]|H2]; [|now right].
  destruct H1 as [[Hl1 Hd1]|(o & cl & Ho & Hlast & Hcl & Hdata)].
  - left. split; congruence.
  - right. exists o, cl. rewrite Hl, Hd. auto.
Qed.

Lemma CheckIntegrity_loop_fills (n : nat) (aes : aes_context) (p : Partition)
    (v : VolumeWii) (c : Z) :
  m_partition_keys v !! offset p = Some aes ->
  cache_kept v (snd (CheckIntegrity_loop n aes p v c)) \/
  holds_cluster_of aes p (snd (CheckIntegrity_loop n aes p v c)).
Proof.
  revert v c. induction n as [|n IH]; intros v c Hk; cbn [CheckIntegrity_loop].
  - left. split; reflexivity.
  - destruct (blob_Read _ _); [|left; split; reflexivity].
    destruct (meaningless _); [now apply IH|].
    pose proof (Read_fills v (mul64 c 0x7C00) 0x7C00 p aes Hk) as Hf.
    pose proof (Read_same_keys v (mul64 c 0x7C00) 0x7C00 p) as Hkeys.
    destruct (Read v _ _ p) as [[ok bs] v1]. cbn [snd] in Hf, Hkeys.
    destruct ok; [|exact Hf].
    destruct (hashes_match _ _); [|exact Hf].
    eapply cache_step_trans; [exact Hf|]. apply IH. now rewrite Hkeys.
Qed.

(** C4 (amended). In every state the volume reaches after construction,
    through any sequence of [Read] and [CheckIntegrity] calls with any
    arguments: a cached offset other than [UINT64_MAX] is the disc offset
    [offset + 0x20000 + k * 0x8000] of a cluster of a partition of the map,
    the reader delivers that cluster, and the cache buffer is the AES-CBC
    decryption of its data region (IV at [0x3D0], [0x7C00] bytes from
    [0x400]) with the key of that partition. The partition is the one whose
    call filled the cache: a [Read] or a [CheckIntegrity] on a partition of
    the map either leaves the cache as it is or leaves in it a cluster of
    that partition decrypted with that partition's key. *)
Theorem cache_holds_decrypted_cluster (v : VolumeWii) :
  reachable v ->
  (m_last_decrypted_block v <> UINT64_MAX ->
   exists (p : Partition) (aes : aes_context),
     m_partition_keys v !! offset p = Some aes /\ holds_cluster_of aes p v) /\
  (forall (o n : Z) (p : Partition) (aes : aes_context),
     m_partition_keys v !! offset p = Some aes ->
     cache_kept v (snd (Read v o n p)) \/
     holds_cluster_of aes p (snd (Read v o n p))) /\
  (forall (stale : Z) (p : Partition) (aes : aes_context),
     m_partition_keys v !! offset p = Some aes ->
     cache_kept v (snd (CheckIntegrity stale v p)) \/
     holds_cluster_of aes p (snd (CheckIntegrity stale v p))).
Proof.
  intros Hr. split; [|split].
  - intros Hne.
    destruct (reachable_cache_invariant v Hr Hne) as (p & aes & o & cl & Hk & Hl & Hcl & Hd).
    exists p, aes. split; [exact Hk|]. exact (holds_cluster_of_intro aes p v o cl Hl Hcl Hd).
  - intros o n p aes Hk. now apply Read_fills.
  - intros stale p aes Hk. unfold CheckIntegrity. rewrite Hk.
    now apply CheckIntegrity_loop_fills.
Qed.

End VolumeFacts.

(** * The volume on concrete images *)

(** Equalities between whole clusters are settled by evaluating the
    decision procedure, which keeps the clusters out of the proof. *)
Lemma bytes_equal (a b : list byte) : bool_decide (a = b) = true -> a = b.
Proof. apply bool_decide_eq_true_1. Qed.

Lemma bytes_differ (a b : list byte) : bool_decide (a = b) = false -> a <> b.
Proof. apply bool_decide_eq_false_1. Qed.

Lemma delivered_equal (a b : option (list byte)) : bool_decide (a = b) = true -> a = b.
Proof. apply bool_decide_eq_true_1. Qed.

(** ** The raw-offset helper near the end of the [u64] range *)

(** C6, as stated, fails: for the partition at offset 0 and the logical
    offset [(2^49 - 1) * 0x7C00] the 64-bit sum wraps, and the raw offset
    [0x18000] is below [offset + 0x20000]. *)
Lemma raw_offset_wraps_below_data :
  Partition_eqb (MkPartition 0) (PARTITION_NONE (VolumeDecl := Fixture.none_decl)) = false /\
  u64_range ((2 ^ 49 - 1) * 0x7C00) /\
  PartitionOffsetToRawOffset (VD := Fixture.none_decl) ((2 ^ 49 - 1) * 0x7C00) (MkPartition 0)
    = 0x18000 /\
  ~ (PartitionOffsetToRawOffset (VD := Fixture.none_decl) ((2 ^ 49 - 1) * 0x7C00)
       (MkPartition 0) >= offset (MkPartition 0) + 0x20000).
Proof.
  split; [reflexivity|]. split; [unfold u64_range; lia|].
  assert (PartitionOffsetToRawOffset (VD := Fixture.none_decl) ((2 ^ 49 - 1) * 0x7C00)
            (MkPartition 0) = 0x18000) as H by (vm_compute; reflexivity).
  split; [exact H|]. rewrite H. simpl. lia.
Qed.

Lemma PartitionOffsetToRawOffset_geometry_witness :
  PartitionOffsetToRawOffset (VD := Fixture.none_decl) 0x7C05
    (PARTITION_NONE (VolumeDecl := Fixture.none_decl)) = 0x7C05 /\
  PartitionOffsetToRawOffset (VD := Fixture.none_decl) 0x7C05 Fixture.P1 >= 0x50000 + 0x20000 /\
  PartitionOffsetToRawOffset (VD := Fixture.none_decl) 0x7C05 Fixture.P1
    - (0x50000 + 0x20000) = 0x8005.
Proof.
  destruct (PartitionOffsetToRawOffset_geometry (VD := Fixture.none_decl) 0x7C05 Fixture.P1)
    as [Hnone Hp]; [lia|simpl; lia|].
  split; [exact Hnone|].
  destruct (Hp eq_refl) as [_ Hfit].
  destruct Hfit as [Hge Hdelta]; [vm_compute; reflexivity|].
  split; [exact Hge|exact Hdelta].
Defined.

(** ** A disc with two overlapping partitions *)

Module OverlappingDisc.
Import Fixture.
#[local] Existing Instance none_decl.
#[local] Existing Instance es.
#[local] Existing Instance crypto.
#[local] Existing Instance overlapping_reader.

Lemma disc_partitions :
  GetPartitions overlapping_disc = [P1; P2] /\ GetGamePartition overlapping_disc = P1 /\
  m_last_decrypted_block overlapping_disc = UINT64_MAX.
Proof. vm_compute. auto. Qed.

(** C1, as stated, fails: after a read of the first partition has cached
    the cluster at [0x78000], which is also cluster 0 of the second
    partition, a read of the second partition is served from the cache, with
    the bytes decrypted under the first partition's key, and differs from
    the fetch-and-decrypt description under the second partition's key. *)
Lemma cached_cluster_of_other_partition :
  reachable after_P1_read /\
  Partition_eqb P2 PARTITION_NONE = false /\
  m_partition_keys after_P1_read !! offset P2 = Some K2 /\
  fst (Read after_P1_read 0 4 P2) = (true, byte_of_Z <$> [183; 184; 185; 186]) /\
  read_by_clusters (Z.to_nat 4) K2 P2 0 4 = Some (true, byte_of_Z <$> [184; 185; 186; 187]) /\
  read_by_clusters (Z.to_nat 4) K2 P2 0 4 <> Some (fst (Read after_P1_read 0 4 P2)).
Proof.
  split; [apply reachable_Read, reachable_ctor|]. split; [reflexivity|].
  split; [vm_compute; reflexivity|].
  assert (fst (Read after_P1_read 0 4 P2) = (true, byte_of_Z <$> [183; 184; 185; 186])) as H1
    by (vm_compute; reflexivity).
  split; [exact H1|]. rewrite H1.
  split; [vm_compute; reflexivity|].
  intros H. vm_compute in H. discriminate H.
Qed.

(** C4, as stated, fails: in the state reached by that read of the first
    partition the cached offset [0x78000] is the offset of cluster 0 of the
    second partition, a partition of the map with the key [K2], and the
    reader delivers the cluster; but the cache buffer is not the decryption
    of its data region with [K2]: it was filled by the read of the first
    partition, with [K1]. *)
Lemma cache_decrypted_with_other_key :
  reachable after_P1_read /\
  m_last_decrypted_block after_P1_read <> UINT64_MAX /\
  m_partition_keys after_P1_read !! offset P2 = Some K2 /\
  m_last_decrypted_block after_P1_read = (offset P2 + 0x20000 + 0 / 0x7C00 * 0x8000) mod 2 ^ 64 /\
  exists cluster,
    blob_Read (m_last_decrypted_block after_P1_read) 0x8000 = Some cluster /\
    m_last_decrypted_block_data after_P1_read <>
      mbedtls_aes_crypt_cbc_dec K2
        (take 16 (drop (Z.to_nat 0x3D0) cluster))
        (take (Z.to_nat 0x7C00) (drop (Z.to_nat 0x400) cluster)) /\
    m_last_decrypted_block_data after_P1_read =
      mbedtls_aes_crypt_cbc_dec K1
        (take 16 (drop (Z.to_nat 0x3D0) cluster))
        (take (Z.to_nat 0x7C00) (drop (Z.to_nat 0x400) cluster)).
Proof.
  split; [apply reachable_Read, reachable_ctor|].
  split; [vm_compute; discriminate|].
  split; [vm_compute; reflexivity|].
  split; [vm_compute; reflexivity|].
  exists (image_byte overlapping <$> counting (Z.to_nat 0x8000) 0x78000).
  split; [apply delivered_equal; vm_compute; reflexivity|].
  split; [apply bytes_differ|apply bytes_equal]; vm_compute; reflexivity.
Qed.

Lemma keys_of_disc :
  m_partition_keys overlapping_disc !! offset P1 = Some K1 /\
  m_partition_keys overlapping_disc !! offset P2 = Some K2.
Proof. vm_compute. auto. Qed.

(** The cache holds cluster 1 of the first partition, where the read
    starts; the read goes on into cluster 2. *)
Lemma Read_cluster_by_cluster_witness :
  m_last_decrypted_block after_P1_read = block_offset_on_disc P1 0xF7FE /\
  m_last_decrypted_block (snd (Read after_P1_read 0xF7FE 4 P1)) = 0x80000 /\
  Read after_P1_read 0x7BFE 4 PARTITION_NONE =
    match blob_Read 0x7BFE 4 with
    | Some bs => (true, bs, after_P1_read)
    | None => (false, [], after_P1_read)
    end /\
  read_by_clusters (Z.to_nat 4) K1 P1 0xF7FE 4 = Some (fst (Read after_P1_read 0xF7FE 4 P1)) /\
  Read after_P1_read 0x10 4 P2 =
    (true,
     take (Z.to_nat 4) (drop (Z.to_nat (0x10 mod 0x7C00)) (m_last_decrypted_block_data after_P1_read)),
     after_P1_read).
Proof.
  destruct Read_cluster_by_cluster as (Hnone & Hp & Hhit).
  split; [vm_compute; reflexivity|]. split; [vm_compute; reflexivity|].
  split; [apply Hnone|]. split.
  - apply Hp.
    + reflexivity.
    + vm_compute. reflexivity.
    + intros _ _.
      exists (image_byte overlapping <$> counting (Z.to_nat 0x8000) 0x78000).
      split; [apply delivered_equal|apply bytes_equal]; vm_compute; reflexivity.
  - apply (Hhit after_P1_read K2 P2 0x10 4).
    + reflexivity.
    + vm_compute. reflexivity.
    + vm_compute. reflexivity.
    + lia.
    + vm_compute. discriminate.
Defined.

Lemma cache_holds_decrypted_cluster_witness :
  m_last_decrypted_block after_P1_read = 0x78000 /\
  (exists (p : Partition) (aes : aes_context),
     m_partition_keys after_P1_read !! offset p = Some aes /\
     holds_cluster_of aes p after_P1_read) /\
  (cache_kept after_P1_read (snd (Read after_P1_read 0xF7FE 4 P2)) \/
   holds_cluster_of K2 P2 (snd (Read after_P1_read 0xF7FE 4 P2))) /\
  (cache_kept after_P1_read (snd (CheckIntegrity 0 after_P1_read P2)) \/
   holds_cluster_of K2 P2 (snd (CheckIntegrity 0 after_P1_read P2))).
Proof.
  assert (m_last_decrypted_block after_P1_read = 0x78000) as Hlast by (vm_compute; reflexivity).
  assert (m_partition_keys after_P1_read !! offset P2 = Some K2) as Hk
    by (vm_compute; reflexivity).
  destruct (cache_holds_decrypted_cluster after_P1_read) as (Hinv & Hread & Hcheck).
  { apply reachable_Read, reachable_ctor. }
  split; [exact Hlast|]. split; [|split].
  - apply Hinv. rewrite Hlast. vm_compute. discriminate.
  - apply Hread, Hk.
  - apply Hcheck, Hk.
Defined.

Lemma Read_split_witness :
  exists b1 v1 b2,
    Read overlapping_disc 0x7BFE 1 P1 = (true, b1, v1) /\
    Read v1 (0x7BFE + 1) (4 - 1) P1 = (true, b2, snd (Read overlapping_disc 0x7BFE 4 P1)) /\
    snd (fst (Read overlapping_disc 0x7BFE 4 P1)) = b1 ++ b2.
Proof.
  eapply (Read_split overlapping_disc K1 P1 0x7BFE 4 1).
  - reflexivity.
  - vm_compute. reflexivity.
  - lia.
  - lia.
  - lia.
  - apply triple_eta. vm_compute. reflexivity.
Defined.

(** The second partition declares clusters up to [0x88000], where the image
    ends: its cluster 2 cannot be fetched. *)
Lemma Read_failure_not_atomic_witness :
  snd (fst (Read overlapping_disc 0xF7FE 4 P2)) = byte_of_Z <$> [184; 185] /\
  m_last_decrypted_block (snd (Read overlapping_disc 0xF7FE 4 P2)) = 0x80000 /\
  exists k,
    0 <= k < 4 /\
    Read overlapping_disc 0xF7FE k P2 =
      (true, snd (fst (Read overlapping_disc 0xF7FE 4 P2)), snd (Read overlapping_disc 0xF7FE 4 P2)) /\
    blob_Read (block_offset_on_disc P2 (add64 0xF7FE k)) BLOCK_TOTAL_SIZE = None /\
    m_last_decrypted_block (snd (Read overlapping_disc 0xF7FE 4 P2))
      <> block_offset_on_disc P2 (add64 0xF7FE k) /\
    forall out,
      take (length (snd (fst (Read overlapping_disc 0xF7FE 4 P2))))
           (buffer_after out (snd (fst (Read overlapping_disc 0xF7FE 4 P2))))
      = snd (fst (Read overlapping_disc 0xF7FE 4 P2)).
Proof.
  split; [vm_compute; reflexivity|]. split; [vm_compute; reflexivity|].
  eapply (Read_failure_not_atomic overlapping_disc K2 P2 0xF7FE 4).
  - reflexivity.
  - vm_compute. reflexivity.
  - unfold u64_range. lia.
  - apply triple_eta. vm_compute. reflexivity.
Defined.

Lemma unknown_partition_rejected_witness :
  (forall o n, Read overlapping_disc o n (MkPartition 0x1000) = (false, [], overlapping_disc)) /\
  (forall stale, CheckIntegrity stale overlapping_disc (MkPartition 0x1000) = (false, overlapping_disc)) /\
  GetTicket overlapping_disc (MkPartition 0x1000) = INVALID_TICKET /\
  GetTMD overlapping_disc (MkPartition 0x1000) = INVALID_TMD /\
  TicketReader_IsValid (GetTicket overlapping_disc (MkPartition 0x1000)) = false /\
  TMDReader_IsValid (GetTMD overlapping_disc (MkPartition 0x1000)) = false /\
  GetTitleID overlapping_disc (MkPartition 0x1000) = None.
Proof.
  apply unknown_partition_rejected.
  - apply reachable_ctor.
  - reflexivity.
  - vm_compute. reflexivity.
  - reflexivity.
  - reflexivity.
Defined.

End OverlappingDisc.

(** ** A disc with one hashed cluster *)

Module IntactDisc.
Import Fixture.
#[local] Existing Instance none_decl.
#[local] Existing Instance es.
#[local] Existing Instance crypto.
#[local] Existing Instance intact_reader.

Lemma CheckIntegrity_verifies_clusters_witness :
  fst (CheckIntegrity 0 intact_disc P1) = true /\
  ~ skipped_as_padding K1 P1 0 /\
  forall c, 0 <= c < 1 -> cluster_verified intact_disc K1 P1 c.
Proof.
  assert (fst (CheckIntegrity 0 intact_disc P1) = true) as Htrue by (vm_compute; reflexivity).
  split; [exact Htrue|]. split.
  { intros H. apply cluster_skipped_padding in H. vm_compute in H. discriminate H. }
  assert (blob_Read ((offset P1 + 0x2BC) mod 2 ^ 64) 4 = Some (byte_of_Z <$> [0; 0; 0x20; 0]))
    as Hsize by (vm_compute; reflexivity).
  assert (m_partition_keys intact_disc !! offset P1 = Some K1) as Hkey
    by (vm_compute; reflexivity).
  exact (proj1 (CheckIntegrity_verifies_clusters 0 intact_disc K1 P1 _ eq_refl Hkey Hsize) Htrue).
Defined.

End IntactDisc.

Module TamperedDisc.
Import Fixture.
#[local] Existing Instance none_decl.
#[local] Existing Instance es.
#[local] Existing Instance crypto.
#[local] Existing Instance tampered_reader.

(** With four payload bytes changed, the first hash no longer matches. *)
Lemma tampered_payload_detected :
  fst (CheckIntegrity 0 tampered_disc P1) = false /\
  match cluster_metadata K1 P1 0, cluster_payload tampered_disc K1 P1 0 0 with
  | Some md, Some payload => meaningless md = false /\ hash_matches payload md 0 = false
  | _, _ => False
  end.
Proof. vm_compute. auto. Qed.

End TamperedDisc.

(** ** A disc that ends before the size word of its partition *)

Module ShortDisc.
Import Fixture.
#[local] Existing Instance none_decl.
#[local] Existing Instance es.
#[local] Existing Instance crypto.
#[local] Existing Instance short_reader.

(** C2. What [CheckIntegrity] does when the read of the size word fails:
    the partition at [0x50000] is in the map, the four bytes at [0x502BC]
    cannot be read, and the verdict follows the value the uninitialised local
    [partSizeDiv4] happens to hold: with 0 in it no cluster is walked and the
    check succeeds, with [0x200000] one cluster is walked, its metadata
    cannot be read, and the check fails. The result of that read is the only
    one the function does not test. *)
Lemma CheckIntegrity_unchecked_size_read :
  GetPartitions short_disc = [P1] /\
  m_partition_keys short_disc !! offset P1 = Some K1 /\
  blob_Read (add64 (offset P1) 0x2BC) 4 = None /\
  clusters_walked 0 P1 = 0 /\
  fst (CheckIntegrity 0 short_disc P1) = true /\
  clusters_walked 0x200000 P1 = 1 /\
  blob_Read (cluster_offset P1 0) 0x400 = None /\
  fst (CheckIntegrity 0x200000 short_disc P1) = false.
Proof.
  split; [vm_compute; reflexivity|]. split; [vm_compute; reflexivity|].
  split; [vm_compute; reflexivity|]. split; [vm_compute; reflexivity|].
  split; [vm_compute; reflexivity|]. split; [vm_compute; reflexivity|].
  split; vm_compute; reflexivity.
Qed.

End ShortDisc.

(** ** A disc whose first type-0 entry is not stored *)

Module BadFirstGameDisc.
Import Fixture.
#[local] Existing Instance none_decl.
#[local] Existing Instance es.
#[local] Existing Instance crypto.
#[local] Existing Instance bad_first_game_reader.

(** C3, as stated, fails: both entries have type 0 and the first one, at
    [0x50000], is rejected for its TMD size; the constructor makes the second
    one, at [0x58000], the game partition, not the first entry of type 0 it
    met. *)
Lemma game_partition_not_first_type0 :
  scanned_entries = [(0x40020, 0); (0x40020, 1)] /\
  first_type0_partition = P1 /\
  GetGamePartition (fst VolumeWii_ctor) = P2 /\
  GetPartitions (fst VolumeWii_ctor) = [P2] /\
  GetGamePartition (fst VolumeWii_ctor) <> first_type0_partition.
Proof.
  assert (first_type0_partition = P1) as H1 by (vm_compute; reflexivity).
  assert (GetGamePartition (fst VolumeWii_ctor) = P2) as H2 by (vm_compute; reflexivity).
  split; [vm_compute; reflexivity|]. split; [exact H1|]. split; [exact H2|].
  split; [vm_compute; reflexivity|].
  rewrite H1, H2. discriminate.
Qed.

Lemma game_partition_first_stored_type0_witness :
  GetGamePartition (fst VolumeWii_ctor) = first_stored_type0_partition /\
  (forall es v alerts,
     Partition_eqb (m_game_partition v) PARTITION_NONE = false ->
     m_game_partition (fst (foldl scan_entry (v, alerts) es)) = m_game_partition v).
Proof.
  apply game_partition_first_stored_type0. simpl. lia.
Defined.

Lemma construction_skips_failed_partitions_witness :
  fst (scan_entry (initial_volume, []) (0x40020, 0)) = initial_volume /\
  snd (scan_entry (initial_volume, []) (0x40020, 0)) = [Invalid_TMD_size] /\
  snd VolumeWii_ctor = [Invalid_TMD_size].
Proof.
  destruct construction_skips_failed_partitions as (Hskip & _ & Halerts).
  destruct (Hskip (initial_volume, []) (0x40020, 0)) as [Hv Ha].
  - vm_compute. reflexivity.
  - split; [exact Hv|]. split.
    + rewrite Ha. vm_compute. reflexivity.
    + rewrite Halerts. vm_compute. reflexivity.
Defined.

End BadFirstGameDisc.

(** ** A disc readable over the whole [u64] range *)

Module UnboundedDisc.
Import Fixture.
#[local] Existing Instance none_decl.
#[local] Existing Instance es.
#[local] Existing Instance crypto.
#[local] Existing Instance unbounded_reader.

(** C5, as stated, fails: five bytes read at offset [2^64 - 1] all come from
    the cluster that holds that offset, while after a split at [k = 2] the
    second read starts at the wrapped offset [1], in cluster 0. *)
Lemma split_across_offset_wrap :
  m_partition_keys unbounded_disc !! offset P1 = Some K1 /\
  add64 (2 ^ 64 - 1) 2 = 1 /\
  fst (Read unbounded_disc (2 ^ 64 - 1) 5 P1) = (true, byte_of_Z <$> [212; 213; 214; 215; 216]) /\
  fst (Read unbounded_disc (2 ^ 64 - 1) 2 P1) = (true, byte_of_Z <$> [212; 213]) /\
  fst (Read (snd (Read unbounded_disc (2 ^ 64 - 1) 2 P1)) (add64 (2 ^ 64 - 1) 2) (5 - 2) P1)
    = (true, byte_of_Z <$> [182; 183; 184]) /\
  snd (fst (Read unbounded_disc (2 ^ 64 - 1) 5 P1)) <>
    snd (fst (Read unbounded_disc (2 ^ 64 - 1) 2 P1))
    ++ snd (fst (Read (snd (Read unbounded_disc (2 ^ 64 - 1) 2 P1)) (add64 (2 ^ 64 - 1) 2) (5 - 2) P1)).
Proof.
  assert (fst (Read unbounded_disc (2 ^ 64 - 1) 5 P1) = (true, byte_of_Z <$> [212; 213; 214; 215; 216]))
    as H1 by (vm_compute; reflexivity).
  assert (fst (Read unbounded_disc (2 ^ 64 - 1) 2 P1) = (true, byte_of_Z <$> [212; 213]))
    as H2 by (vm_compute; reflexivity).
  assert (fst (Read (snd (Read unbounded_disc (2 ^ 64 - 1) 2 P1)) (add64 (2 ^ 64 - 1) 2) (5 - 2) P1)
          = (true, byte_of_Z <$> [182; 183; 184])) as H3 by (vm_compute; reflexivity).
  split; [vm_compute; reflexivity|]. split; [reflexivity|].
  split; [exact H1|]. split; [exact H2|]. split; [exact H3|].
  rewrite H1, H2, H3. vm_compute. discriminate.
Qed.

End UnboundedDisc.

(** ** An image too short for the partition magic *)

Module TruncatedDisc.
Import Fixture.
#[local] Existing Instance none_decl.
#[local] Existing Instance es.
#[local] Existing Instance crypto.
#[local] Existing Instance truncated_reader.

Lemma ctor_magic_unreadable_witness :
  VolumeWii_ctor = @VolumeWii_ctor none_decl es gamecube_reader crypto /\
  VolumeWii_ctor = (initial_volume, []) /\
  GetPartitions (fst VolumeWii_ctor) = [] /\
  GetGamePartition (fst VolumeWii_ctor) = PARTITION_NONE /\
  (forall o n,
     Read (fst VolumeWii_ctor) o n PARTITION_NONE =
       match blob_Read o n with
       | Some bs => (true, bs, fst VolumeWii_ctor)
       | None => (false, [], fst VolumeWii_ctor)
       end) /\
  (forall o n p, Partition_eqb p PARTITION_NONE = false ->
     Read (fst VolumeWii_ctor) o n p = (false, [], fst VolumeWii_ctor)).
Proof.
  apply (ctor_magic_unreadable (blob_Read (BlobReader := gamecube_reader)) 1).
  - vm_compute. reflexivity.
  - vm_compute. reflexivity.
  - discriminate.
Defined.

End TruncatedDisc.

(** * Further properties of the volume *)

Section PartitionRecords.
Context `{VD : VolumeDecl} `{ES : ESFormats} `{BR : BlobReader} `{MB : Mbedtls}
        `{VB : VolumeBase}.

Lemma reachable_same_partitions (v : VolumeWii) :
  reachable v -> same_partitions (fst VolumeWii_ctor) v.
Proof.
  induction 1 as [|v o n p Hr IH|stale v p Hr IH].
  - apply same_partitions_refl.
  - eapply same_partitions_trans; [exact IH|].
    apply Read_invariant, reachable_cache_invariant, Hr.
  - eapply same_partitions_trans; [exact IH|].
    apply CheckIntegrity_invariant, reachable_cache_invariant, Hr.
Qed.

Lemma check_entry_loaded (e : Z * Z) (ld : Loaded) :
  check_entry e = inr ld ->
  exists tb size addr mb,
    blob_Read (ld_offset ld) sizeof_Ticket = Some tb /\
    ld_ticket ld = MkTicketReader tb /\
    TicketReader_IsValid (MkTicketReader tb) = true /\
    ld_key ld = TicketReader_GetTitleKey (MkTicketReader tb) /\
    Z.of_nat (length (ld_key ld)) = 16 /\
    ReadSwapped_u32 (add64 (ld_offset ld) 0x2a4) = Some size /\
    ReadSwapped_u32 (add64 (ld_offset ld) 0x2a8) = Some addr /\
    IsValidTMDSize size = true /\
    blob_Read (add64 (ld_offset ld) (shl2_32 addr)) size = Some mb /\
    ld_tmd ld = MkTMDReader mb.
Proof.
  destruct e as [pto i]. unfold check_entry.
  destruct (ReadSwapped_u32 (add64 pto (mul32 i 8))) as [raw|]; [|discriminate].
  destruct (blob_Read (shl2_64 raw) sizeof_Ticket) as [tb|] eqn:Etb; [|discriminate].
  destruct (TicketReader_IsValid (MkTicketReader tb)) eqn:Evalid; [|discriminate].
  cbn [negb].
  destruct (ReadSwapped_u32 (add64 (shl2_64 raw) 0x2a4)) as [size|] eqn:Esize; [|discriminate].
  destruct (ReadSwapped_u32 (add64 (shl2_64 raw) 0x2a8)) as [addr|] eqn:Eaddr; [|discriminate].
  destruct (IsValidTMDSize size) eqn:Etmd; [|discriminate]. cbn [negb].
  destruct (blob_Read (add64 (shl2_64 raw) (shl2_32 addr)) size) as [mb|] eqn:Emb;
    [|discriminate].
  destruct (Z.eqb_spec (Z.of_nat (length (TicketReader_GetTitleKey (MkTicketReader tb)))) 16)
    as [Hlen|Hlen]; [|discriminate].
  cbn [negb]. intros [= <-]. cbn [ld_offset ld_ticket ld_key ld_tmd].
  exists tb, size, addr, mb. repeat split; assumption.
Qed.

Lemma store_loaded_consistent (v : VolumeWii) (e : Z * Z) (ld : Loaded) (g : bool) :
  check_entry e = inr ld ->
  records_consistent v -> records_consistent (store_loaded v ld g).
Proof.
  intros He Hv k Hk.
  destruct (decide (ld_offset ld = k)) as [<-|Hne].
  - destruct (check_entry_offset e ld He) as [_ Hrange].
    split; [eapply check_entry_aligned, He|]. split; [exact Hrange|].
    destruct (check_entry_loaded e ld He)
      as (tb & size & addr & mb & Htb & Ht & Hval & Hkey & Hlen & Hs & Ha & Htmd & Hmb & Hm).
    exists tb, size, addr, mb. unfold store_loaded.
    cbn [m_partition_keys m_partition_tickets m_partition_tmds].
    rewrite !lookup_insert_eq, Ht, Hm, Hkey. rewrite Hkey in Hlen.
    repeat split; assumption.
  - unfold store_loaded in Hk. cbn in Hk. rewrite lookup_insert_ne in Hk by exact Hne.
    destruct (Hv k Hk) as (Hal & Hr & tb & size & addr & mb & H).
    split; [exact Hal|]. split; [exact Hr|].
    exists tb, size, addr, mb. unfold store_loaded. cbn.
    rewrite !lookup_insert_ne by exact Hne. exact H.
Qed.

Lemma store_loaded_game_known (v : VolumeWii) (ld : Loaded) (g : bool) :
  game_partition_known v -> game_partition_known (store_loaded v ld g).
Proof.
  intros Hv. unfold game_partition_known, store_loaded. cbn.
  destruct g.
  - right. cbn. rewrite lookup_insert_eq. eauto.
  - destruct Hv as [Hn|Hs]; [now left|right].
    destruct (decide (ld_offset ld = offset (m_game_partition v))) as [->|Hne].
    + rewrite lookup_insert_eq. eauto.
    + now rewrite lookup_insert_ne.
Qed.

Lemma scan_invariants (es : list (Z * Z)) (st : VolumeWii * list Alert) :
  records_consistent (fst st) -> game_partition_known (fst st) ->
  records_consistent (fst (foldl scan_entry st es)) /\
  game_partition_known (fst (foldl scan_entry st es)).
Proof.
  revert st. induction es as [|e es IH]; intros st Hr Hg; [auto|].
  cbn [foldl]. apply IH; rewrite scan_entry_check;
    destruct (check_entry e) as [err|ld] eqn:He; cbn [fst]; auto.
  - eapply store_loaded_consistent; eauto.
  - now apply store_loaded_game_known.
Qed.

Lemma reachable_records (v : VolumeWii) :
  reachable v -> records_consistent v /\ game_partition_known v.
Proof.
  intros Hr.
  destruct (reachable_same_partitions v Hr) as (Hk & Ht & Hm & Hg).
  destruct (scan_invariants scanned_entries (initial_volume, [])) as [Hrec Hgame].
  - intros k [x Hx]. cbn in Hx. now rewrite lookup_empty in Hx.
  - now left.
  - rewrite <- ctor_scanned_entries in Hrec, Hgame. split.
    + intros k Hsome. rewrite Hk in Hsome.
      destruct (Hrec k Hsome) as (Hal & Hrange & tb & size & addr & mb & H).
      split; [exact Hal|]. split; [exact Hrange|].
      exists tb, size, addr, mb. rewrite Hk, Ht, Hm. exact H.
    + unfold game_partition_known. rewrite Hg, Hk. exact Hgame.
Qed.

Lemma elem_of_GetPartitions (v : VolumeWii) (p : Partition) :
  p ∈ GetPartitions v <-> is_Some (m_partition_keys v !! offset p).
Proof.
  unfold GetPartitions. rewrite list_elem_of_fmap. split.
  - intros (k & -> & Hk). cbn.
    rewrite merge_sort_Permutation in Hk. now apply elem_of_elements, elem_of_dom in Hk.
  - intros Hs. exists (offset p). split; [now destruct p|].
    rewrite merge_sort_Permutation. now apply elem_of_elements, elem_of_dom.
Qed.

(** X1. In every state the volume reaches, the game partition is
    [PARTITION_NONE] or one of the partitions [GetPartitions] lists. *)
Theorem game_partition_is_listed (v : VolumeWii) :
  reachable v ->
  GetGamePartition v = PARTITION_NONE \/ GetGamePartition v ∈ GetPartitions v.
Proof.
  intros Hr. destruct (reachable_records v Hr) as [_ [Hn|Hs]]; [now left|right].
  now apply elem_of_GetPartitions.
Qed.

Lemma scan_keys (es : list (Z * Z)) (st : VolumeWii * list Alert) (k : Z) :
  is_Some (m_partition_keys (fst (foldl scan_entry st es)) !! k) <->
  is_Some (m_partition_keys (fst st) !! k) \/
  exists e ld, e ∈ es /\ check_entry e = inr ld /\ ld_offset ld = k.
Proof.
  revert st. induction es as [|e es IH]; intros st.
  - cbn. split; [auto|]. intros [H|(e & ld & He & _)]; [exact H|]. now apply elem_of_nil in He.
  - cbn [foldl]. rewrite IH, scan_entry_check.
    destruct (check_entry e) as [err|ld] eqn:He; cbn [fst].
    + split.
      * intros [H|(e' & ld & Hin & Hc & Hk)]; [now left|right].
        exists e', ld. split; [now apply elem_of_cons; right|auto].
      * intros [H|(e' & ld & Hin & Hc & Hk)]; [now left|right].
        apply elem_of_cons in Hin as [->|Hin]; [congruence|]. eauto.
    + unfold store_loaded at 1. cbn [m_partition_keys]. split.
      * intros [H|(e' & ld' & Hin & Hc & Hk)].
        -- destruct (decide (ld_offset ld = k)) as [Heq|Hne].
           ++ right. exists e, ld. split; [apply elem_of_cons; now left|auto].
           ++ rewrite lookup_insert_ne in H by exact Hne. now left.
        -- right. exists e', ld'. split; [now apply elem_of_cons; right|auto].
      * intros [H|(e' & ld' & Hin & Hc & Hk)].
        -- left. destruct (decide (ld_offset ld = k)) as [->|Hne].
           ++ rewrite lookup_insert_eq. eauto.
           ++ now rewrite lookup_insert_ne.
        -- apply elem_of_cons in Hin as [->|Hin].
           ++ left. rewrite He in Hc. injection Hc as <-. rewrite Hk, lookup_insert_eq. eauto.
           ++ right. eauto.
Qed.

Lemma sorted_le_NoDup_lt (l : list Z) :
  StronglySorted Z.le l -> NoDup l -> StronglySorted Z.lt l.
Proof.
  induction 1 as [|x l Hs IH Hall]; intros Hnd; [constructor|].
  apply NoDup_cons in Hnd as [Hx Hnd]. constructor; [now apply IH|].
  rewrite Forall_forall in Hall |- *. intros y Hy.
  specialize (Hall y Hy). assert (x <> y) by (intros ->; contradiction). lia.
Qed.

Lemma GetPartitions_offsets (v : VolumeWii) :
  offset <$> GetPartitions v = merge_sort Z.le (elements (dom (m_partition_keys v))).
Proof.
  unfold GetPartitions. rewrite <- list_fmap_compose.
  generalize (merge_sort Z.le (elements (dom (m_partition_keys v)))).
  intros l. induction l as [|x l IH]; [reflexivity|]. cbn. now rewrite IH.
Qed.

(** X2. The partitions [GetPartitions] lists after construction are exactly
    the offsets of the table entries that passed every check, each once, in
    strictly ascending order of offset. *)
Theorem GetPartitions_lists_stored_entries :
  (forall p,
     p ∈ GetPartitions (fst VolumeWii_ctor) <->
     exists e ld, e ∈ scanned_entries /\ check_entry e = inr ld /\ ld_offset ld = offset p) /\
  (forall v, StronglySorted Z.lt (offset <$> GetPartitions v)).
Proof.
  split.
  - intros p. rewrite elem_of_GetPartitions, ctor_scanned_entries, scan_keys.
    split; [|auto]. intros [[x Hx]|H]; [|exact H].
    cbn in Hx. now rewrite lookup_empty in Hx.
  - intros v. rewrite GetPartitions_offsets. apply sorted_le_NoDup_lt.
    + apply (StronglySorted_merge_sort Z.le).
    + rewrite merge_sort_Permutation. apply NoDup_elements.
Qed.

(** X3. For every partition of the map, in every state the volume reaches:
    the ticket kept is the [0x2A4] bytes the reader delivers at the
    partition's offset, it is valid, its title key has 16 bytes, the key
    schedule kept is the one set from that title key, and [GetTitleID]
    returns the ticket's title id. *)
Theorem known_partition_ticket (v : VolumeWii) (p : Partition) :
  reachable v ->
  is_Some (m_partition_keys v !! offset p) ->
  exists tb,
    blob_Read (offset p) 0x2A4 = Some tb /\
    GetTicket v p = MkTicketReader tb /\
    TicketReader_IsValid (GetTicket v p) = true /\
    Z.of_nat (length (TicketReader_GetTitleKey (GetTicket v p))) = 16 /\
    m_partition_keys v !! offset p =
      Some (mbedtls_aes_setkey_dec (TicketReader_GetTitleKey (GetTicket v p))) /\
    GetTitleID v p = Some (TicketReader_GetTitleId (GetTicket v p)).
Proof.
  intros Hr Hk. destruct (reachable_records v Hr) as [Hrec _].
  destruct (Hrec _ Hk) as (_ & _ & tb & size & addr & mb & Htb & Ht & Hval & Hlen & Hkey & _).
  exists tb. unfold GetTitleID, GetTicket. rewrite Ht, Hval. cbn [negb].
  repeat split; assumption.
Qed.

(** X4. For every partition of the map, the TMD kept is the bytes the
    reader delivers at [offset + (4 * tmd_address mod 2^32)] (the shift is
    done on the 32-bit value), of the length read at [offset + 0x2a4], and
    that length satisfies [IsValidTMDSize]. *)
Theorem known_partition_tmd (v : VolumeWii) (p : Partition) :
  reachable v ->
  is_Some (m_partition_keys v !! offset p) ->
  exists size addr mb,
    ReadSwapped_u32 (add64 (offset p) 0x2a4) = Some size /\
    ReadSwapped_u32 (add64 (offset p) 0x2a8) = Some addr /\
    IsValidTMDSize size = true /\
    blob_Read (wrap64 (offset p + (4 * addr) mod 2 ^ 32)) size = Some mb /\
    GetTMD v p = MkTMDReader mb.
Proof.
  intros Hr Hk. destruct (reachable_records v Hr) as [Hrec _].
  destruct (Hrec _ Hk)
    as (_ & _ & tb & size & addr & mb & _ & _ & _ & _ & _ & Hs & Ha & Hvalid & Hmb & Hm).
  exists size, addr, mb. unfold GetTMD. rewrite Hm.
  repeat split; try assumption.
  unfold add64, shl2_32, wrap32 in Hmb. rewrite Z.shiftl_mul_pow2 in Hmb by lia.
  replace (addr * 2 ^ 2) with (4 * addr) in Hmb by lia. exact Hmb.
Qed.

(** X5. The offset of a partition of the map is a multiple of four below
    [2^34]; hence none of its cluster offsets is the value [UINT64_MAX] that
    marks the empty cache. *)
Theorem known_partition_offset (v : VolumeWii) (p : Partition) :
  reachable v ->
  is_Some (m_partition_keys v !! offset p) ->
  offset p mod 4 = 0 /\ 0 <= offset p < 2 ^ 34 /\
  forall o, block_offset_on_disc p o <> UINT64_MAX.
Proof.
  intros Hr Hk. destruct (reachable_records v Hr) as [Hrec _].
  destruct (Hrec _ Hk) as (Hal & Hrange & _).
  split; [exact Hal|]. split; [exact Hrange|].
  intros o H.
  unfold block_offset_on_disc, mul64, add64, wrap64, UINT64_MAX,
    PARTITION_DATA_OFFSET, BLOCK_TOTAL_SIZE in H.
  rewrite <- Z.add_mod in H by lia.
  pose proof (Z.div_mod (offset p + 131072 + o / BLOCK_DATA_SIZE * 32768) (2 ^ 64) ltac:(lia)).
  pose proof (Z.div_mod (offset p) 4 ltac:(lia)).
  lia.
Qed.

(** X6. When [PARTITION_NONE] is not an offset a table entry can name and
    the empty ticket view is invalid: [GetBanner] returns no pixels and a
    0 x 0 size exactly when the volume has no game partition, and otherwise
    hands the title id of the game partition's ticket to [GetWiiBanner]. *)
Theorem GetBanner_needs_game_partition (v : VolumeWii) :
  reachable v ->
  2 ^ 34 <= offset PARTITION_NONE ->
  TicketReader_IsValid INVALID_TICKET = false ->
  (GetGamePartition v = PARTITION_NONE -> GetBanner v = ([], 0, 0)) /\
  (GetGamePartition v <> PARTITION_NONE ->
   GetBanner v =
     GetWiiBanner (TicketReader_GetTitleId (GetTicket v (GetGamePartition v)))).
Proof.
  intros Hr Hnone Hinv. destruct (reachable_records v Hr) as [Hrec Hgame].
  unfold GetBanner. split.
  - intros ->. unfold GetTitleID.
    assert (GetTicket v PARTITION_NONE = INVALID_TICKET) as ->; [|now rewrite Hinv].
    unfold GetTicket.
    destruct (m_partition_tickets v !! offset PARTITION_NONE) as [t|] eqn:Et; [|reflexivity].
    exfalso.
    destruct (m_partition_keys v !! offset PARTITION_NONE) as [a|] eqn:Ek.
    + destruct (Hrec (offset PARTITION_NONE)) as (_ & Hrange & _); [rewrite Ek; eauto|lia].
    + destruct (reachable_aligned v Hr (offset PARTITION_NONE)) as [[_ H] _].
      rewrite (H Ek) in Et. discriminate.
  - intros Hne. destruct Hgame as [Hn|Hs]; [contradiction|].
    destruct (Hrec _ Hs) as (_ & _ & tb & size & addr & mb & _ & Ht & Hval & _).
    unfold GetGamePartition, GetTitleID, GetTicket in *. now rewrite Ht, Hval.
Qed.

End PartitionRecords.

Section ReadFacts.
Context `{VD : VolumeDecl} `{ES : ESFormats} `{BR : BlobReader} `{MB : Mbedtls}
        `{VB : VolumeBase}.

(** ** The cache as seen by a caller *)

(** X7. The first read after construction never serves the unfilled cache
    buffer: on any partition of the map it returns the flag and the bytes of
    the cluster-by-cluster fetch and decryption. *)
Theorem Read_after_construction (aes : aes_context) (p : Partition) (o n : Z) :
  Partition_eqb p PARTITION_NONE = false ->
  m_partition_keys (fst VolumeWii_ctor) !! offset p = Some aes ->
  serve_clusters (Z.to_nat n) aes p o n = Some (fst (Read (fst VolumeWii_ctor) o n p)).
Proof.
  intros Hp Hk.
  assert (cache_agrees aes p (fst VolumeWii_ctor)) as Ha.
  { apply cache_agrees_fresh; [|apply ctor_cache_empty].
    apply (reachable_keys_word_aligned _ reachable_ctor). rewrite Hk. eauto. }
  pose proof (Read_known (Z.to_nat n) aes _ o n p Hp Hk (le_n _)) as H.
  destruct (Read (fst VolumeWii_ctor) o n p) as [[ok bs] v'].
  apply (Read_loop_serves_clusters _ _ _ _ _ _ _ _ _ Ha H).
Qed.

(** ** Reads that stay inside the partitions *)

Lemma confined_reachable (extent : Partition -> Z) (v : VolumeWii) :
  confined extent v -> reachable v.
Proof.
  induction 1;
    [apply reachable_ctor|now apply reachable_Read|now apply reachable_CheckIntegrity].
Qed.

Lemma Read_loop_within (extent : Partition -> Z) (fuel : nat) (aes : aes_context)
    (p : Partition) (v : VolumeWii) (o n : Z) ok bs v' :
  m_partition_keys v !! offset p = Some aes ->
  extent p <= 2 ^ 64 -> 0 <= o -> o + n <= extent p ->
  cache_within extent v ->
  Read_loop fuel aes p v o n = Some (ok, bs, v') ->
  cache_within extent v'.
Proof.
  intros Hk Hext. revert v o n ok bs v' Hk.
  induction fuel as [|fuel IH]; intros v o n ok bs v' Hk Ho Hon Hw H.
  - destruct (Z.leb_spec n 0) as [Hn|Hn].
    + rewrite Read_loop_done in H by lia. now injection H as <- <- <-.
    + simpl in H. destruct (Z.leb_spec n 0); [lia|discriminate].
  - destruct (Z.leb_spec n 0) as [Hn|Hn].
    + rewrite Read_loop_done in H by lia. now injection H as <- <- <-.
    + rewrite Read_loop_step in H by lia.
      destruct (fetch_cluster _ _ _) as [v1|] eqn:Ef; [|now injection H as <- <- <-].
      destruct (fetch_cluster_Some _ _ _ _ Ef) as (Hlast & (Hkeys & _) & Hdata).
      assert (Hk1 : m_partition_keys v1 !! offset p = Some aes) by now rewrite Hkeys.
      assert (Hw1 : cache_within extent v1).
      { destruct Hdata as [->|(cl & Hcl & Hd)]; [exact Hw|].
        intros _. exists p, aes, o. split; [exact Hk1|]. split; [lia|].
        split; [exact Hlast|]. exists cl. rewrite Hlast. auto. }
      pose proof (copy_size_of_bounds o n Hn) as Hc.
      destruct (Read_loop fuel aes p v1 _ _) as [[[ok1 rest] v2]|] eqn:E; [|discriminate].
      injection H as <- <- <-.
      destruct (Z.eq_dec (copy_size_of o n) n) as [He|He].
      * rewrite Read_loop_done in E by lia. now injection E as <- <- <-.
      * assert (add64 o (copy_size_of o n) = o + copy_size_of o n) as Hadd
          by (apply wrap64_small; lia).
        rewrite Hadd in E.
        apply (IH _ _ _ _ _ _ Hk1) in E; [exact E|lia|lia|exact Hw1].
Qed.

Lemma Read_within (extent : Partition -> Z) (v : VolumeWii) (o n : Z) (p : Partition) :
  (forall q, extent q <= 2 ^ 64) -> 0 <= o -> o + n <= extent p ->
  cache_within extent v -> cache_within extent (snd (Read v o n p)).
Proof.
  intros Hext Ho Hon Hw. unfold Read.
  destruct (Partition_eqb p PARTITION_NONE); [now destruct (blob_Read o n)|].
  destruct (m_partition_keys v !! offset p) as [aes|] eqn:Hk; [|exact Hw].
  destruct (Read_loop _ _ _ _ _ _) as [[[ok bs] v']|] eqn:E; [|exact Hw].
  cbn [snd]. eapply (Read_loop_within extent); eauto.
Qed.

Lemma CheckIntegrity_loop_within (extent : Partition -> Z) (n : nat) (aes : aes_context)
    (p : Partition) (v : VolumeWii) (c : Z) :
  (forall q, extent q <= 2 ^ 64) ->
  0 <= c -> (c + Z.of_nat n) * 0x7C00 <= extent p ->
  cache_within extent v ->
  cache_within extent (snd (CheckIntegrity_loop n aes p v c)).
Proof.
  intros Hext. revert v c. induction n as [|n IH]; intros v c Hc Hn Hw;
    cbn [CheckIntegrity_loop]; [exact Hw|].
  destruct (blob_Read _ _); [|exact Hw].
  destruct (meaningless _); [apply IH; [lia|lia|exact Hw]|].
  pose proof (Hext p) as Hp.
  assert (mul64 c 0x7C00 = c * 0x7C00) as -> by (apply wrap64_small; lia).
  pose proof (Read_within extent v (c * 0x7C00) 0x7C00 p Hext ltac:(lia) ltac:(lia) Hw) as Hw1.
  destruct (Read v _ _ p) as [[ok bs] v1]. cbn [snd] in Hw1.
  destruct ok; [|exact Hw1].
  destruct (hashes_match _ _); [|exact Hw1].
  apply IH; [lia|lia|exact Hw1].
Qed.

Lemma confined_cache_within (extent : Partition -> Z) (v : VolumeWii) :
  (forall q, extent q <= 2 ^ 64) -> confined extent v -> cache_within extent v.
Proof.
  intros Hext. induction 1 as [|v o n p _ IH Ho Hn Hon|stale v p _ IH Hcl].
  - intros H. now rewrite ctor_cache_empty in H.
  - now apply Read_within.
  - unfold CheckIntegrity. destruct (m_partition_keys v !! offset p); [|exact IH].
    unfold clusters_walked in Hcl.
    assert (0 <= nClusters
              match blob_Read (add64 (offset p) 0x2BC) 4 with
              | Some bs => u32_le bs
              | None => wrap32 stale
              end) as Hpos by (unfold nClusters, wrap32; apply Z.mod_pos_bound; lia).
    apply CheckIntegrity_loop_within; [exact Hext|lia| |exact IH].
    rewrite Z2Nat.id by exact Hpos. lia.
Qed.

(** X8. Cache transparency. With [extent] giving the number of data bytes
    of each partition, on a volume where no two partitions with different
    keys have a cluster at the same disc offset inside their extents, as long
    as every [Read] and [CheckIntegrity] call made since construction stayed
    inside the extent of its partition, a read inside the extent of a
    partition of the map returns the flag and the bytes of the
    cluster-by-cluster fetch and decryption, whatever was read before. *)
Theorem Read_cache_transparent (extent : Partition -> Z) (v : VolumeWii)
    (aes : aes_context) (p : Partition) (o n : Z) :
  (forall q, extent q <= 2 ^ 64) ->
  confined extent v -> extents_disjoint extent v ->
  Partition_eqb p PARTITION_NONE = false ->
  m_partition_keys v !! offset p = Some aes ->
  0 <= o -> 0 <= n -> o + n <= extent p ->
  read_by_clusters (Z.to_nat n) aes p o n = Some (fst (Read v o n p)).
Proof.
  intros Hext Hc Hdis Hp Hk Ho Hn Hon.
  pose proof (Read_known (Z.to_nat n) aes v o n p Hp Hk (le_n _)) as H.
  destruct (Read v o n p) as [[ok bs] v'].
  rewrite <- serve_clusters_explicit.
  apply (Read_loop_first_cluster _ _ _ _ _ _ _ _ _) with (2 := H).
  intros Hn0 Hl.
  destruct (decide (m_last_decrypted_block v = UINT64_MAX)) as [Hmax|Hne].
  - assert (offset p mod 4 = 0) as Halign.
    { apply (reachable_keys_word_aligned v (confined_reachable extent v Hc)).
      rewrite Hk. eauto. }
    exact (cache_agrees_fresh aes p v Halign Hmax o Hl).
  - destruct (confined_cache_within extent v Hext Hc Hne)
      as (p' & aes' & o' & Hk' & Ho' & Hl' & Hd).
    assert (aes = aes') as <-; [|exact Hd].
    apply (Hdis p p' aes aes' o o'); auto; [lia|congruence].
Qed.

(** X9. On a partition of the map, a read of length 0 succeeds without
    touching the volume, and a read that stays inside the cached cluster
    succeeds whatever the reader would answer: it returns the bytes of the
    cache buffer from the intra-cluster offset and leaves the volume as it
    is. *)
Theorem Read_cache_hit (v : VolumeWii) (aes : aes_context) (p : Partition) (o n : Z) :
  Partition_eqb p PARTITION_NONE = false ->
  m_partition_keys v !! offset p = Some aes ->
  Read v o 0 p = (true, [], v) /\
  (m_last_decrypted_block v = block_offset_on_disc p o ->
   0 < n -> data_offset_in_block o + n <= BLOCK_DATA_SIZE ->
   Read v o n p =
     (true,
      take (Z.to_nat n) (drop (Z.to_nat (data_offset_in_block o)) (m_last_decrypted_block_data v)),
      v)).
Proof.
  intros Hp Hk. split.
  - pose proof (Read_known O aes v o 0 p Hp Hk (le_n _)) as H.
    rewrite Read_loop_done in H by lia. now injection H as <-.
  - intros Hlast Hn Hfit.
    pose proof (Read_known (S (Z.to_nat n)) aes v o n p Hp Hk ltac:(lia)) as H.
    rewrite Read_loop_step in H by lia.
    rewrite (fetch_cluster_hit _ _ _ Hlast) in H.
    assert (copy_size_of o n = n) as Hc by (unfold copy_size_of; lia).
    rewrite Hc, Read_loop_done in H by lia.
    injection H as <-. unfold chunk_of. now rewrite Hc, app_nil_r.
Qed.

(** ** Lengths *)

Lemma decrypt_block_length (aes : aes_context) (cluster : list byte) :
  cbc_keeps_length -> length cluster = Z.to_nat BLOCK_TOTAL_SIZE ->
  length (decrypt_block aes cluster) = Z.to_nat BLOCK_DATA_SIZE.
Proof.
  intros Hcbc Hlen. unfold decrypt_block. rewrite Hcbc, length_take, length_drop, Hlen.
  unfold BLOCK_TOTAL_SIZE, BLOCK_DATA_SIZE, BLOCK_HEADER_SIZE. lia.
Qed.

Lemma fetch_cluster_full (aes : aes_context) (v v1 : VolumeWii) (blk : Z) :
  reader_fills_request -> cbc_keeps_length ->
  cache_buffer_full v -> fetch_cluster aes v blk = Some v1 -> cache_buffer_full v1.
Proof.
  intros Hrd Hcbc Hv Hf.
  destruct (fetch_cluster_Some _ _ _ _ Hf) as (_ & _ & [->|(cl & Hcl & Hd)]); [exact Hv|].
  unfold cache_buffer_full. rewrite Hd. apply decrypt_block_length; [exact Hcbc|].
  apply (Hrd _ _ _ Hcl).
Qed.

Lemma Read_loop_lengths (fuel : nat) (aes : aes_context) (p : Partition) :
  reader_fills_request -> cbc_keeps_length ->
  forall (v : VolumeWii) (o n : Z) ok bs v',
    cache_buffer_full v ->
    Read_loop fuel aes p v o n = Some (ok, bs, v') ->
    cache_buffer_full v' /\
    (0 <= n -> Z.of_nat (length bs) <= n /\ (ok = true -> Z.of_nat (length bs) = n)).
Proof.
  intros Hrd Hcbc.
  induction fuel as [|fuel IH]; intros v o n ok bs v' Hv H.
  - destruct (Z.leb_spec n 0) as [Hn|Hn].
    + rewrite Read_loop_done in H by lia. injection H as <- <- <-.
      split; [exact Hv|]. cbn. lia.
    + simpl in H. destruct (Z.leb_spec n 0); [lia|discriminate].
  - destruct (Z.leb_spec n 0) as [Hn|Hn].
    + rewrite Read_loop_done in H by lia. injection H as <- <- <-.
      split; [exact Hv|]. cbn. lia.
    + rewrite Read_loop_step in H by lia.
      destruct (fetch_cluster aes v (block_offset_on_disc p o)) as [v1|] eqn:Ef.
      * pose proof (fetch_cluster_full _ _ _ _ Hrd Hcbc Hv Ef) as Hv1.
        destruct (Read_loop fuel aes p v1 _ _) as [[[ok1 rest] v2]|] eqn:E; [|discriminate].
        injection H as <- <- <-.
        destruct (IH _ _ _ _ _ _ Hv1 E) as [Hv2 Hlen].
        split; [exact Hv2|]. intros _.
        pose proof (copy_size_of_bounds o n Hn) as Hc.
        assert (0 <= data_offset_in_block o < BLOCK_DATA_SIZE) as Hoff
          by (apply Z.mod_pos_bound; reflexivity).
        assert (length (chunk_of v1 o n) = Z.to_nat (copy_size_of o n)) as Hchunk.
        { unfold chunk_of. rewrite length_take, length_drop, Hv1.
          unfold copy_size_of in *. lia. }
        rewrite length_app, Hchunk. destruct Hlen as [Hle Heq]; [lia|].
        split; [lia|]. intros Hok. specialize (Heq Hok). lia.
      * injection H as <- <- <-. split; [exact Hv|]. cbn. intros _. split; [lia|discriminate].
Qed.

Lemma Read_keeps_buffer_full (v : VolumeWii) (o n : Z) (p : Partition) :
  reader_fills_request -> cbc_keeps_length ->
  cache_buffer_full v -> cache_buffer_full (snd (Read v o n p)).
Proof.
  intros Hrd Hcbc Hv. unfold Read.
  destruct (Partition_eqb p PARTITION_NONE); [now destruct (blob_Read o n)|].
  destruct (m_partition_keys v !! offset p) as [aes|]; [|exact Hv].
  destruct (Read_loop _ _ _ _ _ _) as [[[ok bs] v']|] eqn:E; [|exact Hv].
  apply (Read_loop_lengths _ _ _ Hrd Hcbc _ _ _ _ _ _ Hv E).
Qed.

Lemma CheckIntegrity_loop_keeps_buffer_full (n : nat) (aes : aes_context) (p : Partition)
    (v : VolumeWii) (c : Z) :
  reader_fills_request -> cbc_keeps_length ->
  cache_buffer_full v -> cache_buffer_full (snd (CheckIntegrity_loop n aes p v c)).
Proof.
  intros Hrd Hcbc. revert v c. induction n as [|n IH]; intros v c Hv; [exact Hv|].
  cbn [CheckIntegrity_loop].
  destruct (blob_Read _ _); [|exact Hv].
  destruct (meaningless _); [now apply IH|].
  pose proof (Read_keeps_buffer_full v (mul64 c 0x7C00) 0x7C00 p Hrd Hcbc Hv) as Hv1.
  destruct (Read v _ _ p) as [[ok bs] v1]. cbn [snd] in Hv1.
  destruct ok; [|exact Hv1].
  destruct (hashes_match _ _); [now apply IH|exact Hv1].
Qed.

Lemma scan_keeps_cache_data (es : list (Z * Z)) (st : VolumeWii * list Alert) :
  m_last_decrypted_block_data (fst (foldl scan_entry st es))
    = m_last_decrypted_block_data (fst st).
Proof.
  revert st. induction es as [|e es IH]; intros st; [reflexivity|].
  cbn [foldl]. rewrite IH, scan_entry_check. now destruct (check_entry e).
Qed.

Lemma reachable_buffer_full (v : VolumeWii) :
  reader_fills_request -> cbc_keeps_length -> reachable v -> cache_buffer_full v.
Proof.
  intros Hrd Hcbc. induction 1 as [|v o n p Hr IH|stale v p Hr IH].
  - unfold cache_buffer_full. rewrite ctor_scanned_entries, scan_keeps_cache_data.
    cbn [fst initial_volume m_last_decrypted_block_data]. apply length_replicate.
  - now apply Read_keeps_buffer_full.
  - unfold CheckIntegrity. destruct (m_partition_keys v !! offset p); [|exact IH].
    now apply CheckIntegrity_loop_keeps_buffer_full.
Qed.

(** X10. When the reader stores exactly the bytes it is asked for and the
    cipher writes as many bytes as it is given, in every state the volume
    reaches: the cache buffer has [0x7C00] bytes, a successful read of a
    partition of the map stores exactly [n] bytes in the caller's buffer,
    and a failed one stores at most [n]. *)
Theorem Read_stores_requested_length (v : VolumeWii) (aes : aes_context) (p : Partition)
    (o n : Z) :
  reader_fills_request -> cbc_keeps_length ->
  reachable v ->
  Partition_eqb p PARTITION_NONE = false ->
  m_partition_keys v !! offset p = Some aes ->
  0 <= n ->
  length (m_last_decrypted_block_data v) = Z.to_nat 0x7C00 /\
  Z.of_nat (length (snd (fst (Read v o n p)))) <= n /\
  (fst (fst (Read v o n p)) = true -> Z.of_nat (length (snd (fst (Read v o n p)))) = n).
Proof.
  intros Hrd Hcbc Hr Hp Hk Hn.
  pose proof (reachable_buffer_full v Hrd Hcbc Hr) as Hv.
  split; [exact Hv|].
  pose proof (Read_known (Z.to_nat n) aes v o n p Hp Hk (le_n _)) as H.
  destruct (Read v o n p) as [[ok bs] v']. cbn [fst snd].
  destruct (Read_loop_lengths _ _ _ Hrd Hcbc _ _ _ _ _ _ Hv H) as [_ Hlen].
  exact (Hlen Hn).
Qed.

End ReadFacts.

Section HeaderFacts.
Context `{VD : VolumeDecl} `{ES : ESFormats} `{BR : BlobReader} `{MB : Mbedtls}
        `{VB : VolumeBase}.

(** ** The header accessors *)

Lemma take_drop_take {A} (a m N : nat) (l : list A) :
  (a + m <= N)%nat -> take m (drop a (take N l)) = take m (drop a l).
Proof.
  intros H. rewrite !take_drop_commute, take_take. do 2 f_equal. lia.
Qed.

Lemma nth_take_drop {A} (i : nat) (l : list A) (d : A) :
  nth 0 (take 1 (drop i l)) d = nth i l d.
Proof.
  revert l. induction i as [|i IH]; intros [|x l]; try reflexivity. cbn. apply IH.
Qed.

(** A read inside the first cluster is a slice of any longer successful
    read of that cluster made from the same state. *)
Lemma Read_first_cluster_slice (v v1 : VolumeWii) (aes : aes_context) (p : Partition)
    (a m N : Z) (bs : list byte) :
  Partition_eqb p PARTITION_NONE = false ->
  m_partition_keys v !! offset p = Some aes ->
  0 <= a -> 0 < m -> a + m <= N -> N <= BLOCK_DATA_SIZE ->
  Read v 0 N p = (true, bs, v1) ->
  Read v a m p = (true, take (Z.to_nat m) (drop (Z.to_nat a) bs), v1).
Proof.
  intros Hp Hk Ha Hm HN Hlim H.
  pose proof (Read_known (S (Z.to_nat N)) aes v 0 N p Hp Hk ltac:(lia)) as H0.
  rewrite H, Read_loop_step in H0 by lia.
  destruct (fetch_cluster aes v (block_offset_on_disc p 0)) as [v1'|] eqn:Ef; [|discriminate].
  assert (data_offset_in_block 0 = 0) as Hoff0 by reflexivity.
  assert (copy_size_of 0 N = N) as HcN
    by (unfold copy_size_of; rewrite Hoff0; lia).
  rewrite HcN, Read_loop_done in H0 by lia.
  injection H0 as Hbs Hv. subst v1'. unfold chunk_of in Hbs.
  rewrite HcN, Hoff0, app_nil_r in Hbs. cbn [Z.to_nat drop] in Hbs.
  destruct (same_cluster p 0 a) as [Hblk Hoffa]; [lia|unfold BLOCK_DATA_SIZE in *; lia|].
  rewrite Z.add_0_l in Hblk, Hoffa. rewrite Hoff0, Z.add_0_l in Hoffa.
  pose proof (Read_known (S (Z.to_nat m)) aes v a m p Hp Hk ltac:(lia)) as H1.
  rewrite Read_loop_step in H1 by lia. rewrite Hblk, Ef in H1.
  assert (copy_size_of a m = m) as Hcm by (unfold copy_size_of; rewrite Hoffa; lia).
  rewrite Hcm, Read_loop_done in H1 by lia.
  injection H1 as <-. unfold chunk_of. rewrite Hcm, Hoffa, app_nil_r, <- Hbs.
  rewrite take_drop_take by lia. reflexivity.
Qed.

Lemma read_string_slice (v v1 : VolumeWii) (aes : aes_context) (p : Partition)
    (a m N : Z) (bs : list byte) :
  Partition_eqb p PARTITION_NONE = false ->
  m_partition_keys v !! offset p = Some aes ->
  0 <= a -> 0 < m -> a + m <= N -> N <= BLOCK_DATA_SIZE ->
  Read v 0 N p = (true, bs, v1) ->
  read_string v a m p = (DecodeString (take (Z.to_nat m) (drop (Z.to_nat a) bs)), v1).
Proof.
  intros Hp Hk Ha Hm HN Hlim H. unfold read_string.
  now rewrite (Read_first_cluster_slice v v1 aes p a m N bs).
Qed.

(** X11. On a partition of the map, the header accessors called on one
    state all decode slices of the same decrypted header: if reading the
    first [0x2450] bytes succeeds with bytes [bs], then the game ID is
    decoded from [bs[0..6)], the maker ID from [bs[4..6)] (the last two
    characters of the game ID), the disc number is [bs[6]], the revision is
    [bs[7]], the internal name is decoded from [bs[0x20..0x80)] and the
    apploader date from [bs[0x2440..0x2450)]; each leaves the volume that
    read leaves. *)
Theorem header_fields_are_slices (v v1 : VolumeWii) (aes : aes_context) (p : Partition)
    (bs : list byte) :
  Partition_eqb p PARTITION_NONE = false ->
  m_partition_keys v !! offset p = Some aes ->
  Read v 0 0x2450 p = (true, bs, v1) ->
  GetGameID v p = (DecodeString (take 6 bs), v1) /\
  GetMakerID v p = (DecodeString (take 2 (drop 4 (take 6 bs))), v1) /\
  GetDiscNumber v p = (Some (byte_at bs 6), v1) /\
  GetRevision v p = (Some (byte_at bs 7), v1) /\
  GetInternalName v p = (DecodeString (take (Z.to_nat 0x60) (drop (Z.to_nat 0x20) bs)), v1) /\
  GetApploaderDate v p =
    (DecodeString (take (Z.to_nat 0x10) (drop (Z.to_nat 0x2440) bs)), v1).
Proof.
  intros Hp Hk H.
  assert (0x2450 <= BLOCK_DATA_SIZE) as Hlim by (unfold BLOCK_DATA_SIZE; lia).
  split; [|split; [|split; [|split; [|split]]]].
  - unfold GetGameID. now rewrite (read_string_slice v v1 aes p 0 6 0x2450 bs Hp Hk) by (exact H || exact Hlim || lia).
  - unfold GetMakerID.
    rewrite (read_string_slice v v1 aes p 4 2 0x2450 bs Hp Hk) by (exact H || exact Hlim || lia).
    change (Z.to_nat 2) with 2%nat. change (Z.to_nat 4) with 4%nat.
    now rewrite take_drop_take by lia.
  - unfold GetDiscNumber, Volume_ReadSwapped_u8.
    rewrite (Read_first_cluster_slice v v1 aes p 6 1 0x2450 bs Hp Hk) by (exact H || exact Hlim || lia).
    unfold byte_at. change (Z.to_nat 1) with 1%nat. change (Z.to_nat 6) with 6%nat.
    now rewrite nth_take_drop.
  - unfold GetRevision, Volume_ReadSwapped_u8.
    rewrite (Read_first_cluster_slice v v1 aes p 7 1 0x2450 bs Hp Hk) by (exact H || exact Hlim || lia).
    unfold byte_at. change (Z.to_nat 1) with 1%nat. change (Z.to_nat 7) with 7%nat.
    now rewrite nth_take_drop.
  - unfold GetInternalName.
    now rewrite (read_string_slice v v1 aes p 0x20 0x60 0x2450 bs Hp Hk) by (exact H || exact Hlim || lia).
  - unfold GetApploaderDate.
    now rewrite (read_string_slice v v1 aes p 0x2440 0x10 0x2450 bs Hp Hk) by (exact H || exact Hlim || lia).
Qed.

(** X12. For a descriptor that is neither [PARTITION_NONE] nor a key of
    the map, the header accessors return the empty string ([GetGameID],
    [GetMakerID], [GetInternalName], [GetApploaderDate]) or no value
    ([GetRevision], [GetDiscNumber]) and leave the volume untouched. *)
Theorem header_of_unknown_partition (v : VolumeWii) (p : Partition) :
  Partition_eqb p PARTITION_NONE = false ->
  m_partition_keys v !! offset p = None ->
  GetGameID v p = ([], v) /\ GetMakerID v p = ([], v) /\
  GetInternalName v p = ([], v) /\ GetApploaderDate v p = ([], v) /\
  GetRevision v p = (None, v) /\ GetDiscNumber v p = (None, v).
Proof.
  intros Hp Hk.
  unfold GetGameID, GetMakerID, GetInternalName, GetApploaderDate, GetRevision,
    GetDiscNumber, Volume_ReadSwapped_u8, read_string.
  rewrite !(Read_unknown v _ _ p Hp Hk). auto 10.
Qed.

(** ** The integrity check on holes *)

Lemma CheckIntegrity_loop_skipped (n : nat) (aes : aes_context) (p : Partition)
    (v : VolumeWii) (first : Z) :
  (forall c, first <= c < first + Z.of_nat n -> cluster_skipped aes p c = true) ->
  CheckIntegrity_loop n aes p v first = (true, v).
Proof.
  revert first. induction n as [|n IH]; intros first H; [reflexivity|].
  cbn [CheckIntegrity_loop].
  pose proof (H first ltac:(lia)) as Hs. unfold cluster_skipped, cluster_metadata in Hs.
  destruct (blob_Read (cluster_offset p first) 0x400) as [md|]; [|discriminate].
  cbn [fmap option_fmap option_map] in Hs. rewrite Hs. apply IH. intros c Hc. apply H. lia.
Qed.

(** X13. When every cluster the size word announces is skipped by the
    padding test (its metadata is readable and some byte of [0x26C..0x280)
    decrypts to a non-zero value), and in particular when the size word
    announces no cluster at all, [CheckIntegrity] returns true without
    reading any payload: the volume and its cache are left as they were. *)
Theorem CheckIntegrity_skips_holes (stale : Z) (v : VolumeWii) (aes : aes_context)
    (p : Partition) (bs : list byte) :
  m_partition_keys v !! offset p = Some aes ->
  blob_Read (add64 (offset p) 0x2BC) 4 = Some bs ->
  (forall c, 0 <= c < u32_be bs * 4 / 0x8000 -> cluster_skipped aes p c = true) ->
  CheckIntegrity stale v p = (true, v).
Proof.
  intros Hk Hsize Hall. unfold CheckIntegrity. rewrite Hk, Hsize, nClusters_be.
  apply CheckIntegrity_loop_skipped. intros c Hc. apply Hall.
  pose proof (u32_be_range bs).
  assert (0 <= u32_be bs * 4 / 0x8000) by (apply Z.div_pos; lia). lia.
Qed.

(** ** The raw-offset helper against the read path *)

(** X14. For a partition other than [PARTITION_NONE] and offsets whose raw
    offset does not overflow a [u64]: the raw offset of [o] lies in the
    cluster [Read] fetches for [o], at distance [o mod 0x7C00] from its start
    (so below the cluster's data region by the [0x400] bytes of its header),
    and the mapping is strictly increasing. *)
Theorem PartitionOffsetToRawOffset_in_cluster (p : Partition) (o o' : Z) :
  Partition_eqb p PARTITION_NONE = false ->
  0 <= offset p -> 0 <= o < o' ->
  offset p + 0x20000 + o' / 0x7C00 * 0x8000 + o' mod 0x7C00 < 2 ^ 64 ->
  PartitionOffsetToRawOffset o p = block_offset_on_disc p o + data_offset_in_block o /\
  block_offset_on_disc p o <= PartitionOffsetToRawOffset o p
    < block_offset_on_disc p o + BLOCK_DATA_SIZE /\
  PartitionOffsetToRawOffset o p < PartitionOffsetToRawOffset o' p.
Proof.
  intros Hp Hoff Ho Hfit.
  rewrite !(PartitionOffsetToRawOffset_wrap _ _ Hp).
  assert (block_offset_on_disc p o = wrap64 (offset p + 0x20000 + o / 0x7C00 * 0x8000)) as ->.
  { unfold block_offset_on_disc, mul64, add64, wrap64,
      PARTITION_DATA_OFFSET, BLOCK_DATA_SIZE, BLOCK_TOTAL_SIZE.
    now rewrite <- Z.add_mod by lia. }
  unfold data_offset_in_block, BLOCK_DATA_SIZE.
  pose proof (Z.div_mod o 0x7C00 ltac:(lia)) as Hdo.
  pose proof (Z.div_mod o' 0x7C00 ltac:(lia)) as Hdo'.
  pose proof (Z.mod_pos_bound o 0x7C00 ltac:(lia)) as Hr.
  pose proof (Z.mod_pos_bound o' 0x7C00 ltac:(lia)) as Hr'.
  assert (0 <= o / 0x7C00) as Hq by (apply Z.div_pos; lia).
  assert (o / 0x7C00 <= o' / 0x7C00) as Hqq by (apply Z.div_le_mono; lia).
  rewrite !wrap64_small by lia. lia.
Qed.

End HeaderFacts.

(** * Properties of [UnescapeFileName] *)

Section UnescapeFacts.
Import NandPaths.
Context `{SU : StringUtil}.

Lemma is_underscore_true (c : byte) : is_underscore c = true <-> c = underscore.
Proof. unfold is_underscore. apply bool_decide_eq_true. Qed.

Lemma find_uu_shift (s : list byte) (base : nat) :
  find_uu s (S base) = S <$> find_uu s base.
Proof.
  revert base. induction s as [|a t IH]; intros base; [reflexivity|].
  cbn [find_uu]. destruct t as [|b t']; [reflexivity|].
  destruct (is_underscore a && is_underscore b); [reflexivity|]. apply IH.
Qed.

Lemma find_uu_Some (s : list byte) (base found : nat) :
  find_uu s base = Some found ->
  (base <= found)%nat /\ (found + 2 <= base + length s)%nat /\
  s !! (found - base)%nat = Some underscore /\
  s !! S (found - base)%nat = Some underscore.
Proof.
  revert base. induction s as [|a t IH]; intros base; [discriminate|].
  cbn [find_uu]. destruct t as [|b t']; [discriminate|].
  destruct (is_underscore a && is_underscore b) eqn:E.
  - intros [= <-]. apply andb_true_iff in E as [Ha Hb].
    apply is_underscore_true in Ha, Hb. subst.
    rewrite Nat.sub_diag. cbn. repeat split; lia.
  - intros H. destruct (IH _ H) as (Hle & Hlen & H1 & H2).
    replace (found - base)%nat with (S (found - S base)) by lia.
    cbn [length] in *. repeat split; try lia; assumption.
Qed.

Lemma string_find_uu_Some (result : list byte) (pos found : nat) :
  string_find_uu result pos = Some found ->
  (pos <= found)%nat /\ (found + 2 <= length result)%nat /\
  result !! found = Some underscore /\ result !! S found = Some underscore.
Proof.
  unfold string_find_uu. intros H.
  destruct (find_uu_Some _ _ _ H) as (Hle & Hlen & H1 & H2).
  rewrite length_drop in Hlen. rewrite lookup_drop in H1, H2.
  replace (pos + (found - pos))%nat with found in H1 by lia.
  replace (pos + S (found - pos))%nat with (S found) in H2 by lia.
  repeat split; try lia; assumption.
Qed.

Lemma unescape_at_length (result : list byte) (pos : nat) :
  (length (unescape_at result pos) <= length result)%nat.
Proof.
  unfold unescape_at.
  destruct (Nat.leb_spec (pos + 6) (length result)) as [Hle|Hgt]; cbn [andb]; [|lia].
  destruct (is_underscore (nth (pos + 4) result x00)); cbn [andb]; [|lia].
  destruct (is_underscore (nth (pos + 5) result x00)); [|lia].
  destruct (AsciiToHex _); [|lia].
  rewrite length_app, length_take. cbn [length]. rewrite length_drop. lia.
Qed.

Lemma Unescape_loop_total (fuel : nat) (result : list byte) (pos : nat) :
  (length result <= fuel + pos + 1)%nat -> is_Some (Unescape_loop fuel result pos).
Proof.
  revert result pos. induction fuel as [|fuel IH]; intros result pos Hf; cbn [Unescape_loop].
  - destruct (string_find_uu result pos) as [found|] eqn:E; [|eauto].
    apply string_find_uu_Some in E. lia.
  - destruct (string_find_uu result pos) as [found|] eqn:E; [|eauto].
    apply string_find_uu_Some in E. apply IH.
    pose proof (unescape_at_length result found). lia.
Qed.

Lemma Unescape_loop_more_fuel (fuel fuel' : nat) (result : list byte) (pos : nat) res :
  Unescape_loop fuel result pos = Some res -> (fuel <= fuel')%nat ->
  Unescape_loop fuel' result pos = Some res.
Proof.
  revert fuel' result pos. induction fuel as [|fuel IH]; intros fuel' result pos H Hle.
  - destruct fuel'; cbn [Unescape_loop] in *;
      destruct (string_find_uu result pos); congruence.
  - destruct fuel' as [|fuel']; [lia|]. cbn [Unescape_loop] in *.
    destruct (string_find_uu result pos); [|exact H]. apply IH; [exact H|lia].
Qed.

Lemma UnescapeFileName_loop (fuel : nat) (s : list byte) :
  (length s <= fuel)%nat -> Unescape_loop fuel s 0 = Some (UnescapeFileName s).
Proof.
  intros Hf. unfold UnescapeFileName.
  destruct (Unescape_loop_total (length s) s 0) as [res Hres]; [lia|].
  rewrite Hres. eapply Unescape_loop_more_fuel; eauto.
Qed.

Lemma Unescape_loop_length (fuel : nat) (result : list byte) (pos : nat) res :
  Unescape_loop fuel result pos = Some res -> (length res <= length result)%nat.
Proof.
  revert result pos. induction fuel as [|fuel IH]; intros result pos; cbn [Unescape_loop].
  - destruct (string_find_uu result pos); [discriminate|]. now intros [= <-].
  - destruct (string_find_uu result pos) as [found|]; [|now intros [= <-]].
    intros H. apply IH in H. pose proof (unescape_at_length result found). lia.
Qed.

(** X15. [UnescapeFileName] terminates within as many rounds as the name
    has characters and never makes a name longer. *)
Theorem UnescapeFileName_not_longer (s : list byte) :
  is_Some (Unescape_loop (length s) s 0) /\
  (length (UnescapeFileName s) <= length s)%nat.
Proof.
  split; [apply Unescape_loop_total; lia|].
  apply (Unescape_loop_length (length s) s 0). now apply UnescapeFileName_loop.
Qed.

Lemma Unescape_loop_fixed (fuel : nat) (s : list byte) (pos : nat) res :
  (forall j, s !! j = Some underscore -> s !! S j = Some underscore -> unescape_at s j = s) ->
  Unescape_loop fuel s pos = Some res -> res = s.
Proof.
  intros Hfix. revert pos. induction fuel as [|fuel IH]; intros pos; cbn [Unescape_loop].
  - destruct (string_find_uu s pos); [discriminate|]. now intros [= <-].
  - destruct (string_find_uu s pos) as [found|] eqn:E; [|now intros [= <-]].
    destruct (string_find_uu_Some _ _ _ E) as (_ & _ & H1 & H2).
    rewrite (Hfix _ H1 H2). apply IH.
Qed.

(** X16. A name is returned unchanged when it has no decodable escape
    sequence: wherever the six characters ["__"], two characters, ["__"]
    stand, [AsciiToHex] rejects the two characters. In particular a name
    without two adjacent underscores is returned unchanged. *)
Theorem UnescapeFileName_without_escape (s : list byte) :
  (forall j,
     (j + 6 <= length s)%nat ->
     s !! j = Some underscore -> s !! S j = Some underscore ->
     nth (j + 4) s x00 = underscore -> nth (j + 5) s x00 = underscore ->
     AsciiToHex (take 2 (drop (j + 2) s)) = None) ->
  UnescapeFileName s = s.
Proof.
  intros H.
  apply (Unescape_loop_fixed (length s) s 0); [|now apply UnescapeFileName_loop].
  intros j H1 H2. unfold unescape_at.
  destruct (Nat.leb_spec (j + 6) (length s)) as [Hle|Hgt]; [|reflexivity].
  destruct (is_underscore (nth (j + 4) s x00)) eqn:E4; [|reflexivity].
  destruct (is_underscore (nth (j + 5) s x00)) eqn:E5; [|reflexivity].
  apply is_underscore_true in E4, E5. cbn [andb]. now rewrite (H j Hle H1 H2 E4 E5).
Qed.

Lemma unescape_at_cons (a : byte) (r : list byte) (j : nat) :
  unescape_at (a :: r) (S j) = a :: unescape_at r j.
Proof.
  unfold unescape_at. cbn [length Nat.add nth drop take].
  change (S (j + 6) <=? S (length r))%nat with (j + 6 <=? length r)%nat.
  destruct ((j + 6 <=? length r)%nat && is_underscore (nth (j + 4) r x00)
            && is_underscore (nth (j + 5) r x00)); [|reflexivity].
  now destruct (AsciiToHex _).
Qed.

Lemma Unescape_loop_cons (fuel : nat) (a : byte) (r : list byte) (pos : nat) :
  Unescape_loop fuel (a :: r) (S pos) = (a ::.) <$> Unescape_loop fuel r pos.
Proof.
  revert r pos. induction fuel as [|fuel IH]; intros r pos; cbn [Unescape_loop];
    unfold string_find_uu; cbn [drop]; rewrite find_uu_shift;
    destruct (find_uu (drop pos r) pos) as [found|]; cbn; try reflexivity.
  rewrite unescape_at_cons. apply IH.
Qed.

Lemma Unescape_loop_same_find (fuel : nat) (r : list byte) (pos pos' : nat) :
  string_find_uu r pos = string_find_uu r pos' ->
  Unescape_loop fuel r pos = Unescape_loop fuel r pos'.
Proof. intros H. destruct fuel; cbn [Unescape_loop]; now rewrite H. Qed.

(** X17. [UnescapeFileName] decodes from left to right: a leading character
    that does not start ["__"] is copied and the rest of the name is
    unescaped on its own; a leading ["__"], two characters [AsciiToHex]
    accepts with value [c], ["__"] becomes the single character of code
    [c mod 256], followed by the rest of the name unescaped on its own. *)
Theorem UnescapeFileName_left_to_right (a h1 h2 : byte) (rest : list byte) (c : Z) :
  (~ (a = underscore /\ head rest = Some underscore) ->
   UnescapeFileName (a :: rest) = a :: UnescapeFileName rest) /\
  (AsciiToHex [h1; h2] = Some c ->
   UnescapeFileName (underscore :: underscore :: h1 :: h2 :: underscore :: underscore :: rest)
     = byte_of_Z c :: UnescapeFileName rest).
Proof.
  split.
  - intros Hno.
    assert (string_find_uu (a :: rest) 0 = string_find_uu (a :: rest) 1) as Hfind.
    { unfold string_find_uu. cbn [drop find_uu]. destruct rest as [|b t]; [reflexivity|].
      destruct (is_underscore a && is_underscore b) eqn:E; [|reflexivity].
      apply andb_true_iff in E as [Ha Hb]. apply is_underscore_true in Ha, Hb.
      subst. now destruct Hno. }
    pose proof (UnescapeFileName_loop (length (a :: rest)) (a :: rest) (le_n _)) as H.
    rewrite (Unescape_loop_same_find _ _ 0 1 Hfind), Unescape_loop_cons in H.
    rewrite (UnescapeFileName_loop (length (a :: rest)) rest) in H by (cbn; lia).
    cbn in H. now injection H as <-.
  - intros Hhex.
    set (s := underscore :: underscore :: h1 :: h2 :: underscore :: underscore :: rest).
    pose proof (UnescapeFileName_loop (length s) s (le_n _)) as H.
    assert (length s = S (5 + length rest)) as Hlen by reflexivity.
    rewrite Hlen in H. cbn [Unescape_loop] in H.
    assert (string_find_uu s 0 = Some 0%nat) as Hfind by reflexivity.
    rewrite Hfind in H.
    assert (unescape_at s 0 = byte_of_Z c :: rest) as Hat.
    { unfold unescape_at. subst s. cbn [length Nat.add nth drop take].
      assert (is_underscore underscore = true) as -> by reflexivity.
      cbn [Nat.leb andb]. now rewrite Hhex. }
    rewrite Hat, Unescape_loop_cons in H.
    rewrite (UnescapeFileName_loop (5 + length rest) rest) in H by lia.
    cbn in H. now injection H as <-.
Qed.

End UnescapeFacts.

(** * The further properties on concrete images *)

Lemma length_counting (n : nat) (i : Z) : length (counting n i) = n.
Proof. revert i. induction n as [|n IH]; intros i; cbn; [reflexivity|]. now rewrite IH. Qed.

Lemma fixture_reader_fills_request (im : Fixture.Image) :
  reader_fills_request (BR := Fixture.reader im).
Proof.
  intros off len bs. cbn.
  destruct ((0 <=? len) && (off + len <=? Fixture.img_size im)); [|discriminate].
  intros [= <-]. now rewrite length_fmap, length_counting.
Qed.

Lemma fixture_cbc_keeps_length : cbc_keeps_length (MB := Fixture.crypto).
Proof. intros aes iv input. cbn. apply length_fmap. Qed.

Module OverlappingDiscMore.
Import Fixture HeaderFixture.
#[local] Existing Instance none_decl.
#[local] Existing Instance es.
#[local] Existing Instance crypto.
#[local] Existing Instance overlapping_reader.
#[local] Existing Instance base.

Lemma P1_known : is_Some (m_partition_keys overlapping_disc !! offset P1).
Proof. exists K1. vm_compute. reflexivity. Qed.

Lemma P1_key : m_partition_keys overlapping_disc !! offset P1 = Some K1.
Proof. vm_compute. reflexivity. Qed.

Lemma game_partition_is_listed_witness :
  GetGamePartition overlapping_disc = PARTITION_NONE \/
  GetGamePartition overlapping_disc ∈ GetPartitions overlapping_disc.
Proof. apply game_partition_is_listed, reachable_ctor. Defined.

Lemma known_partition_ticket_witness :
  exists tb,
    blob_Read (offset P1) 0x2A4 = Some tb /\
    GetTicket overlapping_disc P1 = MkTicketReader tb /\
    TicketReader_IsValid (GetTicket overlapping_disc P1) = true /\
    Z.of_nat (length (TicketReader_GetTitleKey (GetTicket overlapping_disc P1))) = 16 /\
    m_partition_keys overlapping_disc !! offset P1 =
      Some (mbedtls_aes_setkey_dec (TicketReader_GetTitleKey (GetTicket overlapping_disc P1))) /\
    GetTitleID overlapping_disc P1 =
      Some (TicketReader_GetTitleId (GetTicket overlapping_disc P1)).
Proof. apply known_partition_ticket; [apply reachable_ctor|exact P1_known]. Defined.

Lemma known_partition_tmd_witness :
  exists size addr mb,
    ReadSwapped_u32 (add64 (offset P1) 0x2a4) = Some size /\
    ReadSwapped_u32 (add64 (offset P1) 0x2a8) = Some addr /\
    IsValidTMDSize size = true /\
    blob_Read (wrap64 (offset P1 + (4 * addr) mod 2 ^ 32)) size = Some mb /\
    GetTMD overlapping_disc P1 = MkTMDReader mb.
Proof. apply known_partition_tmd; [apply reachable_ctor|exact P1_known]. Defined.

Lemma known_partition_offset_witness :
  offset P1 mod 4 = 0 /\ 0 <= offset P1 < 2 ^ 34 /\
  forall o, block_offset_on_disc P1 o <> UINT64_MAX.
Proof.
  apply (known_partition_offset overlapping_disc); [apply reachable_ctor|exact P1_known].
Defined.

Lemma GetBanner_needs_game_partition_witness :
  GetGamePartition overlapping_disc = P1 /\
  GetBanner overlapping_disc =
    GetWiiBanner (TicketReader_GetTitleId (GetTicket overlapping_disc P1)).
Proof.
  assert (GetGamePartition overlapping_disc = P1) as Hg by (vm_compute; reflexivity).
  split; [exact Hg|].
  destruct (GetBanner_needs_game_partition overlapping_disc) as [_ H].
  - apply reachable_ctor.
  - simpl. lia.
  - reflexivity.
  - rewrite Hg in H. apply H. discriminate.
Defined.

Lemma Read_after_construction_witness :
  serve_clusters (Z.to_nat 4) K1 P1 0x7BFE 4
    = Some (fst (Read (fst VolumeWii_ctor) 0x7BFE 4 P1)).
Proof. apply Read_after_construction; [reflexivity|exact P1_key]. Defined.

Lemma Read_cache_hit_witness :
  Read after_P1_read 0x7C00 0 P1 = (true, [], after_P1_read) /\
  Read after_P1_read 0x7C10 4 P1 =
    (true,
     take (Z.to_nat 4)
       (drop (Z.to_nat (data_offset_in_block 0x7C10))
          (m_last_decrypted_block_data after_P1_read)),
     after_P1_read).
Proof.
  assert (m_partition_keys after_P1_read !! offset P1 = Some K1) as Hk
    by (vm_compute; reflexivity).
  assert (Partition_eqb P1 PARTITION_NONE = false) as Hp by reflexivity.
  split.
  - exact (proj1 (Read_cache_hit after_P1_read K1 P1 0x7C00 0 Hp Hk)).
  - apply (proj2 (Read_cache_hit after_P1_read K1 P1 0x7C10 4 Hp Hk)).
    + vm_compute. reflexivity.
    + lia.
    + vm_compute. discriminate.
Defined.

Lemma Read_stores_requested_length_witness :
  length (m_last_decrypted_block_data after_P1_read) = Z.to_nat 0x7C00 /\
  Z.of_nat (length (snd (fst (Read after_P1_read 0x7BFE 4 P1)))) <= 4 /\
  (fst (fst (Read after_P1_read 0x7BFE 4 P1)) = true ->
   Z.of_nat (length (snd (fst (Read after_P1_read 0x7BFE 4 P1)))) = 4).
Proof.
  apply (Read_stores_requested_length after_P1_read K1 P1 0x7BFE 4).
  - apply fixture_reader_fills_request.
  - apply fixture_cbc_keeps_length.
  - apply reachable_Read, reachable_ctor.
  - reflexivity.
  - vm_compute. reflexivity.
  - lia.
Defined.

Lemma header_fields_are_slices_witness :
  GetGameID overlapping_disc P1
    = (DecodeString (take 6 (snd (fst (Read overlapping_disc 0 0x2450 P1)))),
       snd (Read overlapping_disc 0 0x2450 P1)) /\
  GetMakerID overlapping_disc P1
    = (DecodeString (take 2 (drop 4 (take 6 (snd (fst (Read overlapping_disc 0 0x2450 P1)))))),
       snd (Read overlapping_disc 0 0x2450 P1)) /\
  GetDiscNumber overlapping_disc P1
    = (Some (byte_at (snd (fst (Read overlapping_disc 0 0x2450 P1))) 6),
       snd (Read overlapping_disc 0 0x2450 P1)) /\
  GetRevision overlapping_disc P1
    = (Some (byte_at (snd (fst (Read overlapping_disc 0 0x2450 P1))) 7),
       snd (Read overlapping_disc 0 0x2450 P1)).
Proof.
  destruct (header_fields_are_slices overlapping_disc
              (snd (Read overlapping_disc 0 0x2450 P1)) K1 P1
              (snd (fst (Read overlapping_disc 0 0x2450 P1))))
    as (H1 & H2 & H3 & H4 & _).
  - reflexivity.
  - exact P1_key.
  - apply triple_eta. vm_compute. reflexivity.
  - auto.
Defined.

Lemma header_of_unknown_partition_witness :
  GetGameID overlapping_disc (MkPartition 0x1000) = ([], overlapping_disc) /\
  GetMakerID overlapping_disc (MkPartition 0x1000) = ([], overlapping_disc) /\
  GetInternalName overlapping_disc (MkPartition 0x1000) = ([], overlapping_disc) /\
  GetApploaderDate overlapping_disc (MkPartition 0x1000) = ([], overlapping_disc) /\
  GetRevision overlapping_disc (MkPartition 0x1000) = (None, overlapping_disc) /\
  GetDiscNumber overlapping_disc (MkPartition 0x1000) = (None, overlapping_disc).
Proof.
  apply header_of_unknown_partition; [reflexivity|vm_compute; reflexivity].
Defined.

Lemma CheckIntegrity_skips_holes_witness :
  CheckIntegrity 0 after_P1_read P1 = (true, after_P1_read).
Proof.
  apply (CheckIntegrity_skips_holes 0 after_P1_read K1 P1 (byte_of_Z <$> [0; 0; 0x40; 0])).
  - vm_compute. reflexivity.
  - vm_compute. reflexivity.
  - assert (u32_be (byte_of_Z <$> [0; 0; 0x40; 0]) * 4 / 0x8000 = 2) as -> by reflexivity.
    intros c Hc. assert (c = 0 \/ c = 1) as [-> | ->] by lia; vm_compute; reflexivity.
Defined.

Lemma PartitionOffsetToRawOffset_in_cluster_witness :
  PartitionOffsetToRawOffset 5 P1 = block_offset_on_disc P1 5 + data_offset_in_block 5 /\
  block_offset_on_disc P1 5 <= PartitionOffsetToRawOffset 5 P1
    < block_offset_on_disc P1 5 + BLOCK_DATA_SIZE /\
  PartitionOffsetToRawOffset 5 P1 < PartitionOffsetToRawOffset 0x7C05 P1.
Proof.
  apply PartitionOffsetToRawOffset_in_cluster.
  - reflexivity.
  - simpl. lia.
  - lia.
  - vm_compute. reflexivity.
Defined.

End OverlappingDiscMore.

Module SeparateDisc.
Import Fixture.
#[local] Existing Instance none_decl.
#[local] Existing Instance es.
#[local] Existing Instance crypto.
#[local] Existing Instance separate_reader.

Lemma disc_keys :
  GetPartitions separate_disc = [P1; P3] /\
  m_partition_keys separate_disc = <[0x50000 := K1]> {[0x80000 := K3]}.
Proof. split; vm_compute; reflexivity. Qed.

Lemma extent_bounded (q : Partition) : separate_extent q <= 2 ^ 64.
Proof. unfold separate_extent. destruct (_ || _); lia. Qed.

Lemma cluster_in_extent (p : Partition) (o : Z) :
  0 <= o < 0xF800 ->
  block_offset_on_disc p o = offset p + 0x20000 \/
  block_offset_on_disc p o = offset p + 0x28000 \/
  ~ (0 <= offset p < 2 ^ 32).
Proof.
  intros Ho. destruct (decide (0 <= offset p < 2 ^ 32)) as [Hp|Hp]; [|auto].
  rewrite block_offset_on_disc_explicit.
  assert (0 <= o / 0x7C00 < 2) as Hq.
  { split; [apply Z.div_pos; lia|apply Z.div_lt_upper_bound; lia]. }
  rewrite Z.mod_small by lia. lia.
Qed.

(** Inside their extents the two partitions of [separate] have no cluster
    in common. *)
Lemma disc_extents_disjoint (v : VolumeWii) :
  m_partition_keys v = m_partition_keys separate_disc ->
  extents_disjoint separate_extent v.
Proof.
  intros Hv p p' aes aes' o o'. rewrite Hv, (proj2 disc_keys).
  intros H1 H2. unfold separate_extent.
  apply lookup_insert_Some in H1 as [[E1 <-]|[N1 H1]];
    [|apply lookup_singleton_Some in H1 as [E1 <-]];
    (apply lookup_insert_Some in H2 as [[E2 <-]|[N2 H2]];
      [|apply lookup_singleton_Some in H2 as [E2 <-]]);
    try reflexivity;
    rewrite <- E1, <- E2; cbn [Z.eqb Pos.eqb orb];
    intros Ho Ho' Hb; exfalso;
    destruct (cluster_in_extent p o Ho) as [H|[H|H]];
    destruct (cluster_in_extent p' o' Ho') as [H'|[H'|H']]; lia.
Qed.

Lemma after_both_read_confined : confined separate_extent after_both_read.
Proof.
  unfold after_both_read.
  apply confined_Read; [apply confined_Read; [apply confined_ctor|..]|..];
    try lia; vm_compute; discriminate.
Qed.

(** Outside its extent the first partition reaches the clusters of the
    second: its cluster 6 is at [0xA0000], where the second partition's data
    starts, and a read there leaves a cache the second partition is then
    served from. *)
Lemma read_beyond_extent_aliases :
  block_offset_on_disc P1 (6 * 0x7C00) = block_offset_on_disc P3 0 /\
  ~ (6 * 0x7C00 < separate_extent P1) /\
  fst (Read (snd (Read separate_disc (6 * 0x7C00) 4 P1)) 0 4 P3)
    <> fst (Read separate_disc 0 4 P3).
Proof.
  split; [vm_compute; reflexivity|]. split; [vm_compute; discriminate|].
  intros H. vm_compute in H. discriminate H.
Qed.

(** The same read seen from the cache: the cached offset [0xA0000] is that
    of cluster 0 of the second partition and lies beyond the two clusters the
    first partition declares at [0x502BC], yet the buffer is the decryption
    with the first partition's key, not with the second's. *)
Lemma cache_filled_beyond_extent :
  ReadSwapped_u32 (add64 (offset P1) 0x2BC) = Some 0x4000 /\
  0x4000 * 4 / 0x8000 = 2 /\
  m_last_decrypted_block (snd (Read separate_disc (6 * 0x7C00) 4 P1))
    = (offset P3 + 0x20000 + 0 / 0x7C00 * 0x8000) mod 2 ^ 64 /\
  m_partition_keys (snd (Read separate_disc (6 * 0x7C00) 4 P1)) !! offset P3 = Some K3 /\
  exists cluster,
    blob_Read 0xA0000 0x8000 = Some cluster /\
    m_last_decrypted_block_data (snd (Read separate_disc (6 * 0x7C00) 4 P1)) <>
      mbedtls_aes_crypt_cbc_dec K3
        (take 16 (drop (Z.to_nat 0x3D0) cluster))
        (take (Z.to_nat 0x7C00) (drop (Z.to_nat 0x400) cluster)) /\
    m_last_decrypted_block_data (snd (Read separate_disc (6 * 0x7C00) 4 P1)) =
      mbedtls_aes_crypt_cbc_dec K1
        (take 16 (drop (Z.to_nat 0x3D0) cluster))
        (take (Z.to_nat 0x7C00) (drop (Z.to_nat 0x400) cluster)).
Proof.
  split; [vm_compute; reflexivity|]. split; [reflexivity|].
  split; [vm_compute; reflexivity|]. split; [vm_compute; reflexivity|].
  exists (image_byte separate <$> counting (Z.to_nat 0x8000) 0xA0000).
  split; [apply delivered_equal; vm_compute; reflexivity|].
  split; [apply bytes_differ|apply bytes_equal]; vm_compute; reflexivity.
Qed.

(** The cache holds cluster 0 of the second partition; the first partition
    is read across its two clusters, then the second from the cache. *)
Lemma Read_cache_transparent_witness :
  m_last_decrypted_block after_both_read = block_offset_on_disc P3 0 /\
  read_by_clusters (Z.to_nat 4) K1 P1 0x7BFE 4
    = Some (fst (Read after_both_read 0x7BFE 4 P1)) /\
  read_by_clusters (Z.to_nat 4) K3 P3 0x10 4
    = Some (fst (Read after_both_read 0x10 4 P3)).
Proof.
  assert (extents_disjoint separate_extent after_both_read) as Hdis.
  { apply disc_extents_disjoint. unfold after_both_read. now rewrite !Read_same_keys. }
  split; [vm_compute; reflexivity|]. split.
  - apply (Read_cache_transparent separate_extent).
    + exact extent_bounded.
    + exact after_both_read_confined.
    + exact Hdis.
    + reflexivity.
    + vm_compute. reflexivity.
    + lia.
    + lia.
    + vm_compute. discriminate.
  - apply (Read_cache_transparent separate_extent).
    + exact extent_bounded.
    + exact after_both_read_confined.
    + exact Hdis.
    + reflexivity.
    + vm_compute. reflexivity.
    + lia.
    + lia.
    + vm_compute. discriminate.
Defined.

End SeparateDisc.

Module UnescapeExamples.
Import NandPaths HeaderFixture.
#[local] Existing Instance hex_string.

(** ["a__zz__b"]: the two characters between the underscores are not
    hexadecimal digits. *)
Lemma UnescapeFileName_without_escape_witness :
  UnescapeFileName (bytes_of [97; 95; 95; 122; 122; 95; 95; 98])
    = bytes_of [97; 95; 95; 122; 122; 95; 95; 98].
Proof.
  apply UnescapeFileName_without_escape.
  intros j Hj H1 H2 _ _.
  destruct j as [|[|[|j]]]; try (cbn in Hj; lia); cbn in H1, H2; try discriminate.
  vm_compute. reflexivity.
Defined.

(** ["x__2e__y"] decodes to ["x.y"]. *)
Lemma UnescapeFileName_left_to_right_witness :
  UnescapeFileName (bytes_of [120; 95; 95; 50; 101; 95; 95; 121]) = bytes_of [120; 46; 121].
Proof.
  destruct (UnescapeFileName_left_to_right (byte_of_Z 120) (byte_of_Z 50) (byte_of_Z 101)
              (bytes_of [95; 95; 50; 101; 95; 95; 121]) 0) as [Hcopy _].
  destruct (UnescapeFileName_left_to_right (byte_of_Z 121) (byte_of_Z 50) (byte_of_Z 101)
              (bytes_of [121]) 46) as [_ Hdecode].
  change (bytes_of [120; 95; 95; 50; 101; 95; 95; 121])
    with (byte_of_Z 120 :: bytes_of [95; 95; 50; 101; 95; 95; 121]).
  rewrite Hcopy by (intros [H _]; vm_compute in H; discriminate).
  change (bytes_of [95; 95; 50; 101; 95; 95; 121])
    with (underscore :: underscore :: byte_of_Z 50 :: byte_of_Z 101
            :: underscore :: underscore :: bytes_of [121]).
  rewrite Hdecode by (vm_compute; reflexivity).
  vm_compute. reflexivity.
Defined.

End UnescapeExamples.
